(** * Neighbour search and force kernels of chapter3.cpp

    A shallow embedding of [chapter-3-many-body-potentials/chapter3.cpp]
    and the properties of its neighbour-list builders, its periodic-box
    geometry and its two force kernels.

    Numbers.  A C++ [double] is modelled by an exact rational in lowest
    terms ([Qc]); the development is about the control flow, the indexing
    and the algebra of the program, not about rounding.  A quotient by
    zero, which gives a double infinity or NaN, is 0 in [Qc]; the
    statements that depend on a quotient say so.  Functions of <cmath>
    that leave the rationals ([sqrt], [exp], [cos], [sin], [pow]) are
    section variables.  An [int] that holds an atom index or a count is a
    [nat], an [int] that can go negative (a cell coordinate) is a [Z];
    signed overflow is undefined in C++ and is not modelled.  The two
    places where a value leaves [double] are modelled as they are
    compiled: the unqualified [abs] of [getThickness], which with
    <cmath> alone is the [int abs(int)] of the C library under g++ (the
    compiler that the header of the file names), so that its argument
    is converted to [int] ([toInt]); and the [float] that [getArea]
    returns ([toFloat]).

    Arrays.  A [std::vector] or C array read and written in range is a
    list with stdpp's lookup [!!!] and insert [<[ _ := _ ]>].  The
    neighbour buffer [NL] is the one array the program stores into beyond
    its end; it is a finite map from slot to value, so that such a store
    stays visible.  A slot never stored to reads as [0], which is how
    [allocateMemory] fills it.  The arrays [b] and [bp] of the bond-order
    kernel are indexed like [NL] and modelled like it. *)

From Stdlib Require Import ZArith QArith Qcanon Qround Lia Lqa.
From Stdlib Require Qcabs.
From stdpp Require Import base list gmap.

Local Open Scope Qc_scope.

(** ** Numbers *)

(** Decimal constants of the source: [n # d] is the rational [n / d]. *)
Notation "n # d" := (Q2Qc (Qmake n d)) (at level 55, no associativity) : Qc_scope.

#[global] Instance Qc_inhabited : Inhabited Qc := populate 0.

(** [x < y] on doubles, as a boolean. *)
Definition qlt (x y : Qc) : bool := negb (Qle_bool y x).

Lemma qlt_true (u v : Qc) : qlt u v = true <-> u < v.
Proof.
  unfold qlt, Qclt. rewrite negb_true_iff.
  split; intros H.
  - apply Qnot_le_lt. intros Hle. apply Qle_bool_iff in Hle. congruence.
  - destruct (Qle_bool v u) eqn:E; [|reflexivity].
    apply Qle_bool_iff in E. exfalso. eapply Qlt_not_le; eauto.
Qed.

Lemma qlt_false (u v : Qc) : qlt u v = false <-> v <= u.
Proof.
  unfold qlt, Qcle. rewrite negb_false_iff. apply Qle_bool_iff.
Qed.

Ltac case_qlt :=
  match goal with
  | |- context [qlt ?a ?b] =>
      let E := fresh "E" in
      destruct (qlt a b) eqn:E;
      [apply qlt_true in E | apply qlt_false in E]
  | H : context [qlt ?a ?b] |- _ =>
      let E := fresh "E" in
      destruct (qlt a b) eqn:E;
      [apply qlt_true in E | apply qlt_false in E]
  end.

(** An [int] used where a [double] is expected. *)
Definition ofInt (n : Z) : Qc := Q2Qc (inject_Z n).

(** A [double] converted to [int]: the fractional part is dropped
    (truncation toward zero). *)
Definition toInt (q : Qc) : Z := (Qnum q ÷ Zpos (Qden q))%Z.

(** [2^e] for an integer [e]. *)
Definition pow2 (e : Z) : Qc :=
  if (0 <=? e)%Z then ofInt (2 ^ e) else 1 / ofInt (2 ^ (- e)).

(** The exponent of a positive number: the [e] with [2^e <= q < 2^(e+1)]. *)
Definition ilog2 (q : Qc) : Z :=
  let e := (Z.log2 (Qnum q) - Z.log2 (Zpos (Qden q)))%Z in
  if qlt q (pow2 e) then (e - 1)%Z else e.

(** The nearest integer, a tie going to the even one. *)
Definition roundEven (q : Qc) : Z :=
  let f := Qfloor q in
  let r := q - ofInt f in
  if qlt r (1#2) then f
  else if qlt (1#2) r then (f + 1)%Z
  else if Z.even f then f else (f + 1)%Z.

(** A [double] converted to [float] (IEEE binary32, rounding to nearest,
    ties to even): the nearest multiple of [2^(e - 23)] for the exponent
    [e] of the number, or of [2^-149] for a number below [2^-126].  A
    number too large for a [float] becomes an infinity, which is not
    modelled. *)
Definition toFloat (q : Qc) : Qc :=
  if Qc_eq_dec q 0 then 0
  else
    let a := Qcabs.Qcabs q in
    let u := Z.max (ilog2 a - 23) (-149) in
    let m := ofInt (roundEven (a / pow2 u)) * pow2 u in
    if qlt q 0 then - m else m.

(** Linear arithmetic on [Qc], through the underlying fractions. *)
Lemma this_plus (u v : Qc) : (this (u + v) == this u + this v)%Q.
Proof. apply Qred_correct. Qed.

Lemma this_opp (u : Qc) : (this (- u) == - this u)%Q.
Proof. apply Qred_correct. Qed.

Lemma this_minus (u v : Qc) : (this (u - v) == this u - this v)%Q.
Proof. unfold Qcminus. rewrite this_plus, this_opp. reflexivity. Qed.

Lemma this_Q2Qc (q : Q) : (this (Q2Qc q) == q)%Q.
Proof. apply Qred_correct. Qed.

Ltac qc_arith :=
  unfold Qclt, Qcle in *;
  repeat match goal with
         | H : context [this (_ + _)] |- _ => rewrite this_plus in H
         | H : context [this (_ - _)] |- _ => rewrite this_minus in H
         | H : context [this (- _)] |- _ => rewrite this_opp in H
         | H : context [this (Q2Qc _)] |- _ => rewrite this_Q2Qc in H
         | |- context [this (_ + _)] => rewrite this_plus
         | |- context [this (_ - _)] => rewrite this_minus
         | |- context [this (- _)] => rewrite this_opp
         | |- context [this (Q2Qc _)] => rewrite this_Q2Qc
         end;
  lra.

(** ** The box: [double box[18]], the matrix in 0..8, its inverse in 9..17 *)

Definition getDet (box : list Qc) : Qc :=
  box !!! 0%nat * (box !!! 4%nat * box !!! 8%nat - box !!! 5%nat * box !!! 7%nat) +
  box !!! 1%nat * (box !!! 5%nat * box !!! 6%nat - box !!! 3%nat * box !!! 8%nat) +
  box !!! 2%nat * (box !!! 3%nat * box !!! 7%nat - box !!! 4%nat * box !!! 6%nat).

Definition getInverseBox (box : list Qc) : list Qc :=
  let box := <[9%nat := box !!! 4%nat * box !!! 8%nat - box !!! 5%nat * box !!! 7%nat]> box in
  let box := <[10%nat := box !!! 2%nat * box !!! 7%nat - box !!! 1%nat * box !!! 8%nat]> box in
  let box := <[11%nat := box !!! 1%nat * box !!! 5%nat - box !!! 2%nat * box !!! 4%nat]> box in
  let box := <[12%nat := box !!! 5%nat * box !!! 6%nat - box !!! 3%nat * box !!! 8%nat]> box in
  let box := <[13%nat := box !!! 0%nat * box !!! 8%nat - box !!! 2%nat * box !!! 6%nat]> box in
  let box := <[14%nat := box !!! 2%nat * box !!! 3%nat - box !!! 0%nat * box !!! 5%nat]> box in
  let box := <[15%nat := box !!! 3%nat * box !!! 7%nat - box !!! 4%nat * box !!! 6%nat]> box in
  let box := <[16%nat := box !!! 1%nat * box !!! 6%nat - box !!! 0%nat * box !!! 7%nat]> box in
  let box := <[17%nat := box !!! 0%nat * box !!! 4%nat - box !!! 1%nat * box !!! 3%nat]> box in
  let det := getDet box in
  fold_left (fun bx n => <[n := bx !!! n / det]> bx) (seq 9 9) box.

(** The two changes of coordinates that [applyMic], [applyPbc] and
    [findCell] write out by hand: Cartesian to fractional through the
    inverse (entries 9..17) and back through the matrix (entries 0..8). *)
Definition toFractional (box : list Qc) (r : Qc * Qc * Qc) : Qc * Qc * Qc :=
  let '(rx, ry, rz) := r in
  (box !!! 9%nat * rx + box !!! 10%nat * ry + box !!! 11%nat * rz,
   box !!! 12%nat * rx + box !!! 13%nat * ry + box !!! 14%nat * rz,
   box !!! 15%nat * rx + box !!! 16%nat * ry + box !!! 17%nat * rz).

Definition toCartesian (box : list Qc) (s : Qc * Qc * Qc) : Qc * Qc * Qc :=
  let '(sx, sy, sz) := s in
  (box !!! 0%nat * sx + box !!! 1%nat * sy + box !!! 2%nat * sz,
   box !!! 3%nat * sx + box !!! 4%nat * sy + box !!! 5%nat * sz,
   box !!! 6%nat * sx + box !!! 7%nat * sy + box !!! 8%nat * sz).

(** ** Minimum image *)

Definition applyMicOne (x12 : Qc) : Qc :=
  if qlt x12 (-(1#2)) then x12 + 1
  else if qlt (1#2) x12 then x12 - 1
  else x12.

Definition applyMic (box : list Qc) (r12 : Qc * Qc * Qc) : Qc * Qc * Qc :=
  let '(sx12, sy12, sz12) := toFractional box r12 in
  let sx12 := applyMicOne sx12 in
  let sy12 := applyMicOne sy12 in
  let sz12 := applyMicOne sz12 in
  toCartesian box (sx12, sy12, sz12).

(** ** Periodic wrap *)

Definition applyPbcOne (sx : Qc) : Qc :=
  if qlt sx 0 then sx + 1
  else if qlt 1 sx then sx - 1
  else sx.

(** ** The particle system: [struct Atom] *)

(** An array indexed by slot. *)
Abbreviation buffer A := (gmap N A).

Record Atom := mkAtom {
  number : nat;
  numUpdates : nat;
  MN : nat;
  cutoffNeighbor : Qc;
  box : list Qc;
  NN : list nat;
  NL : buffer nat;
  mass : list Qc;
  x0 : list Qc; y0 : list Qc; z0 : list Qc;
  x : list Qc; y : list Qc; z : list Qc;
  vx : list Qc; vy : list Qc; vz : list Qc;
  fx : list Qc; fy : list Qc; fz : list Qc;
  pe : list Qc
}.

Definition set_numUpdates (v : nat) (a : Atom) : Atom :=
  mkAtom (number a) v (MN a) (cutoffNeighbor a) (box a) (NN a) (NL a) (mass a)
    (x0 a) (y0 a) (z0 a) (x a) (y a) (z a) (vx a) (vy a) (vz a)
    (fx a) (fy a) (fz a) (pe a).

Definition set_NN (v : list nat) (a : Atom) : Atom :=
  mkAtom (number a) (numUpdates a) (MN a) (cutoffNeighbor a) (box a) v (NL a) (mass a)
    (x0 a) (y0 a) (z0 a) (x a) (y a) (z a) (vx a) (vy a) (vz a)
    (fx a) (fy a) (fz a) (pe a).

Definition set_NL (v : buffer nat) (a : Atom) : Atom :=
  mkAtom (number a) (numUpdates a) (MN a) (cutoffNeighbor a) (box a) (NN a) v (mass a)
    (x0 a) (y0 a) (z0 a) (x a) (y a) (z a) (vx a) (vy a) (vz a)
    (fx a) (fy a) (fz a) (pe a).

Definition set_xyz0 (u v w : list Qc) (a : Atom) : Atom :=
  mkAtom (number a) (numUpdates a) (MN a) (cutoffNeighbor a) (box a) (NN a) (NL a) (mass a)
    u v w (x a) (y a) (z a) (vx a) (vy a) (vz a)
    (fx a) (fy a) (fz a) (pe a).

Definition set_xyz (u v w : list Qc) (a : Atom) : Atom :=
  mkAtom (number a) (numUpdates a) (MN a) (cutoffNeighbor a) (box a) (NN a) (NL a) (mass a)
    (x0 a) (y0 a) (z0 a) u v w (vx a) (vy a) (vz a)
    (fx a) (fy a) (fz a) (pe a).

Definition set_fx (v : list Qc) (a : Atom) : Atom :=
  mkAtom (number a) (numUpdates a) (MN a) (cutoffNeighbor a) (box a) (NN a) (NL a) (mass a)
    (x0 a) (y0 a) (z0 a) (x a) (y a) (z a) (vx a) (vy a) (vz a)
    v (fy a) (fz a) (pe a).

Definition set_fy (v : list Qc) (a : Atom) : Atom :=
  mkAtom (number a) (numUpdates a) (MN a) (cutoffNeighbor a) (box a) (NN a) (NL a) (mass a)
    (x0 a) (y0 a) (z0 a) (x a) (y a) (z a) (vx a) (vy a) (vz a)
    (fx a) v (fz a) (pe a).

Definition set_fz (v : list Qc) (a : Atom) : Atom :=
  mkAtom (number a) (numUpdates a) (MN a) (cutoffNeighbor a) (box a) (NN a) (NL a) (mass a)
    (x0 a) (y0 a) (z0 a) (x a) (y a) (z a) (vx a) (vy a) (vz a)
    (fx a) (fy a) v (pe a).

Definition set_pe (v : list Qc) (a : Atom) : Atom :=
  mkAtom (number a) (numUpdates a) (MN a) (cutoffNeighbor a) (box a) (NN a) (NL a) (mass a)
    (x0 a) (y0 a) (z0 a) (x a) (y a) (z a) (vx a) (vy a) (vz a)
    (fx a) (fy a) (fz a) v.

(** Reading one slot of the neighbour buffer. *)
Definition NLat (nl : buffer nat) (k : N) : nat := default 0%nat (nl !! k).

(** The subscript [i * MN + k]; slots are binary numbers, atoms and
    counts unary ones. *)
Definition slot (MN i k : nat) : N := (N.of_nat i * N.of_nat MN + N.of_nat k)%N.

(** ** Neighbour-list maintenance *)

(** The squared distance of atom [n] from where it was at the last
    rebuild, and the test of [checkIfNeedUpdate] on it. *)
Definition squaredMove (atom : Atom) (n : nat) : Qc :=
  let dx := x atom !!! n - x0 atom !!! n in
  let dy := y atom !!! n - y0 atom !!! n in
  let dz := z atom !!! n - z0 atom !!! n in
  dx * dx + dy * dy + dz * dz.

Definition movedTooFar (atom : Atom) (n : nat) : bool :=
  qlt (1#4) (squaredMove atom n).

(** The loop of [checkIfNeedUpdate], left at the first atom found. *)
Fixpoint checkIfNeedUpdate_from (atom : Atom) (ns : list nat) : bool :=
  match ns with
  | [] => false
  | n :: ns' => if movedTooFar atom n then true else checkIfNeedUpdate_from atom ns'
  end.

Definition checkIfNeedUpdate (atom : Atom) : bool :=
  checkIfNeedUpdate_from atom (seq 0 (number atom)).

Definition applyPbc_body (atom : Atom) (n : nat) : Atom :=
  let '(sx, sy, sz) :=
    toFractional (box atom) (x atom !!! n, y atom !!! n, z atom !!! n) in
  let sx := applyPbcOne sx in
  let sy := applyPbcOne sy in
  let sz := applyPbcOne sz in
  let '(rx, ry, rz) := toCartesian (box atom) (sx, sy, sz) in
  set_xyz (<[n := rx]> (x atom)) (<[n := ry]> (y atom)) (<[n := rz]> (z atom)) atom.

Definition applyPbc (atom : Atom) : Atom :=
  fold_left applyPbc_body (seq 0 (number atom)) atom.

Definition updateXyz0_body (atom : Atom) (n : nat) : Atom :=
  set_xyz0 (<[n := x atom !!! n]> (x0 atom)) (<[n := y atom !!! n]> (y0 atom))
           (<[n := z atom !!! n]> (z0 atom)) atom.

Definition updateXyz0 (atom : Atom) : Atom :=
  fold_left updateXyz0_body (seq 0 (number atom)) atom.

(** ** Outcomes of a build

    A builder returns, or prints
    "Error: number of neighbors for atom <i> exceeds <MN>" and calls
    [exit(1)]: [Fatal] keeps the two numbers printed and the state at the
    moment of the exit.  [OutOfRange] is a subscript outside one of the
    cell arrays of the cell-linked builder, which C++ leaves undefined. *)
Inductive outcome : Type :=
| Ok (atom : Atom)
| Fatal (atom : Atom) (index cap : nat)
| OutOfRange.

Definition bind (o : outcome) (k : Atom -> outcome) : outcome :=
  match o with
  | Ok atom => k atom
  | other => other
  end.

(** A [for] loop whose body may leave the program. *)
Fixpoint forEach {A : Type} (l : list A) (body : A -> Atom -> outcome)
    (atom : Atom) : outcome :=
  match l with
  | [] => Ok atom
  | v :: l' => bind (body v atom) (forEach l' body)
  end.

(** The two stores and the two tests that both builders run on an
    accepted pair (lines 272-283 and 382-393), in the order of the source:
    [NL[i * MN + NN[i]++] = j; NL[j * MN + NN[j]++] = i;] and then the
    comparisons of [NN[i]] and [NN[j]] with [MN]. *)
Definition storePair (i j : nat) (atom : Atom) : Atom :=
  let atom := set_NL (<[slot (MN atom) i (NN atom !!! i) := j]> (NL atom)) atom in
  let atom := set_NN (<[i := S (NN atom !!! i)]> (NN atom)) atom in
  let atom := set_NL (<[slot (MN atom) j (NN atom !!! j) := i]> (NL atom)) atom in
  let atom := set_NN (<[j := S (NN atom !!! j)]> (NN atom)) atom in
  atom.

Definition checkCapacity (i j : nat) (atom : Atom) : outcome :=
  if (MN atom <? NN atom !!! i)%nat then Fatal atom i (MN atom)
  else if (MN atom <? NN atom !!! j)%nat then Fatal atom j (MN atom)
  else Ok atom.

Definition recordPair (i j : nat) (atom : Atom) : outcome :=
  checkCapacity i j (storePair i j atom).

(** The squared minimum-image distance from atom [i] to atom [j], as both
    builders and both kernels compute it: the difference of the stored
    positions, [applyMic], the sum of squares. *)
Definition displacement (atom : Atom) (i j : nat) : Qc * Qc * Qc :=
  applyMic (box atom)
    (x atom !!! j - x atom !!! i, y atom !!! j - y atom !!! i, z atom !!! j - z atom !!! i).

Definition normSquare (r : Qc * Qc * Qc) : Qc :=
  let '(rx, ry, rz) := r in rx * rx + ry * ry + rz * rz.

Definition distanceSquare (atom : Atom) (i j : nat) : Qc :=
  normSquare (displacement atom i j).

Definition fillNN (atom : Atom) : Atom :=
  set_NN (replicate (length (NN atom)) 0%nat) atom.

(** ** The all-pairs builder *)

Definition findNeighborON2_inner (cutoffSquare : Qc) (i j : nat) (atom : Atom) : outcome :=
  if qlt (distanceSquare atom i j) cutoffSquare then recordPair i j atom else Ok atom.

Definition findNeighborON2 (atom : Atom) : outcome :=
  let cutoffSquare := cutoffNeighbor atom * cutoffNeighbor atom in
  let atom := fillNN atom in
  forEach (seq 0 (number atom - 1))
    (fun i => forEach (seq (i + 1) (number atom - (i + 1)))
                (findNeighborON2_inner cutoffSquare i))
    atom.

(** ** The cell-linked builder *)

(** [int numCells[4]] and [int cell[4]]: three coordinates and, last, the
    product (for [numCells]) or the flattened index (for [cell]). *)
Record int4 := mkInt4 { i0 : Z; i1 : Z; i2 : Z; i3 : Z }.

(** A subscript of a cell array that lies inside it. *)
Definition inRange (c : Z) (len : nat) : bool :=
  (0 <=? c)%Z && (c <? Z.of_nat len)%Z.

(** One turn of the loop over [d] in [findCell]. *)
Definition findCell_axis (s thickness cutoffInverse : Qc) (numCells : Z) : Z :=
  let c := Qfloor (s * thickness * cutoffInverse) in
  let c := if (c <? 0)%Z then (c + numCells)%Z else c in
  let c := if (c >=? numCells)%Z then (c - numCells)%Z else c in
  c.

Definition findCell (box : list Qc) (thickness r : Qc * Qc * Qc) (cutoffInverse : Qc)
    (numCells : int4) : int4 :=
  let '(s0, s1, s2) := toFractional box r in
  let '(t0, t1, t2) := thickness in
  let c0 := findCell_axis s0 t0 cutoffInverse (i0 numCells) in
  let c1 := findCell_axis s1 t1 cutoffInverse (i1 numCells) in
  let c2 := findCell_axis s2 t2 cutoffInverse (i2 numCells) in
  mkInt4 c0 c1 c2 (c0 + i0 numCells * (c1 + i1 numCells * c2))%Z.

(** First pass: [++cellCount[cell[3]]] for every atom. *)
Fixpoint countCells (cellIndex : nat -> Z) (ns : list nat) (cellCount : list nat)
    : option (list nat) :=
  match ns with
  | [] => Some cellCount
  | n :: ns' =>
      let c := cellIndex n in
      if inRange c (length cellCount)
      then countCells cellIndex ns'
             (<[Z.to_nat c := S (cellCount !!! Z.to_nat c)]> cellCount)
      else None
  end.

(** [cellCountSum[i] = cellCountSum[i - 1] + cellCount[i - 1]] for
    [i] from 1. *)
Definition prefixSum (cellCount : list nat) : list nat :=
  fold_left
    (fun cellCountSum i =>
       <[i := (cellCountSum !!! (i - 1)%nat + cellCount !!! (i - 1)%nat)%nat]> cellCountSum)
    (seq 1 (length cellCount - 1))
    (replicate (length cellCount) 0%nat).

(** Second pass:
    [cellContents[cellCountSum[cell[3]] + cellCount[cell[3]]] = n;
     ++cellCount[cell[3]]]. *)
Fixpoint scatterCells (cellIndex : nat -> Z) (cellCountSum : list nat) (ns : list nat)
    (cellCount cellContents : list nat) : option (list nat * list nat) :=
  match ns with
  | [] => Some (cellCount, cellContents)
  | n :: ns' =>
      let c := cellIndex n in
      if inRange c (length cellCount)
      then
        let c := Z.to_nat c in
        let cellContents :=
          <[(cellCountSum !!! c + cellCount !!! c)%nat := n]> cellContents in
        let cellCount := <[c := S (cellCount !!! c)]> cellCount in
        scatterCells cellIndex cellCountSum ns' cellCount cellContents
      else None
  end.

(** The flattened index of the cell at offset [(i, j, k)] from [cell],
    with the six periodic corrections of lines 359-371. *)
Definition neighborCellOf (numCells cell : int4) (k j i : Z) : Z :=
  let neighborCell := (i3 cell + (k * i1 numCells + j) * i0 numCells + i)%Z in
  let neighborCell :=
    if (i0 cell + i <? 0)%Z then (neighborCell + i0 numCells)%Z else neighborCell in
  let neighborCell :=
    if (i0 cell + i >=? i0 numCells)%Z then (neighborCell - i0 numCells)%Z else neighborCell in
  let neighborCell :=
    if (i1 cell + j <? 0)%Z then (neighborCell + i1 numCells * i0 numCells)%Z else neighborCell in
  let neighborCell :=
    if (i1 cell + j >=? i1 numCells)%Z then (neighborCell - i1 numCells * i0 numCells)%Z else neighborCell in
  let neighborCell :=
    if (i2 cell + k <? 0)%Z then (neighborCell + i3 numCells)%Z else neighborCell in
  let neighborCell :=
    if (i2 cell + k >=? i2 numCells)%Z then (neighborCell - i3 numCells)%Z else neighborCell in
  neighborCell.

(** The loop over [m]: the atoms of one cell against [n1]. *)
Definition findNeighborON1_inner (cutoffSquare : Qc) (cellCountSum cellContents : list nat)
    (neighborCell n1 m : nat) (atom : Atom) : outcome :=
  let n2 := cellContents !!! (cellCountSum !!! neighborCell + m)%nat in
  if (n1 <? n2)%nat then
    if qlt (distanceSquare atom n1 n2) cutoffSquare then recordPair n1 n2 atom else Ok atom
  else Ok atom.

Definition scanCell (cutoffSquare : Qc) (cellCount cellCountSum cellContents : list nat)
    (n1 : nat) (neighborCell : Z) (atom : Atom) : outcome :=
  if inRange neighborCell (length cellCount) then
    let neighborCell := Z.to_nat neighborCell in
    forEach (seq 0 (cellCount !!! neighborCell))
      (findNeighborON1_inner cutoffSquare cellCountSum cellContents neighborCell n1) atom
  else OutOfRange.

Definition offsets : list Z := [(-1)%Z; 0%Z; 1%Z].

(** The three loops over [k], [j] and [i] for one atom [n1] whose cell is
    [cell]. *)
Definition scanAround (cutoffSquare : Qc) (numCells : int4)
    (cellCount cellCountSum cellContents : list nat) (n1 : nat) (cell : int4)
    : Atom -> outcome :=
  forEach offsets (fun k =>
    forEach offsets (fun j =>
      forEach offsets (fun i =>
        scanCell cutoffSquare cellCount cellCountSum cellContents n1
          (neighborCellOf numCells cell k j i)))).

(** The loop over [n1]; [cellOfAtom n1] is the cell that [findCell]
    gives for atom [n1]. *)
Definition scanAtoms (cutoffSquare : Qc) (numCells : int4)
    (cellCount cellCountSum cellContents : list nat) (cellOfAtom : nat -> int4)
    (ns : list nat) : Atom -> outcome :=
  forEach ns (fun n1 =>
    scanAround cutoffSquare numCells cellCount cellCountSum cellContents
      n1 (cellOfAtom n1)).

Section CellList.

(** [sqrt] of <cmath>. *)
Variable sqrt : Qc -> Qc.

(** [float getArea(...)]: the square root is returned as a [float]. *)
Definition getArea (a b : Qc * Qc * Qc) : Qc :=
  let '(a0, a1, a2) := a in
  let '(b0, b1, b2) := b in
  let s1 := a1 * b2 - a2 * b1 in
  let s2 := a2 * b0 - a0 * b2 in
  let s3 := a0 * b1 - a1 * b0 in
  toFloat (sqrt (s1 * s1 + s2 * s2 + s3 * s3)).

(** [double volume = abs(getDet(atom.box))] calls [int abs(int)]: the
    determinant is converted to [int] and the volume is a whole number.
    The quotients by the areas are taken in [double]. *)
Definition getThickness (atom : Atom) : Qc * Qc * Qc :=
  let volume := ofInt (Z.abs (toInt (getDet (box atom)))) in
  let a := (box atom !!! 0%nat, box atom !!! 3%nat, box atom !!! 6%nat) in
  let b := (box atom !!! 1%nat, box atom !!! 4%nat, box atom !!! 7%nat) in
  let c := (box atom !!! 2%nat, box atom !!! 5%nat, box atom !!! 8%nat) in
  (volume / getArea b c, volume / getArea c a, volume / getArea a b).

(** The grid of a state: [numCells] as [findNeighborON1] computes it. *)
Definition gridOf (atom : Atom) : int4 :=
  let cutoffInverse := 1 / cutoffNeighbor atom in
  let '(t0, t1, t2) := getThickness atom in
  let n0 := Qfloor (t0 * cutoffInverse) in
  let n1 := Qfloor (t1 * cutoffInverse) in
  let n2 := Qfloor (t2 * cutoffInverse) in
  mkInt4 n0 n1 n2 (n0 * n1 * n2)%Z.

(** The cell of atom [n]: the [findCell] call of each of the three
    loops over the atoms. *)
Definition cellOf (atom : Atom) (n : nat) : int4 :=
  findCell (box atom) (getThickness atom)
    (x atom !!! n, y atom !!! n, z atom !!! n)
    (1 / cutoffNeighbor atom) (gridOf atom).

(** The three cell arrays when the atom loop starts: [cellCount],
    [cellCountSum] and [cellContents] after the two passes over the
    atoms. *)
Definition cellArrays (atom : Atom) : option (list nat * list nat * list nat) :=
  let numCells := gridOf atom in
  let cellIndex := fun n => i3 (cellOf atom n) in
  let cellCount := replicate (Z.to_nat (i3 numCells)) 0%nat in
  match countCells cellIndex (seq 0 (number atom)) cellCount with
  | None => None
  | Some cellCount =>
      let cellCountSum := prefixSum cellCount in
      let cellCount := replicate (length cellCount) 0%nat in
      let cellContents := replicate (number atom) 0%nat in
      match scatterCells cellIndex cellCountSum (seq 0 (number atom))
              cellCount cellContents with
      | None => None
      | Some (cellCount, cellContents) => Some (cellCount, cellCountSum, cellContents)
      end
  end.

Definition findNeighborON1 (atom : Atom) : outcome :=
  let cutoffSquare := cutoffNeighbor atom * cutoffNeighbor atom in
  match cellArrays atom with
  | None => OutOfRange
  | Some (cellCount, cellCountSum, cellContents) =>
      scanAtoms cutoffSquare (gridOf atom) cellCount cellCountSum cellContents
        (cellOf atom) (seq 0 (number atom)) (fillNN atom)
  end.

(** The builder that the macro [USE_ON1] selects. *)
Definition builder (USE_ON1 : bool) (atom : Atom) : outcome :=
  if USE_ON1 then findNeighborON1 atom else findNeighborON2 atom.

(** [findNeighbor]; [rebuild] is the body of its [if]. *)
Definition rebuild (USE_ON1 : bool) (atom : Atom) : outcome :=
  let atom := set_numUpdates (S (numUpdates atom)) atom in
  let atom := applyPbc atom in
  bind (builder USE_ON1 atom) (fun atom => Ok (updateXyz0 atom)).

Definition findNeighbor (USE_ON1 : bool) (atom : Atom) : outcome :=
  if checkIfNeedUpdate atom then rebuild USE_ON1 atom else Ok atom.

End CellList.

(** ** The Lennard-Jones kernel: [findForce(Atom&)] *)

Module LJ.
Definition epsilon : Qc := 1032 # 100000.
Definition sigma : Qc := 3405 # 1000.
Definition cutoff : Qc := 9 # 1.
Definition cutoffSquare : Qc := cutoff * cutoff.
Definition sigma3 : Qc := sigma * sigma * sigma.
Definition sigma6 : Qc := sigma3 * sigma3.
Definition sigma12 : Qc := sigma6 * sigma6.
Definition e24s6 : Qc := (24 # 1) * epsilon * sigma6.
Definition e48s12 : Qc := (48 # 1) * epsilon * sigma12.
Definition e4s6 : Qc := (4 # 1) * epsilon * sigma6.
Definition e4s12 : Qc := (4 # 1) * epsilon * sigma12.

(** The factor [f_ij] and the energy term of one visit, from [r2]. *)
Definition f_ij (r2 : Qc) : Qc :=
  let r2inv := 1 / r2 in
  let r4inv := r2inv * r2inv in
  let r6inv := r2inv * r4inv in
  let r8inv := r4inv * r4inv in
  let r14inv := r6inv * r8inv in
  e24s6 * r8inv - e48s12 * r14inv.

Definition pairEnergy (r2 : Qc) : Qc :=
  let r2inv := 1 / r2 in
  let r4inv := r2inv * r2inv in
  let r6inv := r2inv * r4inv in
  let r8inv := r4inv * r4inv in
  let r12inv := r4inv * r8inv in
  e4s12 * r12inv - e4s6 * r6inv.
End LJ.

Definition findForce_zero (atom : Atom) (n : nat) : Atom :=
  let atom := set_pe (<[n := 0]> (pe atom)) atom in
  let atom := set_fz (<[n := 0]> (fz atom)) atom in
  let atom := set_fy (<[n := 0]> (fy atom)) atom in
  let atom := set_fx (<[n := 0]> (fx atom)) atom in
  atom.

(** The body of the loop over [jj]. *)
Definition findForce_inner (i : nat) (atom : Atom) (jj : nat) : Atom :=
  let j := NLat (NL atom) (slot (MN atom) i jj) in
  let '(xij, yij, zij) := displacement atom i j in
  let r2 := xij * xij + yij * yij + zij * zij in
  if qlt LJ.cutoffSquare r2 then atom
  else
    let f_ij := LJ.f_ij r2 in
    let atom := set_pe (<[i := pe atom !!! i + LJ.pairEnergy r2]> (pe atom)) atom in
    let atom := set_fx (<[i := fx atom !!! i + f_ij * xij]> (fx atom)) atom in
    let atom := set_fx (<[j := fx atom !!! j - f_ij * xij]> (fx atom)) atom in
    let atom := set_fy (<[i := fy atom !!! i + f_ij * yij]> (fy atom)) atom in
    let atom := set_fy (<[j := fy atom !!! j - f_ij * yij]> (fy atom)) atom in
    let atom := set_fz (<[i := fz atom !!! i + f_ij * zij]> (fz atom)) atom in
    let atom := set_fz (<[j := fz atom !!! j - f_ij * zij]> (fz atom)) atom in
    atom.

Definition findForce_outer (atom : Atom) (i : nat) : Atom :=
  fold_left (findForce_inner i) (seq 0 (NN atom !!! i)) atom.

Definition findForce (atom : Atom) : Atom :=
  let atom := fold_left findForce_zero (seq 0 (number atom)) atom in
  fold_left findForce_outer (seq 0 (number atom)) atom.

(** [std::accumulate(atom.pe.begin(), atom.pe.end(), 0.0)], the potential
    energy that [main] writes to energy.txt. *)
Definition sumQ (l : list Qc) : Qc := fold_left Qcplus l 0.

(** ** The state [main] starts from *)

(** [Atom atom; allocateMemory(numCells, atom);] the members have the
    defaults of the struct, the vectors are filled as [resize] fills
    them, and the 18 doubles of [box], which [allocateMemory] does not
    touch, are taken to be 0. *)
Definition allocateMemory (numCells : nat) : Atom :=
  let numAtomsPerCell := 4%nat in
  let number := (numCells * numCells * numCells * numAtomsPerCell)%nat in
  mkAtom number 0 1000 (10 # 1) (replicate 18 0)
    (replicate number 0%nat) ∅ (replicate number (40 # 1))
    (replicate number 0) (replicate number 0) (replicate number 0)
    (replicate number 0) (replicate number 0) (replicate number 0)
    (replicate number 0) (replicate number 0) (replicate number 0)
    (replicate number 0) (replicate number 0) (replicate number 0)
    (replicate number 0).

Definition set_box (v : list Qc) (a : Atom) : Atom :=
  mkAtom (number a) (numUpdates a) (MN a) (cutoffNeighbor a) v (NN a) (NL a) (mass a)
    (x0 a) (y0 a) (z0 a) (x a) (y a) (z a) (vx a) (vy a) (vz a)
    (fx a) (fy a) (fz a) (pe a).

Definition latticeConstant : Qc := 5385 # 1000.

(** The basis of the face-centred cubic cell: [x0], [y0], [z0] of
    [initializePosition]. *)
Definition basis : list (Qc * Qc * Qc) :=
  [(0, 0, 0); (0, 1#2, 1#2); (1#2, 0, 1#2); (1#2, 1#2, 0)].

(** The four nested loops over [ix], [iy], [iz] and [i], in order. *)
Definition latticeSites (numCells : nat) : list (Qc * Qc * Qc) :=
  flat_map (fun ix =>
    flat_map (fun iy =>
      flat_map (fun iz =>
        map (fun b =>
               ((Q2Qc (inject_Z (Z.of_nat ix)) + b.1.1) * latticeConstant,
                (Q2Qc (inject_Z (Z.of_nat iy)) + b.1.2) * latticeConstant,
                (Q2Qc (inject_Z (Z.of_nat iz)) + b.2) * latticeConstant))
            basis)
        (seq 0 numCells))
      (seq 0 numCells))
    (seq 0 numCells).

Definition initializePosition (numCells : nat) (atom : Atom) : Atom :=
  let L := latticeConstant * Q2Qc (inject_Z (Z.of_nat numCells)) in
  let box :=
    fold_left (fun bx d1 =>
      fold_left (fun bx d2 =>
        <[(d1 * 3 + d2)%nat := if decide (d1 = d2) then L else 0]> bx)
        (seq 0 3) bx)
      (seq 0 3) (box atom) in
  let atom := set_box (getInverseBox box) atom in
  fst (fold_left (fun '(atom, n) r =>
         (set_xyz (<[n := r.1.1]> (x atom)) (<[n := r.1.2]> (y atom))
                  (<[n := r.2]> (z atom)) atom, S n))
       (latticeSites numCells) (atom, 0%nat)).

(** ** The bond-order (Tersoff) kernel *)

(** The state the kernel accumulates into: the three force arrays and
    [double prop[7]]. *)
Record kernelState := mkKernel {
  kfx : list Qc; kfy : list Qc; kfz : list Qc; kprop : list Qc
}.

(** Reading [b] and [bp], which are indexed like [NL]. *)
Definition slotAt (m : buffer Qc) (k : N) : Qc := default 0 (m !! k).

(** The search for the slot of [n1] in the list of [n2]
    (lines 628-634): the first [k] with [NL[n2 * MN + k] == n1], else 0. *)
Fixpoint find_offset (NL : buffer nat) (MN n1 n2 : nat) (ks : list nat) : nat :=
  match ks with
  | [] => 0%nat
  | k :: ks' =>
      if decide (NLat NL (slot MN n2 k) = n1) then k
      else find_offset NL MN n1 n2 ks'
  end.

Module Tersoff.
Definition a : Qc := 13936 # 10.
Definition lambda : Qc := 34879 # 10000.
Definition b : Qc := 430 # 1.
Definition mu : Qc := 22119 # 10000.
Definition r1 : Qc := 18 # 10.
Definition r2 : Qc := 21 # 10.
Definition pi : Qc := 3141592653589793 # 1000000000000000.
Definition pi_factor : Qc := pi / (r2 - r1).
Definition c : Qc := 38049 # 1.
Definition d : Qc := 43484 # 10000.
Definition h : Qc := - (930 # 1000).
Definition c2 : Qc := c * c.
Definition d2 : Qc := d * d.
Definition c2overd2 : Qc := c2 / d2.
Definition beta : Qc := 15724 # 100000000000.
Definition n : Qc := 72751 # 100000.
Definition minus_half_over_n : Qc := - (1 # 2) / n.
End Tersoff.

Section BondOrder.

(** [sqrt], [exp], [cos], [sin] and [pow] of <cmath>. *)
Variables sqrt exp cos sin : Qc -> Qc.
Variable pow : Qc -> Qc -> Qc.

Definition find_fr_and_frp (d12 : Qc) : Qc * Qc :=
  let fr := Tersoff.a * exp (- Tersoff.lambda * d12) in
  (fr, - Tersoff.lambda * fr).

Definition find_fa_and_fap (d12 : Qc) : Qc * Qc :=
  let fa := Tersoff.b * exp (- Tersoff.mu * d12) in
  (fa, - Tersoff.mu * fa).

Definition find_fa (d12 : Qc) : Qc := Tersoff.b * exp (- Tersoff.mu * d12).

Definition find_fc_and_fcp (d12 : Qc) : Qc * Qc :=
  if qlt d12 Tersoff.r1 then (1, 0)
  else if qlt d12 Tersoff.r2 then
    (cos (Tersoff.pi_factor * (d12 - Tersoff.r1)) * (1 # 2) + (1 # 2),
     - sin (Tersoff.pi_factor * (d12 - Tersoff.r1)) * Tersoff.pi_factor * (1 # 2))
  else (0, 0).

Definition find_fc (d12 : Qc) : Qc :=
  if qlt d12 Tersoff.r1 then 1
  else if qlt d12 Tersoff.r2 then
    cos (Tersoff.pi_factor * (d12 - Tersoff.r1)) * (1 # 2) + (1 # 2)
  else 0.

Definition find_g_and_gp (cosine : Qc) : Qc * Qc :=
  let temp := Tersoff.d2 + (cosine - Tersoff.h) * (cosine - Tersoff.h) in
  (1 + Tersoff.c2overd2 - Tersoff.c2 / temp,
   (2 # 1) * Tersoff.c2 * (cosine - Tersoff.h) / (temp * temp)).

Definition find_g (cosine : Qc) : Qc :=
  let temp := Tersoff.d2 + (cosine - Tersoff.h) * (cosine - Tersoff.h) in
  1 + Tersoff.c2overd2 - Tersoff.c2 / temp.

(** [x12 = x[n2] - x[n1]; ...; applyMic(atom.box, x12, y12, z12)] on the
    coordinate arrays passed to the kernel. *)
Definition bond (atom : Atom) (xs ys zs : list Qc) (n1 n2 : nat) : Qc * Qc * Qc :=
  applyMic (box atom)
    (xs !!! n2 - xs !!! n1, ys !!! n2 - ys !!! n1, zs !!! n2 - zs !!! n1).

(** *** Phase A: [find_b_and_bp] *)

(** The loop over [i2] that sums [zeta] for the bond in slot [i1] of
    [n1]. *)
Definition zeta_step (atom : Atom) (NL : buffer nat) (MN : nat) (xs ys zs : list Qc)
    (n1 n2 : nat) (r12 : Qc * Qc * Qc) (d12 : Qc) (zeta : Qc) (i2 : nat) : Qc :=
  let n3 := NLat NL (slot MN n1 i2) in
  if decide (n3 = n2) then zeta
  else
    let '(x12, y12, z12) := r12 in
    let '(x13, y13, z13) := bond atom xs ys zs n1 n3 in
    let d13 := sqrt (x13 * x13 + y13 * y13 + z13 * z13) in
    let cosine := (x12 * x13 + y12 * y13 + z12 * z13) / (d12 * d13) in
    let fc13 := find_fc d13 in
    let g123 := find_g cosine in
    zeta + fc13 * g123.

Definition zetaOf (atom : Atom) (NN : list nat) (NL : buffer nat) (MN : nat)
    (xs ys zs : list Qc) (n1 i1 : nat) : Qc :=
  let n2 := NLat NL (slot MN n1 i1) in
  let r12 := bond atom xs ys zs n1 n2 in
  let d12 := sqrt (normSquare r12) in
  fold_left (zeta_step atom NL MN xs ys zs n1 n2 r12 d12) (seq 0 (NN !!! n1)) 0.

Definition bznOf (zeta : Qc) : Qc := pow (Tersoff.beta * zeta) Tersoff.n.

(** The divisor of the last statement of the loop body,
    [(1.0 + bzn) * zeta]. *)
Definition bp_divisor (zeta : Qc) : Qc := (1 + bznOf zeta) * zeta.

Definition find_b_and_bp_slot (atom : Atom) (NN : list nat) (NL : buffer nat) (MN : nat)
    (xs ys zs : list Qc) (n1 : nat) (bbp : buffer Qc * buffer Qc) (i1 : nat)
    : buffer Qc * buffer Qc :=
  let zeta := zetaOf atom NN NL MN xs ys zs n1 i1 in
  let bzn := bznOf zeta in
  let b12 := pow (1 + bzn) Tersoff.minus_half_over_n in
  (<[slot MN n1 i1 := b12]> (bbp.1),
   <[slot MN n1 i1 := - b12 * bzn * (1 # 2) / bp_divisor zeta]> (bbp.2)).

Definition find_b_and_bp (atom : Atom) (N : nat) (NN : list nat) (NL : buffer nat)
    (MN : nat) (xs ys zs : list Qc) (b bp : buffer Qc) : buffer Qc * buffer Qc :=
  fold_left
    (fun bbp n1 =>
       fold_left (find_b_and_bp_slot atom NN NL MN xs ys zs n1) (seq 0 (NN !!! n1)) bbp)
    (seq 0 N) (b, bp).

(** *** Phase B: [find_force_tersoff] *)

(** What one turn of the loop over [i1] computes for the pair before it
    touches the arrays. *)
Record pairTerms := mkPair {
  r12 : Qc * Qc * Qc;
  f12 : Qc * Qc * Qc;
  f21 : Qc * Qc * Qc;
  p12 : Qc;
  p21 : Qc
}.

(** accumulate_force_123 *)
Definition force_123_step (atom : Atom) (NL : buffer nat) (MN : nat) (bp : buffer Qc)
    (xs ys zs : list Qc) (n1 n2 : nat) (r12 : Qc * Qc * Qc)
    (d12 d12inv fc12 fcp12 fa12 bp12 : Qc) (f12 : Qc * Qc * Qc) (i2 : nat) : Qc * Qc * Qc :=
  let n3 := NLat NL (slot MN n1 i2) in
  if decide (n3 = n2) then f12
  else
    let '(x12, y12, z12) := r12 in
    let '(x13, y13, z13) := bond atom xs ys zs n1 n3 in
    let d13 := sqrt (x13 * x13 + y13 * y13 + z13 * z13) in
    let fc13 := find_fc d13 in
    let fa13 := find_fa d13 in
    let bp13 := slotAt bp (slot MN n1 i2) in
    let cos123 := (x12 * x13 + y12 * y13 + z12 * z13) / (d12 * d13) in
    let '(g123, gp123) := find_g_and_gp cos123 in
    let cos_x := x13 / (d12 * d13) - x12 * cos123 / (d12 * d12) in
    let cos_y := y13 / (d12 * d13) - y12 * cos123 / (d12 * d12) in
    let cos_z := z13 / (d12 * d13) - z12 * cos123 / (d12 * d12) in
    let factor123a :=
      (- bp12 * fc12 * fa12 * fc13 - bp13 * fc13 * fa13 * fc12) * gp123 in
    let factor123b := - bp13 * fc13 * fa13 * fcp12 * g123 * d12inv in
    let '(f0, f1, f2) := f12 in
    (f0 + (x12 * factor123b + factor123a * cos_x) * (1 # 2),
     f1 + (y12 * factor123b + factor123a * cos_y) * (1 # 2),
     f2 + (z12 * factor123b + factor123a * cos_z) * (1 # 2)).

(** accumulate_force_213 *)
Definition force_213_step (atom : Atom) (NL : buffer nat) (MN : nat) (bp : buffer Qc)
    (xs ys zs : list Qc) (n1 n2 : nat) (r12 : Qc * Qc * Qc)
    (d12 d12inv fc12 fcp12 fa12 bp12 : Qc) (f21 : Qc * Qc * Qc) (i2 : nat) : Qc * Qc * Qc :=
  let n3 := NLat NL (slot MN n2 i2) in
  if decide (n3 = n1) then f21
  else
    let '(x12, y12, z12) := r12 in
    let '(x23, y23, z23) := bond atom xs ys zs n2 n3 in
    let d23 := sqrt (x23 * x23 + y23 * y23 + z23 * z23) in
    let fc23 := find_fc d23 in
    let fa23 := find_fa d23 in
    let bp13 := slotAt bp (slot MN n2 i2) in
    let cos213 := - (x12 * x23 + y12 * y23 + z12 * z23) / (d12 * d23) in
    let '(g213, gp213) := find_g_and_gp cos213 in
    let cos_x := x23 / (d12 * d23) + x12 * cos213 / (d12 * d12) in
    let cos_y := y23 / (d12 * d23) + y12 * cos213 / (d12 * d12) in
    let cos_z := z23 / (d12 * d23) + z12 * cos213 / (d12 * d12) in
    let factor213a :=
      (- bp12 * fc12 * fa12 * fc23 - bp13 * fc23 * fa23 * fc12) * gp213 in
    let factor213b := - bp13 * fc23 * fa23 * fcp12 * g213 * d12inv in
    let '(f0, f1, f2) := f21 in
    (f0 + (- x12 * factor213b + factor213a * cos_x) * (1 # 2),
     f1 + (- y12 * factor213b + factor213a * cos_y) * (1 # 2),
     f2 + (- z12 * factor213b + factor213a * cos_z) * (1 # 2)).

Definition pairTermsOf (atom : Atom) (NN : list nat) (NL : buffer nat) (MN : nat)
    (b bp : buffer Qc) (xs ys zs : list Qc) (n1 i1 : nat) : pairTerms :=
  let n2 := NLat NL (slot MN n1 i1) in
  let '(x12, y12, z12) := bond atom xs ys zs n1 n2 in
  let d12 := sqrt (x12 * x12 + y12 * y12 + z12 * z12) in
  let d12inv := 1 / d12 in
  let '(fc12, fcp12) := find_fc_and_fcp d12 in
  let '(fa12, fap12) := find_fa_and_fap d12 in
  let '(fr12, frp12) := find_fr_and_frp d12 in
  (* accumulate_force_12 *)
  let b12 := slotAt b (slot MN n1 i1) in
  let factor1 := - b12 * fa12 + fr12 in
  let factor2 := - b12 * fap12 + frp12 in
  let factor3 := (fcp12 * factor1 + fc12 * factor2) / d12 in
  let f12 := (0 + x12 * factor3 * (1 # 2), 0 + y12 * factor3 * (1 # 2),
              0 + z12 * factor3 * (1 # 2)) in
  let p12 := 0 + factor1 * fc12 in
  (* accumulate_force_21 *)
  let offset := find_offset NL MN n1 n2 (seq 0 (NN !!! n2)) in
  let b12 := slotAt b (slot MN n2 offset) in
  let factor1 := - b12 * fa12 + fr12 in
  let factor2 := - b12 * fap12 + frp12 in
  let factor3 := (fcp12 * factor1 + fc12 * factor2) / d12 in
  let f21 := (0 + - x12 * factor3 * (1 # 2), 0 + - y12 * factor3 * (1 # 2),
              0 + - z12 * factor3 * (1 # 2)) in
  let p21 := 0 + factor1 * fc12 in
  (* accumulate_force_123 *)
  let bp12 := slotAt bp (slot MN n1 i1) in
  let f12 :=
    fold_left
      (force_123_step atom NL MN bp xs ys zs n1 n2 (x12, y12, z12)
         d12 d12inv fc12 fcp12 fa12 bp12)
      (seq 0 (NN !!! n1)) f12 in
  (* accumulate_force_213 *)
  let bp12 := slotAt bp (slot MN n2 offset) in
  let f21 :=
    fold_left
      (force_213_step atom NL MN bp xs ys zs n1 n2 (x12, y12, z12)
         d12 d12inv fc12 fcp12 fa12 bp12)
      (seq 0 (NN !!! n2)) f21 in
  mkPair (x12, y12, z12) f12 f21 p12 p21.

(** The net pair force [fx12 = f12[0] - f21[0]], ... of lines 711-713. *)
Definition netForce (t : pairTerms) : Qc * Qc * Qc :=
  let '(a0, a1, a2) := f12 t in
  let '(b0, b1, b2) := f21 t in
  (a0 - b0, a1 - b1, a2 - b2).

(** Lines 711-734: the stores of one visited pair. *)
Definition accumulate (vxs vys vzs : list Qc) (n1 n2 : nat) (t : pairTerms)
    (st : kernelState) : kernelState :=
  let '(x12, y12, z12) := r12 t in
  let '(fx12, fy12, fz12) := netForce t in
  let fxs := <[n1 := kfx st !!! n1 + fx12]> (kfx st) in
  let fys := <[n1 := kfy st !!! n1 + fy12]> (kfy st) in
  let fzs := <[n1 := kfz st !!! n1 + fz12]> (kfz st) in
  let fxs := <[n2 := fxs !!! n2 - fx12]> fxs in
  let fys := <[n2 := fys !!! n2 - fy12]> fys in
  let fzs := <[n2 := fzs !!! n2 - fz12]> fzs in
  let prop := kprop st in
  let prop := <[0%nat := prop !!! 0%nat + (p12 t + p21 t) * (1 # 2)]> prop in
  let prop := <[1%nat := prop !!! 1%nat - fx12 * x12]> prop in
  let prop := <[2%nat := prop !!! 2%nat - fy12 * y12]> prop in
  let prop := <[3%nat := prop !!! 3%nat - fz12 * z12]> prop in
  let '(a0, a1, a2) := f12 t in
  let '(b0, b1, b2) := f21 t in
  let f12_dot_v2 := a0 * vxs !!! n2 + a1 * vys !!! n2 + a2 * vzs !!! n2 in
  let f21_dot_v1 := b0 * vxs !!! n1 + b1 * vys !!! n1 + b2 * vzs !!! n1 in
  let prop := <[4%nat := prop !!! 4%nat - (f12_dot_v2 - f21_dot_v1) * x12]> prop in
  let prop := <[5%nat := prop !!! 5%nat - (f12_dot_v2 - f21_dot_v1) * y12]> prop in
  let prop := <[6%nat := prop !!! 6%nat - (f12_dot_v2 - f21_dot_v1) * z12]> prop in
  mkKernel fxs fys fzs prop.

(** The body of the loop over [i1]. *)
Definition find_force_tersoff_inner (atom : Atom) (NN : list nat) (NL : buffer nat)
    (MN : nat) (b bp : buffer Qc) (xs ys zs vxs vys vzs : list Qc) (n1 : nat)
    (st : kernelState) (i1 : nat) : kernelState :=
  let n2 := NLat NL (slot MN n1 i1) in
  if (n2 <? n1)%nat then st
  else accumulate vxs vys vzs n1 n2 (pairTermsOf atom NN NL MN b bp xs ys zs n1 i1) st.

Definition find_force_tersoff_outer (atom : Atom) (NN : list nat) (NL : buffer nat)
    (MN : nat) (b bp : buffer Qc) (xs ys zs vxs vys vzs : list Qc)
    (st : kernelState) (n1 : nat) : kernelState :=
  fold_left (find_force_tersoff_inner atom NN NL MN b bp xs ys zs vxs vys vzs n1)
    (seq 0 (NN !!! n1)) st.

Definition zeroKernel (N : nat) (st : kernelState) : kernelState :=
  let prop := fold_left (fun p n => <[n := 0]> p) (seq 0 7) (kprop st) in
  let st := mkKernel (kfx st) (kfy st) (kfz st) prop in
  fold_left
    (fun st n => mkKernel (<[n := 0]> (kfx st)) (<[n := 0]> (kfy st))
                          (<[n := 0]> (kfz st)) (kprop st))
    (seq 0 N) st.

Definition find_force_tersoff (atom : Atom) (N : nat) (NN : list nat) (NL : buffer nat)
    (MN : nat) (b bp : buffer Qc) (xs ys zs vxs vys vzs : list Qc)
    (st : kernelState) : kernelState :=
  fold_left (find_force_tersoff_outer atom NN NL MN b bp xs ys zs vxs vys vzs)
    (seq 0 N) (zeroKernel N st).

(** [findForce(Atom&, int N, ...)]: phase A, then phase B. *)
Definition findForce_tersoff (atom : Atom) (N : nat) (NN : list nat) (NL : buffer nat)
    (MN : nat) (b bp : buffer Qc) (xs ys zs vxs vys vzs : list Qc)
    (st : kernelState) : (buffer Qc * buffer Qc) * kernelState :=
  let bbp := find_b_and_bp atom N NN NL MN xs ys zs b bp in
  (bbp, find_force_tersoff atom N NN NL MN bbp.1 bbp.2 xs ys zs vxs vys vzs st).

End BondOrder.

(** ** Velocities and the integrator *)

Definition K_B : Qc := 8617343 # 100000000000.
Definition TIME_UNIT_CONVERSION : Qc := 1018051 # 100000.

Definition set_vxyz (u v w : list Qc) (a : Atom) : Atom :=
  mkAtom (number a) (numUpdates a) (MN a) (cutoffNeighbor a) (box a) (NN a) (NL a) (mass a)
    (x0 a) (y0 a) (z0 a) (x a) (y a) (z a) u v w
    (fx a) (fy a) (fz a) (pe a).

Definition findKineticEnergy (atom : Atom) : Qc :=
  let kineticEnergy :=
    fold_left
      (fun kineticEnergy n =>
         let v2 := vx atom !!! n * vx atom !!! n + vy atom !!! n * vy atom !!! n +
                   vz atom !!! n * vz atom !!! n in
         kineticEnergy + mass atom !!! n * v2)
      (seq 0 (number atom)) 0 in
  kineticEnergy * (1 # 2).

(** The temperature that [scaleVelocity] computes from the kinetic
    energy. *)
Definition temperatureOf (atom : Atom) : Qc :=
  findKineticEnergy atom * (2 # 1) / ((3 # 1) * K_B * ofInt (Z.of_nat (number atom))).

Definition scaleVelocity_body (scaleFactor : Qc) (atom : Atom) (n : nat) : Atom :=
  set_vxyz (<[n := vx atom !!! n * scaleFactor]> (vx atom))
           (<[n := vy atom !!! n * scaleFactor]> (vy atom))
           (<[n := vz atom !!! n * scaleFactor]> (vz atom)) atom.

(** The body of the loop of [integrate]; [timeStepHalf] is computed once
    before the loop. *)
Definition integrate_body (isStepOne : bool) (timeStep timeStepHalf : Qc)
    (atom : Atom) (n : nat) : Atom :=
  let mass_inv := 1 / mass atom !!! n in
  let ax := fx atom !!! n * mass_inv in
  let ay := fy atom !!! n * mass_inv in
  let az := fz atom !!! n * mass_inv in
  let atom :=
    set_vxyz (<[n := vx atom !!! n + ax * timeStepHalf]> (vx atom))
             (<[n := vy atom !!! n + ay * timeStepHalf]> (vy atom))
             (<[n := vz atom !!! n + az * timeStepHalf]> (vz atom)) atom in
  if isStepOne then
    set_xyz (<[n := x atom !!! n + vx atom !!! n * timeStep]> (x atom))
            (<[n := y atom !!! n + vy atom !!! n * timeStep]> (y atom))
            (<[n := z atom !!! n + vz atom !!! n * timeStep]> (z atom)) atom
  else atom.

Definition integrate (isStepOne : bool) (timeStep : Qc) (atom : Atom) : Atom :=
  let timeStepHalf := timeStep * (1 # 2) in
  fold_left (integrate_body isStepOne timeStep timeStepHalf) (seq 0 (number atom)) atom.

Section Dynamics.

(** [sqrt] of <cmath>; [rand k] is what the call number [k] of [rand()]
    returns (the first call is number 0) and [RAND_MAX] its bound.  The
    call of [srand] chooses the sequence and nothing else. *)
Variable sqrt : Qc -> Qc.
Variable rand : nat -> Z.
Variable RAND_MAX : Z.

Definition scaleVelocity (T0 : Qc) (atom : Atom) : Atom :=
  let temperature := temperatureOf atom in
  let scaleFactor := sqrt (T0 / temperature) in
  fold_left (scaleVelocity_body scaleFactor) (seq 0 (number atom)) atom.






End Dynamics.

(** * Properties *)

(** ** The box and its inverse *)

Definition coord (v : Qc * Qc * Qc) (d : nat) : Qc :=
  match d with
  | O => v.1.1
  | S O => v.1.2
  | _ => v.2
  end.

Ltac array_cbv :=
  cbv [getInverseBox getDet toFractional toCartesian fold_left seq
       lookup_total list_lookup_total insert list_insert fst snd].
Ltac array_cbv_in H :=
  cbv [getInverseBox getDet toFractional toCartesian fold_left seq
       lookup_total list_lookup_total insert list_insert fst snd] in H.

(** Closes an equation between computed rationals. *)
Ltac qc_compute := apply Qc_is_canon; vm_compute; reflexivity.

(** Closes a goal [~ (a < b <= c)] or [~ (a <= b < c)] on computed
    rationals. *)
Ltac refute_interval :=
  let H1 := fresh in let H2 := fresh in
  intros [H1 H2]; vm_compute in H1; vm_compute in H2;
  first [discriminate H1 | discriminate H2
        | apply H1; reflexivity | apply H2; reflexivity].

(** The inverse stored with a box undoes the matrix. *)
Definition leftInverse (B : list Qc) : Prop :=
  forall (s : Qc * Qc * Qc) (d : nat),
    coord (toFractional B (toCartesian B s)) d = coord s d.

Lemma getInverseBox_left_inverse (b0 : list Qc) :
  length b0 = 18%nat -> getDet b0 <> 0 -> leftInverse (getInverseBox b0).
Proof.
  intros Hlen Hdet s d.
  do 18 (destruct b0 as [|? b0]; [discriminate Hlen|]).
  destruct b0; [|discriminate Hlen].
  destruct s as [[sx sy] sz].
  array_cbv_in Hdet.
  destruct d as [|[|d]]; cbv [coord]; array_cbv; field; exact Hdet.
Qed.

(** From here on the inverse is used through [getInverseBox_left_inverse]
    only. *)
#[global] Opaque getInverseBox.

(** ** [applyMicOne] and [applyPbcOne] *)

Lemma applyMicOne_cases (c : Qc) :
  (c < -(1#2) -> applyMicOne c = c + 1) /\
  ((1#2) < c -> applyMicOne c = c - 1) /\
  (-(1#2) <= c <= (1#2) -> applyMicOne c = c).
Proof.
  unfold applyMicOne. repeat split; intros H; repeat case_qlt; try reflexivity;
    exfalso; qc_arith.
Qed.

Lemma applyMicOne_range (c : Qc) :
  -(3#2) <= c <= (3#2) -> -(1#2) <= applyMicOne c <= (1#2).
Proof.
  unfold applyMicOne. intros H. repeat case_qlt; qc_arith.
Qed.

Lemma applyMicOne_opp (c : Qc) : applyMicOne (- c) = - applyMicOne c.
Proof.
  unfold applyMicOne. repeat case_qlt; try ring; exfalso; qc_arith.
Qed.

Lemma applyPbcOne_cases (c : Qc) :
  (c < 0 -> applyPbcOne c = c + 1) /\
  (1 < c -> applyPbcOne c = c - 1) /\
  (0 <= c <= 1 -> applyPbcOne c = c).
Proof.
  unfold applyPbcOne. repeat split; intros H; repeat case_qlt; try reflexivity;
    exfalso; qc_arith.
Qed.

Lemma applyPbcOne_range (c : Qc) :
  - 1 <= c <= (2#1) -> 0 <= applyPbcOne c <= 1.
Proof.
  unfold applyPbcOne. intros H. repeat case_qlt; qc_arith.
Qed.

Lemma applyMic_unfold (box : list Qc) (r : Qc * Qc * Qc) :
  applyMic box r =
  toCartesian box
    (applyMicOne (coord (toFractional box r) 0),
     applyMicOne (coord (toFractional box r) 1),
     applyMicOne (coord (toFractional box r) 2)).
Proof.
  unfold applyMic. destruct (toFractional box r) as [[sx sy] sz]. reflexivity.
Qed.

(** A cubic box of side [L], as [initializePosition] sets it up: the
    diagonal matrix, then [getInverseBox]. *)
(** A point with integer coordinates. *)
Definition pointZ (a b c : Z) : Qc * Qc * Qc :=
  (Q2Qc (inject_Z a), Q2Qc (inject_Z b), Q2Qc (inject_Z c)).

Definition cubicBox (L : Qc) : list Qc :=
  getInverseBox [L; 0; 0; 0; L; 0; 0; 0; L; 0; 0; 0; 0; 0; 0; 0; 0; 0].

(** A system as [allocateMemory] and the box part of
    [initializePosition] leave it, for a cubic box of side [L] and given
    positions: counts and buffers zeroed, argon masses. *)
Definition cubicSystem (L : Qc) (cap : nat) (rc : Qc) (r : list (Qc * Qc * Qc)) : Atom :=
  let zeros := replicate (length r) 0 in
  mkAtom (length r) 0 cap rc (cubicBox L)
    (replicate (length r) 0%nat) ∅ (replicate (length r) (40#1))
    zeros zeros zeros
    (map (fun p => p.1.1) r) (map (fun p => p.1.2) r) (map (fun p => p.2) r)
    zeros zeros zeros zeros zeros zeros zeros.

Lemma applyMic_fractional (B : list Qc) (r : Qc * Qc * Qc) (d : nat) :
  leftInverse B ->
  coord (toFractional B (applyMic B r)) d = applyMicOne (coord (toFractional B r) d).
Proof.
  intros HB. rewrite applyMic_unfold, (HB _ d).
  destruct d as [|[|d]]; reflexivity.
Qed.

(** C5, as the code has it: [applyMic] goes to fractional coordinates
    through the inverse, moves a component below -0.5 up by one and a
    component above +0.5 down by one, leaves the components of
    [[-0.5, 0.5]] (the lower end included) as they are, and goes back to
    Cartesian coordinates.  The fractional components of the result are
    the shifted ones, and each lies in the closed interval [[-0.5, 0.5]]
    when the component before the shift lay in [[-1.5, 1.5]]. *)
Theorem applyMic_wraps_once (b0 : list Qc) (r : Qc * Qc * Qc) (d : nat) :
  length b0 = 18%nat -> getDet b0 <> 0 ->
  applyMic (getInverseBox b0) r =
    toCartesian (getInverseBox b0)
      (applyMicOne (coord (toFractional (getInverseBox b0) r) 0),
       applyMicOne (coord (toFractional (getInverseBox b0) r) 1),
       applyMicOne (coord (toFractional (getInverseBox b0) r) 2)) /\
  coord (toFractional (getInverseBox b0) (applyMic (getInverseBox b0) r)) d =
    applyMicOne (coord (toFractional (getInverseBox b0) r) d) /\
  (coord (toFractional (getInverseBox b0) r) d < -(1#2) ->
   coord (toFractional (getInverseBox b0) (applyMic (getInverseBox b0) r)) d =
     coord (toFractional (getInverseBox b0) r) d + 1) /\
  ((1#2) < coord (toFractional (getInverseBox b0) r) d ->
   coord (toFractional (getInverseBox b0) (applyMic (getInverseBox b0) r)) d =
     coord (toFractional (getInverseBox b0) r) d - 1) /\
  (-(1#2) <= coord (toFractional (getInverseBox b0) r) d <= (1#2) ->
   coord (toFractional (getInverseBox b0) (applyMic (getInverseBox b0) r)) d =
     coord (toFractional (getInverseBox b0) r) d) /\
  (-(3#2) <= coord (toFractional (getInverseBox b0) r) d <= (3#2) ->
   -(1#2) <= coord (toFractional (getInverseBox b0) (applyMic (getInverseBox b0) r)) d
          <= (1#2)).
Proof.
  intros Hlen Hdet.
  pose proof (getInverseBox_left_inverse b0 Hlen Hdet) as HB.
  generalize dependent (getInverseBox b0). intros B HB.
  pose proof (applyMic_fractional B r d HB) as Hs'.
  destruct (applyMicOne_cases (coord (toFractional B r) d)) as (Hlo & Hhi & Hmid).
  split; [apply applyMic_unfold|].
  split; [exact Hs'|].
  split; [|split; [|split]].
  - intros H. rewrite Hs', (Hlo H). reflexivity.
  - intros H. rewrite Hs', (Hhi H). reflexivity.
  - intros H. rewrite Hs', (Hmid H). reflexivity.
  - intros H. rewrite Hs'. apply applyMicOne_range; assumption.
Qed.

Lemma applyMic_wraps_once_witness :
  coord (toFractional (cubicBox (4#1)) (applyMic (cubicBox (4#1)) (pointZ 3 0 0))) 0 =
    applyMicOne (coord (toFractional (cubicBox (4#1)) (pointZ 3 0 0)) 0) /\
  -(1#2) <= coord (toFractional (cubicBox (4#1)) (applyMic (cubicBox (4#1)) (pointZ 3 0 0))) 0
         <= (1#2).
Proof.
  assert (Hlen : length [4#1; 0; 0; 0; 4#1; 0; 0; 0; 4#1; 0; 0; 0; 0; 0; 0; 0; 0; 0]
                 = 18%nat) by reflexivity.
  assert (Hdet : getDet [4#1; 0; 0; 0; 4#1; 0; 0; 0; 4#1; 0; 0; 0; 0; 0; 0; 0; 0; 0] <> 0)
    by (vm_compute; discriminate).
  destruct (applyMic_wraps_once _ (pointZ 3 0 0) 0%nat Hlen Hdet)
    as (_ & Hs & _ & _ & _ & Hr).
  split; [exact Hs|].
  apply Hr. vm_compute. split; discriminate.
Defined.

(** C5 fails as stated: in a cubic box of side 4 the displacement
    [(-2, 0, 0)] has the fractional component -0.5, outside
    [(-0.5, 0.5]], and it is not shifted; the displacement [(8, 0, 0)]
    has the component 2 and ends at 1. *)
Lemma applyMic_half_open_counterexample :
  (coord (toFractional (cubicBox (4#1)) (pointZ (-2) 0 0)) 0 = -(1#2) /\
   coord (toFractional (cubicBox (4#1)) (applyMic (cubicBox (4#1)) (pointZ (-2) 0 0))) 0
     = -(1#2) /\
   ~ (-(1#2) < coord (toFractional (cubicBox (4#1))
                        (applyMic (cubicBox (4#1)) (pointZ (-2) 0 0))) 0 /\
      coord (toFractional (cubicBox (4#1))
               (applyMic (cubicBox (4#1)) (pointZ (-2) 0 0))) 0 <= (1#2))) /\
  (coord (toFractional (cubicBox (4#1)) (pointZ 8 0 0)) 0 = (2#1) /\
   coord (toFractional (cubicBox (4#1)) (applyMic (cubicBox (4#1)) (pointZ 8 0 0))) 0 = 1 /\
   ~ (-(1#2) < coord (toFractional (cubicBox (4#1))
                        (applyMic (cubicBox (4#1)) (pointZ 8 0 0))) 0 /\
      coord (toFractional (cubicBox (4#1))
               (applyMic (cubicBox (4#1)) (pointZ 8 0 0))) 0 <= (1#2))).
Proof.
  repeat split; try qc_compute; refute_interval.
Qed.

(** ** [applyPbc] *)

Definition position (atom : Atom) (n : nat) : Qc * Qc * Qc :=
  (x atom !!! n, y atom !!! n, z atom !!! n).

Definition wrapPbc (box : list Qc) (r : Qc * Qc * Qc) : Qc * Qc * Qc :=
  toCartesian box
    (applyPbcOne (coord (toFractional box r) 0),
     applyPbcOne (coord (toFractional box r) 1),
     applyPbcOne (coord (toFractional box r) 2)).

Lemma applyPbc_body_position (atom : Atom) (n m : nat) :
  (n < length (x atom))%nat -> (n < length (y atom))%nat -> (n < length (z atom))%nat ->
  position (applyPbc_body atom n) m =
  if decide (n = m) then wrapPbc (box atom) (position atom n) else position atom m.
Proof.
  intros Hx Hy Hz. unfold applyPbc_body, wrapPbc, position.
  destruct (toFractional (box atom) (x atom !!! n, y atom !!! n, z atom !!! n))
    as [[sx sy] sz]. cbn [coord fst snd].
  destruct (toCartesian (box atom) (applyPbcOne sx, applyPbcOne sy, applyPbcOne sz))
    as [[rx ry] rz].
  cbn [x y z set_xyz].
  destruct (decide (n = m)) as [->|Hne].
  - rewrite !list_lookup_total_insert_eq by assumption. reflexivity.
  - rewrite !list_lookup_total_insert_ne by assumption. reflexivity.
Qed.

Lemma applyPbc_body_frame (atom : Atom) (n : nat) :
  box (applyPbc_body atom n) = box atom /\
  number (applyPbc_body atom n) = number atom /\
  length (x (applyPbc_body atom n)) = length (x atom) /\
  length (y (applyPbc_body atom n)) = length (y atom) /\
  length (z (applyPbc_body atom n)) = length (z atom).
Proof.
  unfold applyPbc_body.
  destruct (toFractional _ _) as [[sx sy] sz].
  destruct (toCartesian _ _) as [[rx ry] rz].
  cbn. rewrite !length_insert. auto.
Qed.

Lemma applyPbc_prefix (atom : Atom) (k : nat) :
  (k <= length (x atom))%nat -> (k <= length (y atom))%nat -> (k <= length (z atom))%nat ->
  let atom' := fold_left applyPbc_body (seq 0 k) atom in
  box atom' = box atom /\
  length (x atom') = length (x atom) /\
  length (y atom') = length (y atom) /\
  length (z atom') = length (z atom) /\
  forall m,
    position atom' m =
    if decide (m < k)%nat then wrapPbc (box atom) (position atom m) else position atom m.
Proof.
  induction k as [|k IH]; intros Hx Hy Hz.
  - cbn [seq fold_left]. do 4 (split; [reflexivity|]). intros m.
    destruct (decide (m < 0)%nat); [lia|reflexivity].
  - rewrite seq_S, fold_left_app. cbn [fold_left Nat.add].
    destruct IH as (Hb & Lx & Ly & Lz & Hpos); [lia..|].
    set (atom1 := fold_left applyPbc_body (seq 0 k) atom) in *.
    destruct (applyPbc_body_frame atom1 k) as (Fb & _ & Fx & Fy & Fz).
    cbn zeta. rewrite Fb, Fx, Fy, Fz, Hb, Lx, Ly, Lz.
    do 4 (split; [reflexivity|]).
    intros m. rewrite applyPbc_body_position by lia.
    rewrite Hb. destruct (decide (k = m)) as [<-|Hne].
    + rewrite Hpos. destruct (decide (k < k)%nat); [lia|].
      destruct (decide (k < S k)%nat); [reflexivity|lia].
    + rewrite Hpos.
      destruct (decide (m < k)%nat), (decide (m < S k)%nat); try reflexivity; lia.
Qed.

Lemma applyPbc_position (atom : Atom) (n : nat) :
  length (x atom) = number atom -> length (y atom) = number atom ->
  length (z atom) = number atom -> (n < number atom)%nat ->
  position (applyPbc atom) n = wrapPbc (box atom) (position atom n) /\
  box (applyPbc atom) = box atom.
Proof.
  intros Hx Hy Hz Hn. unfold applyPbc.
  destruct (applyPbc_prefix atom (number atom)) as (Hb & _ & _ & _ & Hpos); [lia..|].
  split; [|exact Hb].
  rewrite Hpos. destruct (decide (n < number atom)%nat); [reflexivity|lia].
Qed.

Lemma applyPbc_fractional (atom : Atom) (n d : nat) :
  leftInverse (box atom) ->
  length (x atom) = number atom -> length (y atom) = number atom ->
  length (z atom) = number atom -> (n < number atom)%nat ->
  coord (toFractional (box atom) (position (applyPbc atom) n)) d =
    applyPbcOne (coord (toFractional (box atom) (position atom n)) d).
Proof.
  intros HB Hx Hy Hz Hn.
  destruct (applyPbc_position atom n Hx Hy Hz Hn) as [-> _].
  unfold wrapPbc. rewrite (HB _ d).
  destruct d as [|[|d]]; reflexivity.
Qed.

(** C6, as the code has it: after [applyPbc] the fractional coordinates
    of an atom are those before the call with [applyPbcOne] applied to
    each: a component below 0 is moved up by one, a component above 1
    down by one, and a component in [[0, 1]] (1 included) is left; so a
    component that was in [[-1, 2]] ends in the closed interval
    [[0, 1]]. *)
Theorem applyPbc_wraps_once (atom : Atom) (b0 : list Qc) (n d : nat) :
  length b0 = 18%nat -> getDet b0 <> 0 -> box atom = getInverseBox b0 ->
  length (x atom) = number atom -> length (y atom) = number atom ->
  length (z atom) = number atom -> (n < number atom)%nat ->
  coord (toFractional (box atom) (position (applyPbc atom) n)) d =
    applyPbcOne (coord (toFractional (box atom) (position atom n)) d) /\
  (coord (toFractional (box atom) (position atom n)) d < 0 ->
   coord (toFractional (box atom) (position (applyPbc atom) n)) d =
     coord (toFractional (box atom) (position atom n)) d + 1) /\
  (1 < coord (toFractional (box atom) (position atom n)) d ->
   coord (toFractional (box atom) (position (applyPbc atom) n)) d =
     coord (toFractional (box atom) (position atom n)) d - 1) /\
  (0 <= coord (toFractional (box atom) (position atom n)) d <= 1 ->
   coord (toFractional (box atom) (position (applyPbc atom) n)) d =
     coord (toFractional (box atom) (position atom n)) d) /\
  (- 1 <= coord (toFractional (box atom) (position atom n)) d <= (2#1) ->
   0 <= coord (toFractional (box atom) (position (applyPbc atom) n)) d <= 1).
Proof.
  intros Hlen Hdet Hbox Hx Hy Hz Hn.
  assert (HB : leftInverse (box atom)).
  { rewrite Hbox. apply getInverseBox_left_inverse; assumption. }
  clear Hbox Hlen Hdet.
  pose proof (applyPbc_fractional atom n d HB Hx Hy Hz Hn) as Hs'.
  destruct (applyPbcOne_cases (coord (toFractional (box atom) (position atom n)) d))
    as (Hlo & Hhi & Hmid).
  split; [exact Hs'|].
  split; [|split; [|split]].
  - intros H. rewrite Hs', (Hlo H). reflexivity.
  - intros H. rewrite Hs', (Hhi H). reflexivity.
  - intros H. rewrite Hs', (Hmid H). reflexivity.
  - intros H. rewrite Hs'. apply applyPbcOne_range; assumption.
Qed.

Lemma applyPbc_wraps_once_witness :
  let atom := cubicSystem (4#1) 1000 (10#1) [pointZ 5 (-1) 2] in
  coord (toFractional (box atom) (position (applyPbc atom) 0)) 0 =
    applyPbcOne (coord (toFractional (box atom) (position atom 0)) 0) /\
  0 <= coord (toFractional (box atom) (position (applyPbc atom) 0)) 0 <= 1.
Proof.
  intros atom.
  assert (Hlen : length [4#1; 0; 0; 0; 4#1; 0; 0; 0; 4#1; 0; 0; 0; 0; 0; 0; 0; 0; 0]
                 = 18%nat) by reflexivity.
  assert (Hdet : getDet [4#1; 0; 0; 0; 4#1; 0; 0; 0; 4#1; 0; 0; 0; 0; 0; 0; 0; 0; 0] <> 0)
    by (vm_compute; discriminate).
  assert (Hn : (0 < number atom)%nat) by (cbn; lia).
  destruct (applyPbc_wraps_once atom
              [4#1; 0; 0; 0; 4#1; 0; 0; 0; 4#1; 0; 0; 0; 0; 0; 0; 0; 0; 0]
              0%nat 0%nat Hlen Hdet eq_refl eq_refl eq_refl eq_refl Hn)
    as (Hs & _ & _ & _ & Hr).
  split; [exact Hs|].
  apply Hr. vm_compute. split; discriminate.
Defined.

(** C6 fails as stated: in a cubic box of side 4 an atom at [x = 4] has
    the fractional coordinate 1, which [applyPbc] leaves at 1, outside
    [[0, 1)]; an atom at [x = 12] has the coordinate 3 and ends at 2. *)
Lemma applyPbc_half_open_counterexample :
  let atom := cubicSystem (4#1) 1000 (10#1) [pointZ 4 0 0; pointZ 12 0 0] in
  (coord (toFractional (box atom) (position atom 0)) 0 = 1 /\
   coord (toFractional (box atom) (position (applyPbc atom) 0)) 0 = 1 /\
   ~ (0 <= coord (toFractional (box atom) (position (applyPbc atom) 0)) 0 /\
      coord (toFractional (box atom) (position (applyPbc atom) 0)) 0 < 1)) /\
  (coord (toFractional (box atom) (position atom 1)) 0 = (3#1) /\
   coord (toFractional (box atom) (position (applyPbc atom) 1)) 0 = (2#1) /\
   ~ (0 <= coord (toFractional (box atom) (position (applyPbc atom) 1)) 0 /\
      coord (toFractional (box atom) (position (applyPbc atom) 1)) 0 < 1)).
Proof.
  intros atom. repeat split; try qc_compute; refute_interval.
Qed.

(** ** What a build leaves alone *)

(** [atom'] differs from [atom] in [NN] and [NL] at most. *)
Definition onlyLists (atom atom' : Atom) : Prop :=
  atom' = set_NL (NL atom') (set_NN (NN atom') atom).

Lemma onlyLists_refl (atom : Atom) : onlyLists atom atom.
Proof. destruct atom; reflexivity. Qed.

Lemma onlyLists_trans (a b c : Atom) : onlyLists a b -> onlyLists b c -> onlyLists a c.
Proof.
  unfold onlyLists. intros Hab Hbc. rewrite Hbc at 1. rewrite Hab at 1.
  destruct a; reflexivity.
Qed.

Lemma onlyLists_set_NN (atom : Atom) (v : list nat) : onlyLists atom (set_NN v atom).
Proof. destruct atom; reflexivity. Qed.

Lemma onlyLists_set_NL (atom : Atom) (v : buffer nat) : onlyLists atom (set_NL v atom).
Proof. destruct atom; reflexivity. Qed.

Lemma onlyLists_storePair (i j : nat) (atom : Atom) : onlyLists atom (storePair i j atom).
Proof. destruct atom; reflexivity. Qed.

Lemma onlyLists_fields (a b : Atom) :
  onlyLists a b ->
  number b = number a /\ numUpdates b = numUpdates a /\ MN b = MN a /\
  cutoffNeighbor b = cutoffNeighbor a /\ box b = box a /\
  x b = x a /\ y b = y a /\ z b = z a /\
  x0 b = x0 a /\ y0 b = y0 a /\ z0 b = z0 a.
Proof. intros ->. repeat split; reflexivity. Qed.

(** A specification of a loop body: from a state in [P], a return leads
    to a state in [P] and an exit to a state in [F]. *)
Definition meets (P : Atom -> Prop) (F : Atom -> nat -> nat -> Prop) (o : outcome) : Prop :=
  match o with
  | Ok atom' => P atom'
  | Fatal atom' i c => F atom' i c
  | OutOfRange => True
  end.

Lemma forEach_meets {A : Type} (P : Atom -> Prop) (F : Atom -> nat -> nat -> Prop)
    (l : list A) (body : A -> Atom -> outcome) :
  (forall v atom, v ∈ l -> P atom -> meets P F (body v atom)) ->
  forall atom, P atom -> meets P F (forEach l body atom).
Proof.
  induction l as [|v l IH]; intros Hbody atom HP.
  - exact HP.
  - cbn [forEach].
    pose proof (Hbody v atom ltac:(left) HP) as Hv.
    destruct (body v atom) as [atom'| |]; cbn [bind meets] in *; try assumption.
    apply IH; [|assumption].
    intros w a Hw. apply Hbody. right. assumption.
Qed.

Lemma recordPair_cases (i j : nat) (atom : Atom) :
  recordPair i j atom = Ok (storePair i j atom) \/
  (exists k, recordPair i j atom = Fatal (storePair i j atom) k (MN atom) /\ (k = i \/ k = j)).
Proof.
  unfold recordPair, checkCapacity.
  assert (HMN : MN (storePair i j atom) = MN atom) by (destruct atom; reflexivity).
  rewrite HMN.
  destruct (MN atom <? NN (storePair i j atom) !!! i)%nat; [right; eauto|].
  destruct (MN atom <? NN (storePair i j atom) !!! j)%nat; [right; eauto|].
  left; reflexivity.
Qed.

(** The frame of a build, whichever way it ends. *)
Definition framed (atom : Atom) (o : outcome) : Prop :=
  meets (onlyLists atom) (fun atom' _ _ => onlyLists atom atom') o.

Lemma recordPair_framed (a0 : Atom) (i j : nat) (atom : Atom) :
  onlyLists a0 atom -> framed a0 (recordPair i j atom).
Proof.
  intros H.
  assert (H' : onlyLists a0 (storePair i j atom))
    by (eapply onlyLists_trans; [exact H|apply onlyLists_storePair]).
  destruct (recordPair_cases i j atom) as [->|(k & -> & _)]; exact H'.
Qed.

Lemma findNeighborON2_framed (atom : Atom) : framed atom (findNeighborON2 atom).
Proof.
  unfold findNeighborON2, framed.
  apply forEach_meets; [|apply onlyLists_set_NN].
  intros i a _ Ha. apply forEach_meets; [|exact Ha].
  intros j a' _ Ha'. unfold findNeighborON2_inner.
  destruct (qlt _ _); [apply recordPair_framed; exact Ha'|exact Ha'].
Qed.

Lemma scanCell_framed (a0 : Atom) c cellCount cellCountSum cellContents n1 nb (atom : Atom) :
  onlyLists a0 atom ->
  framed a0 (scanCell c cellCount cellCountSum cellContents n1 nb atom).
Proof.
  intros Ha. unfold scanCell.
  destruct (inRange _ _); [|exact I].
  apply forEach_meets; [|exact Ha].
  intros m a' _ Ha'. unfold findNeighborON1_inner.
  destruct (_ <? _)%nat; [|exact Ha'].
  destruct (qlt _ _); [apply recordPair_framed; exact Ha'|exact Ha'].
Qed.

Lemma scanAround_framed (a0 : Atom) c numCells cellCount cellCountSum cellContents n1 cell
    (atom : Atom) :
  onlyLists a0 atom ->
  framed a0 (scanAround c numCells cellCount cellCountSum cellContents n1 cell atom).
Proof.
  intros Ha. unfold scanAround.
  apply forEach_meets; [|exact Ha].
  intros k a1 _ Ha1. apply forEach_meets; [|exact Ha1].
  intros j a2 _ Ha2. apply forEach_meets; [|exact Ha2].
  intros i a3 _ Ha3. apply scanCell_framed. exact Ha3.
Qed.

Lemma scanAtoms_framed (a0 : Atom) c numCells cellCount cellCountSum cellContents cells ns
    (atom : Atom) :
  onlyLists a0 atom ->
  framed a0 (scanAtoms c numCells cellCount cellCountSum cellContents cells ns atom).
Proof.
  intros Ha. unfold scanAtoms.
  apply forEach_meets; [|exact Ha].
  intros n1 a _ Ha1. apply scanAround_framed. exact Ha1.
Qed.

Lemma findNeighborON1_framed (sqrt : Qc -> Qc) (atom : Atom) :
  framed atom (findNeighborON1 sqrt atom).
Proof.
  unfold findNeighborON1.
  destruct (cellArrays sqrt atom) as [[[cellCount cellCountSum] cellContents]|]; [|exact I].
  apply scanAtoms_framed. apply onlyLists_set_NN.
Qed.

Lemma builder_framed (sqrt : Qc -> Qc) (USE_ON1 : bool) (atom : Atom) :
  framed atom (builder sqrt USE_ON1 atom).
Proof.
  destruct USE_ON1; [apply findNeighborON1_framed|apply findNeighborON2_framed].
Qed.

(** ** [findNeighbor] *)

Lemma checkIfNeedUpdate_from_true (atom : Atom) (ns : list nat) :
  checkIfNeedUpdate_from atom ns = true <->
  exists n, n ∈ ns /\ (1#4) < squaredMove atom n.
Proof.
  induction ns as [|n ns IH]; cbn [checkIfNeedUpdate_from].
  - split; [discriminate|]. intros (n & Hn & _). inversion Hn.
  - destruct (movedTooFar atom n) eqn:E.
    + split; [|reflexivity]. intros _. exists n. split; [left|].
      apply qlt_true. exact E.
    + rewrite IH. split.
      * intros (m & Hm & Hlt). exists m. split; [right|]; assumption.
      * intros (m & Hm & Hlt). apply elem_of_cons in Hm as [->|Hm].
        -- apply qlt_true in Hlt. unfold movedTooFar in E. congruence.
        -- exists m. split; assumption.
Qed.

Lemma checkIfNeedUpdate_true (atom : Atom) :
  checkIfNeedUpdate atom = true <->
  exists n, (n < number atom)%nat /\ (1#4) < squaredMove atom n.
Proof.
  unfold checkIfNeedUpdate. rewrite checkIfNeedUpdate_from_true.
  split; intros (n & Hn & Hlt); exists n; (split; [|exact Hlt]).
  - apply elem_of_seq in Hn. lia.
  - apply elem_of_seq. lia.
Qed.

Lemma numUpdates_applyPbc (atom : Atom) : numUpdates (applyPbc atom) = numUpdates atom.
Proof.
  unfold applyPbc. generalize (seq 0 (number atom)). intros l. revert atom.
  induction l as [|n l IH]; intros atom; [reflexivity|].
  cbn [fold_left]. rewrite IH. unfold applyPbc_body.
  destruct (toFractional _ _) as [[sx sy] sz].
  destruct (toCartesian _ _) as [[rx ry] rz]. reflexivity.
Qed.

Lemma numUpdates_updateXyz0 (atom : Atom) : numUpdates (updateXyz0 atom) = numUpdates atom.
Proof.
  unfold updateXyz0. generalize (seq 0 (number atom)). intros l. revert atom.
  induction l as [|n l IH]; intros atom; [reflexivity|].
  cbn [fold_left]. rewrite IH. reflexivity.
Qed.

Lemma rebuild_counts (sqrt : Qc -> Qc) (USE_ON1 : bool) (atom atom' : Atom) :
  rebuild sqrt USE_ON1 atom = Ok atom' -> numUpdates atom' = S (numUpdates atom).
Proof.
  unfold rebuild.
  set (a1 := applyPbc (set_numUpdates (S (numUpdates atom)) atom)).
  assert (H1 : numUpdates a1 = S (numUpdates atom)).
  { unfold a1. rewrite numUpdates_applyPbc. reflexivity. }
  pose proof (builder_framed sqrt USE_ON1 a1) as Hf.
  destruct (builder sqrt USE_ON1 a1) as [a2| |]; cbn [bind]; try discriminate.
  intros [= <-]. rewrite numUpdates_updateXyz0.
  apply onlyLists_fields in Hf. destruct Hf as (_ & -> & _). exact H1.
Qed.

(** C8.  [findNeighbor] rebuilds exactly when some atom has moved, from
    its position at the last rebuild, by a squared distance above 0.25;
    otherwise it returns the state it was given, so the neighbour list
    ([NN], [NL]), the reference positions, the positions and the rebuild
    counter are all unchanged. *)
Theorem findNeighbor_rebuilds_iff_moved (sqrt : Qc -> Qc) (USE_ON1 : bool) (atom : Atom) :
  (findNeighbor sqrt USE_ON1 atom = rebuild sqrt USE_ON1 atom <->
   exists n, (n < number atom)%nat /\ (1#4) < squaredMove atom n) /\
  (~ (exists n, (n < number atom)%nat /\ (1#4) < squaredMove atom n) ->
   findNeighbor sqrt USE_ON1 atom = Ok atom).
Proof.
  rewrite <- checkIfNeedUpdate_true. unfold findNeighbor.
  destruct (checkIfNeedUpdate atom) eqn:E.
  - split; [split; reflexivity|]. intros H. exfalso. apply H. reflexivity.
  - split; [|reflexivity].
    split; [|discriminate]. intros H. symmetry in H.
    apply rebuild_counts in H. lia.
Qed.

(** ** The neighbour list as a view of [NN] and [NL] *)

(** The list of atom [i]: the entries [NL[i * MN .. i * MN + NN[i] - 1]]. *)
Definition neighbors (atom : Atom) (i : nat) : list nat :=
  map (fun k => NLat (NL atom) (slot (MN atom) i k)) (seq 0 (NN atom !!! i)).

(** The invariant of the data model: [NN[i] <= MN] for every atom. *)
Definition withinCap (atom : Atom) : Prop :=
  forall k, (NN atom !!! k <= MN atom)%nat.

(** What the pair [p] adds to the list of atom [k]. *)
Definition partnerOf (k : nat) (p : nat * nat) : list nat :=
  if decide (k = p.1) then [p.2]
  else if decide (k = p.2) then [p.1]
  else [].

Definition partners (k : nat) (ps : list (nat * nat)) : list nat :=
  flat_map (partnerOf k) ps.

(** The pairs a builder may record: two different atoms of the system. *)
Definition validPair (atom : Atom) (p : nat * nat) : Prop :=
  p.1 <> p.2 /\ (p.1 < length (NN atom))%nat /\ (p.2 < length (NN atom))%nat.

Lemma partners_app (k : nat) (ps qs : list (nat * nat)) :
  partners k (ps ++ qs) = partners k ps ++ partners k qs.
Proof. unfold partners. apply flat_map_app. Qed.

Lemma length_neighbors (atom : Atom) (i : nat) :
  length (neighbors atom i) = NN atom !!! i.
Proof. unfold neighbors. rewrite length_map, length_seq. reflexivity. Qed.

Lemma slot_inj (cap k t i u : nat) :
  (t < cap)%nat -> (u < cap)%nat -> slot cap k t = slot cap i u -> k = i /\ t = u.
Proof.
  unfold slot. intros Ht Hu H.
  assert (k = i) by nia. subst. lia.
Qed.

Lemma NLat_insert_eq (nl : buffer nat) (k : N) (v : nat) : NLat (<[k := v]> nl) k = v.
Proof. unfold NLat. rewrite lookup_insert_eq. reflexivity. Qed.

Lemma NLat_insert_ne (nl : buffer nat) (k k' : N) (v : nat) :
  k <> k' -> NLat (<[k := v]> nl) k' = NLat nl k'.
Proof. intros H. unfold NLat. rewrite lookup_insert_ne by exact H. reflexivity. Qed.

Lemma storePair_fields (i j : nat) (atom : Atom) :
  MN (storePair i j atom) = MN atom /\
  NN (storePair i j atom) =
    <[j := S (<[i := S (NN atom !!! i)]> (NN atom) !!! j)]> (<[i := S (NN atom !!! i)]> (NN atom)) /\
  NL (storePair i j atom) =
    <[slot (MN atom) j (<[i := S (NN atom !!! i)]> (NN atom) !!! j) := i]>
      (<[slot (MN atom) i (NN atom !!! i) := j]> (NL atom)).
Proof. destruct atom; repeat split; reflexivity. Qed.

Lemma storePair_NN (i j k : nat) (atom : Atom) :
  validPair atom (i, j) ->
  NN (storePair i j atom) !!! k =
  (NN atom !!! k + if decide (k = i \/ k = j) then 1 else 0)%nat.
Proof.
  intros (Hne & Hi & Hj). cbn [fst snd] in *.
  destruct (storePair_fields i j atom) as (_ & -> & _).
  destruct (decide (k = j)) as [->|Hkj].
  - rewrite list_lookup_total_insert_eq by (rewrite length_insert; exact Hj).
    rewrite list_lookup_total_insert_ne by exact Hne.
    destruct (decide (j = i \/ j = j)); lia.
  - rewrite list_lookup_total_insert_ne by congruence.
    destruct (decide (k = i)) as [->|Hki].
    + rewrite list_lookup_total_insert_eq by exact Hi.
      destruct (decide (i = i \/ i = j)); lia.
    + rewrite list_lookup_total_insert_ne by congruence.
      destruct (decide (k = i \/ k = j)); lia.
Qed.

Lemma storePair_length_NN (i j : nat) (atom : Atom) :
  length (NN (storePair i j atom)) = length (NN atom).
Proof.
  destruct (storePair_fields i j atom) as (_ & -> & _).
  rewrite !length_insert. reflexivity.
Qed.

Lemma storePair_NL (i j : nat) (atom : Atom) :
  validPair atom (i, j) ->
  NL (storePair i j atom) =
  <[slot (MN atom) j (NN atom !!! j) := i]>
    (<[slot (MN atom) i (NN atom !!! i) := j]> (NL atom)).
Proof.
  intros (Hne & Hi & Hj). cbn [fst snd] in *.
  destruct (storePair_fields i j atom) as (_ & _ & ->).
  rewrite list_lookup_total_insert_ne by exact Hne. reflexivity.
Qed.

(** An accepted pair that fits extends the two lists and no other. *)
Lemma storePair_neighbors (i j k : nat) (atom : Atom) :
  validPair atom (i, j) -> withinCap atom ->
  (NN atom !!! i < MN atom)%nat -> (NN atom !!! j < MN atom)%nat ->
  neighbors (storePair i j atom) k = neighbors atom k ++ partnerOf k (i, j).
Proof.
  intros Hv Hcap Hi Hj.
  pose proof Hv as (Hne & Hli & Hlj). cbn [fst snd] in *.
  unfold neighbors.
  rewrite (storePair_NN i j k atom Hv), (storePair_NL i j atom Hv).
  destruct (storePair_fields i j atom) as (-> & _ & _).
  assert (Hold : forall t, (t < NN atom !!! k)%nat ->
            NLat (<[slot (MN atom) j (NN atom !!! j) := i]>
                    (<[slot (MN atom) i (NN atom !!! i) := j]> (NL atom)))
                 (slot (MN atom) k t) = NLat (NL atom) (slot (MN atom) k t)).
  { intros t Ht. pose proof (Hcap k) as Hk.
    rewrite !NLat_insert_ne; [reflexivity| |].
    - intros E. apply slot_inj in E; [destruct E as [E1 E2]; subst; lia|lia..].
    - intros E. apply slot_inj in E; [destruct E as [E1 E2]; subst; lia|lia..]. }
  assert (Hmap : map (fun t => NLat (<[slot (MN atom) j (NN atom !!! j) := i]>
                    (<[slot (MN atom) i (NN atom !!! i) := j]> (NL atom)))
                 (slot (MN atom) k t)) (seq 0 (NN atom !!! k)) =
                 map (fun t => NLat (NL atom) (slot (MN atom) k t)) (seq 0 (NN atom !!! k))).
  { apply map_ext_in. intros t Ht. apply in_seq in Ht. apply Hold. lia. }
  unfold partnerOf. cbn [fst snd].
  destruct (decide (k = i)) as [->|Hki].
  - destruct (decide (i = i \/ i = j)) as [_|]; [|tauto].
    rewrite Nat.add_1_r, seq_S, map_app, Hmap. cbn [map Nat.add]. f_equal.
    rewrite NLat_insert_ne.
    + rewrite NLat_insert_eq. reflexivity.
    + intros E. apply slot_inj in E; [destruct E as [E1 E2]; subst; lia|lia..].
  - destruct (decide (k = j)) as [->|Hkj].
    + destruct (decide (j = i \/ j = j)) as [_|]; [|tauto].
      rewrite Nat.add_1_r, seq_S, map_app, Hmap. cbn [map Nat.add]. f_equal.
      rewrite NLat_insert_eq. reflexivity.
    + destruct (decide (k = i \/ k = j)) as [|_]; [tauto|].
      rewrite Nat.add_0_r, app_nil_r. exact Hmap.
Qed.

(** The two ways [recordPair] ends, by the counts before the pair. *)
Lemma recordPair_fits (i j : nat) (atom : Atom) :
  validPair atom (i, j) ->
  (NN atom !!! i < MN atom)%nat -> (NN atom !!! j < MN atom)%nat ->
  recordPair i j atom = Ok (storePair i j atom).
Proof.
  intros Hv Hi Hj. unfold recordPair, checkCapacity.
  rewrite !(storePair_NN i j _ atom Hv).
  destruct (storePair_fields i j atom) as (-> & _ & _).
  pose proof Hv as (Hne & _ & _). cbn [fst snd] in Hne.
  destruct (decide (i = i \/ i = j)) as [_|]; [|tauto].
  destruct (decide (j = i \/ j = j)) as [_|]; [|tauto].
  destruct (Nat.ltb_spec (MN atom) (NN atom !!! i + 1)); [lia|].
  destruct (Nat.ltb_spec (MN atom) (NN atom !!! j + 1)); [lia|].
  reflexivity.
Qed.

Lemma recordPair_overflows (i j : nat) (atom : Atom) :
  validPair atom (i, j) -> withinCap atom ->
  (MN atom <= NN atom !!! i)%nat \/ (MN atom <= NN atom !!! j)%nat ->
  exists k, recordPair i j atom = Fatal (storePair i j atom) k (MN atom) /\
            (k = i \/ k = j) /\ NN atom !!! k = MN atom.
Proof.
  intros Hv Hcap Hfull. unfold recordPair, checkCapacity.
  rewrite !(storePair_NN i j _ atom Hv).
  destruct (storePair_fields i j atom) as (-> & _ & _).
  destruct (decide (i = i \/ i = j)) as [_|]; [|tauto].
  destruct (decide (j = i \/ j = j)) as [_|]; [|tauto].
  pose proof (Hcap i). pose proof (Hcap j).
  destruct (Nat.ltb_spec (MN atom) (NN atom !!! i + 1)).
  - exists i. repeat split; [left; reflexivity|lia].
  - destruct (Nat.ltb_spec (MN atom) (NN atom !!! j + 1)).
    + exists j. repeat split; [right; reflexivity|lia].
    + lia.
Qed.

Lemma storePair_withinCap (i j : nat) (atom : Atom) :
  validPair atom (i, j) -> withinCap atom ->
  (NN atom !!! i < MN atom)%nat -> (NN atom !!! j < MN atom)%nat ->
  withinCap (storePair i j atom).
Proof.
  intros Hv Hcap Hi Hj k. rewrite (storePair_NN i j k atom Hv).
  destruct (storePair_fields i j atom) as (-> & _ & _).
  pose proof (Hcap k).
  destruct (decide (k = i \/ k = j)) as [[->| ->]|]; lia.
Qed.

(** ** Loops that record pairs *)

(** Recording a list of pairs in order, as long as no count passes the
    capacity. *)
Definition insertAll (ps : list (nat * nat)) : Atom -> outcome :=
  forEach ps (fun p => recordPair p.1 p.2).

Lemma bind_assoc (o : outcome) (f g : Atom -> outcome) :
  bind (bind o f) g = bind o (fun atom => bind (f atom) g).
Proof. destruct o; reflexivity. Qed.

Lemma forEach_app {A : Type} (l1 l2 : list A) (body : A -> Atom -> outcome) (atom : Atom) :
  forEach (l1 ++ l2) body atom = bind (forEach l1 body atom) (forEach l2 body).
Proof.
  revert atom. induction l1 as [|v l1 IH]; intros atom; [reflexivity|].
  cbn [app forEach]. rewrite bind_assoc.
  destruct (body v atom); cbn [bind]; [apply IH|reflexivity..].
Qed.

Lemma forEach_map {A B : Type} (f : A -> B) (l : list A) (body : B -> Atom -> outcome)
    (atom : Atom) :
  forEach (map f l) body atom = forEach l (fun v => body (f v)) atom.
Proof.
  revert atom. induction l as [|v l IH]; intros atom; [reflexivity|].
  cbn [map forEach]. destruct (body (f v) atom); cbn [bind]; [apply IH|reflexivity..].
Qed.

Lemma forEach_nested {A B : Type} (l : list A) (g : A -> list B)
    (body : A -> B -> Atom -> outcome) (atom : Atom) :
  forEach l (fun v => forEach (g v) (body v)) atom =
  forEach (flat_map (fun v => map (pair v) (g v)) l) (fun p => body p.1 p.2) atom.
Proof.
  revert atom. induction l as [|v l IH]; intros atom; [reflexivity|].
  cbn [flat_map forEach]. rewrite forEach_app, forEach_map. cbn [fst snd].
  destruct (forEach (g v) (body v) atom); cbn [bind]; [apply IH|reflexivity..].
Qed.

Lemma forEach_filter {A : Type} (p : A -> bool) (l : list A) (body : A -> Atom -> outcome)
    (atom : Atom) :
  forEach l (fun v a => if p v then body v a else Ok a) atom =
  forEach (List.filter p l) body atom.
Proof.
  revert atom. induction l as [|v l IH]; intros atom; [reflexivity|].
  cbn [List.filter forEach]. destruct (p v); cbn [forEach bind].
  - destruct (body v atom); cbn [bind]; [apply IH|reflexivity..].
  - apply IH.
Qed.

Lemma forEach_ext_framed {A : Type} (a0 : Atom) (l : list A)
    (body body' : A -> Atom -> outcome) :
  (forall v atom, v ∈ l -> onlyLists a0 atom -> body v atom = body' v atom) ->
  (forall v atom, v ∈ l -> onlyLists a0 atom -> framed a0 (body' v atom)) ->
  forall atom, onlyLists a0 atom -> forEach l body atom = forEach l body' atom.
Proof.
  induction l as [|v l IH]; intros Hext Hfr atom Ha; [reflexivity|].
  cbn [forEach]. rewrite (Hext v atom) by (assumption || left).
  pose proof (Hfr v atom ltac:(left) Ha) as Hv.
  destruct (body' v atom) as [atom'| |]; cbn [bind]; try reflexivity.
  apply IH; [| |exact Hv].
  - intros w a Hw. apply Hext. right. exact Hw.
  - intros w a Hw. apply Hfr. right. exact Hw.
Qed.

Lemma validPair_length (a b : Atom) (p : nat * nat) :
  length (NN b) = length (NN a) -> validPair a p -> validPair b p.
Proof. unfold validPair. intros ->. tauto. Qed.

Lemma length_partnerOf (k : nat) (p : nat * nat) :
  p.1 <> p.2 ->
  length (partnerOf k p) = if decide (k = p.1 \/ k = p.2) then 1%nat else 0%nat.
Proof.
  intros Hne. unfold partnerOf.
  destruct (decide (k = p.1)) as [->|]; [destruct (decide _); [reflexivity|tauto]|].
  destruct (decide (k = p.2)) as [->|]; destruct (decide _); try reflexivity; tauto.
Qed.

Lemma insertAll_cons (p : nat * nat) (ps : list (nat * nat)) (atom : Atom) :
  insertAll (p :: ps) atom = bind (recordPair p.1 p.2 atom) (insertAll ps).
Proof. reflexivity. Qed.

Lemma fits_dec (p : nat * nat) (atom : Atom) :
  {(NN atom !!! p.1 < MN atom)%nat /\ (NN atom !!! p.2 < MN atom)%nat} +
  {(MN atom <= NN atom !!! p.1)%nat \/ (MN atom <= NN atom !!! p.2)%nat}.
Proof.
  destruct (le_lt_dec (MN atom) (NN atom !!! p.1)); [right; left; assumption|].
  destruct (le_lt_dec (MN atom) (NN atom !!! p.2)); [right; right; assumption|].
  left. split; assumption.
Qed.

(** A run of [insertAll] that returns has appended, to every list, the
    partners of its atom in order, and has kept every count within the
    capacity. *)
Lemma insertAll_ok (ps : list (nat * nat)) (atom atom' : Atom) :
  Forall (validPair atom) ps -> withinCap atom ->
  insertAll ps atom = Ok atom' ->
  onlyLists atom atom' /\ withinCap atom' /\ length (NN atom') = length (NN atom) /\
  forall k, neighbors atom' k = neighbors atom k ++ partners k ps.
Proof.
  revert atom. induction ps as [|p ps IH]; intros atom Hv Hcap Hrun.
  - injection Hrun as <-. split; [apply onlyLists_refl|]. split; [exact Hcap|].
    split; [reflexivity|]. intros k. cbn. rewrite app_nil_r. reflexivity.
  - rewrite insertAll_cons in Hrun.
    inversion Hv as [|? ? Hp Hps]; subst.
    assert (Hp' : validPair atom (p.1, p.2)) by (destruct p; exact Hp).
    destruct (fits_dec p atom) as [[H1 H2]|Hfull].
    + rewrite (recordPair_fits _ _ _ Hp' H1 H2) in Hrun. cbn [bind] in Hrun.
      apply IH in Hrun.
      * destruct Hrun as (Hfr & Hcap' & Hlen & Hnb).
        split; [eapply onlyLists_trans; [apply onlyLists_storePair|exact Hfr]|].
        split; [exact Hcap'|].
        split; [rewrite Hlen; apply storePair_length_NN|].
        intros k. rewrite Hnb, (storePair_neighbors _ _ k _ Hp' Hcap H1 H2).
        rewrite <- app_assoc. destruct p; reflexivity.
      * eapply Forall_impl; [exact Hps|]. intros q. apply validPair_length.
        apply storePair_length_NN.
      * apply storePair_withinCap; assumption.
    + destruct (recordPair_overflows _ _ _ Hp' Hcap Hfull) as (k & Hk & _).
      rewrite Hk in Hrun. discriminate Hrun.
Qed.

(** A run of [insertAll] that exits does so at a pair [p], after the
    pairs before it were recorded, with the two stores of [p] done, and
    for an atom of [p] whose list was full. *)
Lemma insertAll_fatal (ps : list (nat * nat)) (atom atom' : Atom) (i c : nat) :
  Forall (validPair atom) ps -> withinCap atom ->
  insertAll ps atom = Fatal atom' i c ->
  c = MN atom /\
  exists ps1 p ps2 atom1,
    ps = ps1 ++ p :: ps2 /\ insertAll ps1 atom = Ok atom1 /\
    validPair atom1 p /\ withinCap atom1 /\
    recordPair p.1 p.2 atom1 = Fatal atom' i c /\
    atom' = storePair p.1 p.2 atom1 /\ (i = p.1 \/ i = p.2) /\
    NN atom1 !!! i = MN atom.
Proof.
  revert atom. induction ps as [|p ps IH]; intros atom Hv Hcap Hrun; [discriminate|].
  rewrite insertAll_cons in Hrun.
  inversion Hv as [|? ? Hp Hps]; subst.
  assert (Hp' : validPair atom (p.1, p.2)) by (destruct p; exact Hp).
  destruct (fits_dec p atom) as [[H1 H2]|Hfull].
  - pose proof (recordPair_fits _ _ _ Hp' H1 H2) as Hfit.
    rewrite Hfit in Hrun. cbn [bind] in Hrun.
    apply IH in Hrun.
    + destruct Hrun
        as (Hc & ps1 & q & ps2 & atom1 & -> & Hok & Hvq & Hcq & Hrec & -> & Hi & Hfullq).
      destruct (storePair_fields p.1 p.2 atom) as (HMN & _ & _).
      split; [congruence|].
      exists (p :: ps1), q, ps2, atom1. split; [reflexivity|].
      split; [rewrite insertAll_cons, Hfit; exact Hok|].
      split; [exact Hvq|]. split; [exact Hcq|]. split; [exact Hrec|].
      split; [reflexivity|]. split; [exact Hi|]. congruence.
    + eapply Forall_impl; [exact Hps|]. intros q. apply validPair_length.
      apply storePair_length_NN.
    + apply storePair_withinCap; assumption.
  - destruct (recordPair_overflows _ _ _ Hp' Hcap Hfull) as (k & Hk & Hkp & Hkfull).
    rewrite Hk in Hrun. cbn [bind] in Hrun. injection Hrun as <- <- <-.
    split; [reflexivity|].
    exists [], p, ps, atom.
    split; [reflexivity|]. split; [reflexivity|]. split; [exact Hp|].
    split; [exact Hcap|]. split; [exact Hk|]. split; [reflexivity|].
    split; [exact Hkp|exact Hkfull].
Qed.


(** [insertAll] returns exactly when every list, with its new partners,
    fits the capacity. *)
Lemma insertAll_returns_iff (ps : list (nat * nat)) (atom : Atom) :
  Forall (validPair atom) ps -> withinCap atom ->
  (exists atom', insertAll ps atom = Ok atom') <->
  (forall k, (NN atom !!! k + length (partners k ps) <= MN atom)%nat).
Proof.
  revert atom. induction ps as [|p ps IH]; intros atom Hv Hcap.
  - split; [|intros _; exists atom; reflexivity].
    intros _ k. cbn. pose proof (Hcap k). lia.
  - inversion Hv as [|? ? Hp Hps]; subst.
    assert (Hp' : validPair atom (p.1, p.2)) by (destruct p; exact Hp).
    pose proof Hp as (Hne & _ & _).
    rewrite insertAll_cons.
    assert (Hlen : forall k, length (partners k (p :: ps)) =
              ((if decide (k = p.1 \/ k = p.2) then 1 else 0) + length (partners k ps))%nat).
    { intros k. unfold partners. cbn [flat_map]. rewrite length_app.
      rewrite (length_partnerOf k p Hne). reflexivity. }
    destruct (fits_dec p atom) as [[H1 H2]|Hfull].
    + rewrite (recordPair_fits _ _ _ Hp' H1 H2). cbn [bind].
      rewrite IH.
      * destruct (storePair_fields p.1 p.2 atom) as (-> & _ & _).
        split; intros H k; specialize (H k);
          rewrite (storePair_NN _ _ k _ Hp') in *; rewrite Hlen in *; lia.
      * eapply Forall_impl; [exact Hps|]. intros q. apply validPair_length.
        apply storePair_length_NN.
      * apply storePair_withinCap; assumption.
    + destruct (recordPair_overflows _ _ _ Hp' Hcap Hfull) as (k & -> & Hkp & Hkfull).
      cbn [bind]. split; [intros (a' & Ha'); discriminate|].
      intros H. specialize (H k). rewrite Hlen in H.
      destruct (decide (k = p.1 \/ k = p.2)); [lia|tauto].
Qed.

(** ** The all-pairs builder *)

(** The pairs [(i, j)], [i < j < N], in the order of the two loops. *)
Definition allPairs (N : nat) : list (nat * nat) :=
  flat_map (fun i => map (pair i) (seq (i + 1) (N - (i + 1)))) (seq 0 (N - 1)).

(** The acceptance test of both builders:
    [distanceSquare < cutoffSquare]. *)
Definition within (atom : Atom) (i j : nat) : bool :=
  qlt (distanceSquare atom i j) (cutoffNeighbor atom * cutoffNeighbor atom).

Definition acceptedON2 (atom : Atom) : list (nat * nat) :=
  List.filter (fun p => within atom p.1 p.2) (allPairs (number atom)).

Lemma distanceSquare_frame (a0 atom : Atom) (i j : nat) :
  onlyLists a0 atom -> distanceSquare atom i j = distanceSquare a0 i j.
Proof. intros ->. reflexivity. Qed.

Lemma pairLoop_insertAll (a0 : Atom) (c : Qc) (l : list (nat * nat)) (atom : Atom) :
  onlyLists a0 atom ->
  forEach l (fun p => findNeighborON2_inner c p.1 p.2) atom =
  insertAll (List.filter (fun p => qlt (distanceSquare a0 p.1 p.2) c) l) atom.
Proof.
  intros Ha. unfold insertAll. rewrite <- forEach_filter.
  apply (forEach_ext_framed a0); [| |exact Ha].
  - intros p a _ Hfr. unfold findNeighborON2_inner.
    rewrite (distanceSquare_frame a0 a _ _ Hfr). reflexivity.
  - intros p a _ Hfr. destruct (qlt _ _); [apply recordPair_framed|]; exact Hfr.
Qed.

(** [findNeighborON2] records the accepted pairs, in the order of
    [allPairs], into emptied lists. *)
Lemma findNeighborON2_insertAll (atom : Atom) :
  findNeighborON2 atom = insertAll (acceptedON2 atom) (fillNN atom).
Proof.
  unfold findNeighborON2, acceptedON2, within, allPairs.
  rewrite forEach_nested.
  apply (pairLoop_insertAll atom). apply onlyLists_set_NN.
Qed.

Lemma elem_of_allPairs (N i j : nat) :
  (i, j) ∈ allPairs N <-> (i < j < N)%nat.
Proof.
  unfold allPairs. rewrite list_elem_of_In, in_flat_map. split.
  - intros (k & Hk & Hin). apply in_seq in Hk. apply in_map_iff in Hin.
    destruct Hin as (m & [= <- <-] & Hm). apply in_seq in Hm. lia.
  - intros H. exists i. split; [apply in_seq; lia|].
    apply in_map_iff. exists j. split; [reflexivity|apply in_seq; lia].
Qed.

Lemma NoDup_flat_map {A B : Type} (f : A -> list B) (l : list A) :
  NoDup l -> (forall v, v ∈ l -> NoDup (f v)) ->
  (forall v w b, v ∈ l -> w ∈ l -> b ∈ f v -> b ∈ f w -> v = w) ->
  NoDup (flat_map f l).
Proof.
  induction l as [|v l IH]; intros Hl Hf Hdisj; [constructor|].
  cbn [flat_map]. apply NoDup_cons in Hl as [Hv Hl].
  apply NoDup_app. split; [apply Hf; left|]. split.
  - intros b Hb Hb'. apply list_elem_of_In, in_flat_map in Hb' as (w & Hw & Hbw).
    apply list_elem_of_In in Hw, Hbw.
    assert (v = w) by (apply (Hdisj v w b); [left|right| |]; assumption).
    subst. contradiction.
  - apply IH; [exact Hl| |].
    + intros w Hw. apply Hf. right. exact Hw.
    + intros w w' b Hw Hw'. apply Hdisj; right; assumption.
Qed.

Lemma NoDup_allPairs (N : nat) : NoDup (allPairs N).
Proof.
  unfold allPairs. apply NoDup_flat_map.
  - apply NoDup_seq.
  - intros i _. apply NoDup_fmap_2; [|apply NoDup_seq].
    intros a b [= ->]. reflexivity.
  - intros i i' [a b] _ _ H1 H2.
    apply list_elem_of_In, in_map_iff in H1 as (? & [= <- <-] & _).
    apply list_elem_of_In, in_map_iff in H2 as (? & [= <- _] & _).
    reflexivity.
Qed.

Lemma elem_of_acceptedON2 (atom : Atom) (i j : nat) :
  (i, j) ∈ acceptedON2 atom <-> (i < j < number atom)%nat /\ within atom i j = true.
Proof.
  unfold acceptedON2. rewrite list_elem_of_In, filter_In, <- list_elem_of_In.
  rewrite elem_of_allPairs. reflexivity.
Qed.

(** *** Membership in a list of partners *)

Lemma elem_of_partnerOf (k j : nat) (p : nat * nat) :
  p.1 <> p.2 -> (j ∈ partnerOf k p <-> p = (k, j) \/ p = (j, k)).
Proof.
  intros Hne. unfold partnerOf. destruct p as [a b]. cbn [fst snd] in *.
  destruct (decide (k = a)) as [->|Hka].
  - rewrite list_elem_of_singleton. split.
    + intros ->. left. reflexivity.
    + intros [[= ->]|[= -> ->]]; [reflexivity|contradiction].
  - destruct (decide (k = b)) as [->|Hkb].
    + rewrite list_elem_of_singleton. split.
      * intros ->. right. reflexivity.
      * intros [[= -> ->]|[= ->]]; [contradiction|reflexivity].
    + split; [intros H; inversion H|].
      intros [[= -> ->]|[= -> ->]]; contradiction.
Qed.

Lemma elem_of_partners (k j : nat) (ps : list (nat * nat)) :
  Forall (fun p => p.1 <> p.2) ps ->
  (j ∈ partners k ps <-> (k, j) ∈ ps \/ (j, k) ∈ ps).
Proof.
  intros Hne. unfold partners. rewrite list_elem_of_In, in_flat_map. split.
  - intros (p & Hp & Hj). apply list_elem_of_In in Hp, Hj.
    rewrite Forall_forall in Hne. apply elem_of_partnerOf in Hj; [|apply Hne; exact Hp].
    destruct Hj as [<-|<-]; [left|right]; exact Hp.
  - rewrite Forall_forall in Hne.
    intros [H|H].
    + exists (k, j). split; [apply list_elem_of_In; exact H|].
      apply list_elem_of_In, elem_of_partnerOf; [exact (Hne _ H)|left; reflexivity].
    + exists (j, k). split; [apply list_elem_of_In; exact H|].
      apply list_elem_of_In, elem_of_partnerOf; [exact (Hne _ H)|right; reflexivity].
Qed.

(** In a duplicate-free list of pairs written smaller index first, no atom
    has the same partner twice. *)
Lemma NoDup_partners (k : nat) (ps : list (nat * nat)) :
  Forall (fun p => (p.1 < p.2)%nat) ps -> NoDup ps -> NoDup (partners k ps).
Proof.
  induction ps as [|p ps IH]; intros Hord Hnd; [constructor|].
  apply NoDup_cons in Hnd as [Hp Hnd].
  inversion Hord as [|? ? Hlt Hord']; subst.
  unfold partners. cbn [flat_map]. fold (partners k ps).
  apply NoDup_app. split; [|split; [|apply IH; assumption]].
  - unfold partnerOf. repeat destruct (decide _); repeat constructor;
      intros H; inversion H.
  - intros j Hj Hj'.
    assert (Hne : Forall (fun q => q.1 <> q.2) ps).
    { eapply Forall_impl; [exact Hord'|]. intros q. cbn. lia. }
    apply elem_of_partners in Hj'; [|exact Hne].
    apply elem_of_partnerOf in Hj; [|lia].
    rewrite Forall_forall in Hord'.
    destruct Hj as [-> | ->], Hj' as [H | H]; try contradiction;
      apply Hord' in H; cbn [fst snd] in *; lia.
Qed.

(** *** The minimum-image distance is symmetric *)

Definition opp3 (r : Qc * Qc * Qc) : Qc * Qc * Qc := (- r.1.1, - r.1.2, - r.2).

Lemma applyMic_opp (B : list Qc) (r : Qc * Qc * Qc) :
  applyMic B (opp3 r) = opp3 (applyMic B r).
Proof.
  destruct r as [[rx ry] rz].
  unfold opp3, applyMic, toFractional, toCartesian. cbn [fst snd].
  assert (E : forall a b c : Qc, a * - rx + b * - ry + c * - rz = - (a * rx + b * ry + c * rz))
    by (intros; ring).
  rewrite !E, !applyMicOne_opp.
  f_equal; [f_equal|]; ring.
Qed.

Lemma normSquare_opp (r : Qc * Qc * Qc) : normSquare (opp3 r) = normSquare r.
Proof.
  destruct r as [[rx ry] rz]. unfold opp3, normSquare. cbn [fst snd]. ring.
Qed.

Lemma distanceSquare_sym (atom : Atom) (i j : nat) :
  distanceSquare atom j i = distanceSquare atom i j.
Proof.
  unfold distanceSquare, displacement.
  assert (E : (x atom !!! i - x atom !!! j, y atom !!! i - y atom !!! j,
               z atom !!! i - z atom !!! j) =
              opp3 (x atom !!! j - x atom !!! i, y atom !!! j - y atom !!! i,
                    z atom !!! j - z atom !!! i)).
  { unfold opp3. cbn [fst snd]. f_equal; [f_equal|]; ring. }
  rewrite E, applyMic_opp. apply normSquare_opp.
Qed.

Lemma within_sym (atom : Atom) (i j : nat) : within atom j i = within atom i j.
Proof. unfold within. rewrite distanceSquare_sym. reflexivity. Qed.

(** ** What a build of the all-pairs builder leaves in the lists *)

(** The arrays have one entry per atom. *)
Definition sized (atom : Atom) : Prop := length (NN atom) = number atom.

Lemma fillNN_empty (atom : Atom) (k : nat) : NN (fillNN atom) !!! k = 0%nat.
Proof.
  cbn [fillNN set_NN NN].
  destruct (decide (k < length (NN atom))%nat) as [Hk|Hk].
  - apply lookup_total_replicate_2. exact Hk.
  - rewrite list_lookup_total_alt, lookup_ge_None_2; [reflexivity|].
    rewrite length_replicate. lia.
Qed.

Lemma fillNN_withinCap (atom : Atom) : withinCap (fillNN atom).
Proof. intros k. rewrite fillNN_empty. lia. Qed.

Lemma fillNN_neighbors (atom : Atom) (k : nat) : neighbors (fillNN atom) k = [].
Proof. unfold neighbors. rewrite fillNN_empty. reflexivity. Qed.

Lemma fillNN_length (atom : Atom) : length (NN (fillNN atom)) = length (NN atom).
Proof. cbn [fillNN set_NN NN]. apply length_replicate. Qed.

Lemma acceptedON2_valid (atom : Atom) :
  sized atom -> Forall (validPair (fillNN atom)) (acceptedON2 atom).
Proof.
  intros Hs. apply Forall_forall. intros [i j] Hp.
  apply elem_of_acceptedON2 in Hp as [Hlt _].
  unfold validPair. rewrite fillNN_length, Hs. cbn [fst snd]. lia.
Qed.

Lemma acceptedON2_ordered (atom : Atom) :
  Forall (fun p => (p.1 < p.2)%nat) (acceptedON2 atom).
Proof.
  apply Forall_forall. intros [i j] Hp.
  apply elem_of_acceptedON2 in Hp as [Hlt _]. cbn [fst snd]. lia.
Qed.

Lemma NoDup_List_filter {A : Type} (p : A -> bool) (l : list A) :
  NoDup l -> NoDup (List.filter p l).
Proof.
  induction l as [|v l IH]; intros Hl; [constructor|].
  apply NoDup_cons in Hl as [Hv Hl]. cbn [List.filter].
  destruct (p v); [|apply IH; exact Hl].
  apply NoDup_cons. split; [|apply IH; exact Hl].
  intros H. apply Hv. apply list_elem_of_In, filter_In in H as [H _].
  apply list_elem_of_In. exact H.
Qed.

Lemma NoDup_acceptedON2 (atom : Atom) : NoDup (acceptedON2 atom).
Proof. unfold acceptedON2. apply NoDup_List_filter, NoDup_allPairs. Qed.

(** When the all-pairs builder returns, the list of every atom [i] holds
    exactly the atoms [j <> i] of the system whose squared minimum-image
    distance to [i] is below the squared cutoff, each once; the lists
    are therefore symmetric, and every count is within [MN]. *)
Theorem findNeighborON2_exact (atom atom' : Atom) (i : nat) :
  sized atom -> findNeighborON2 atom = Ok atom' ->
  (forall j, j ∈ neighbors atom' i <->
             (i < number atom)%nat /\ (j < number atom)%nat /\ j <> i /\
             within atom i j = true) /\
  NoDup (neighbors atom' i) /\
  (forall j, j ∈ neighbors atom' i <-> i ∈ neighbors atom' j) /\
  length (neighbors atom' i) = NN atom' !!! i /\
  (NN atom' !!! i <= MN atom)%nat.
Proof.
  intros Hs Hrun. rewrite findNeighborON2_insertAll in Hrun.
  apply insertAll_ok in Hrun;
    [|apply acceptedON2_valid; exact Hs|apply fillNN_withinCap].
  destruct Hrun as (Hfr & Hcap & _ & Hnb).
  assert (Hne : Forall (fun p => p.1 <> p.2) (acceptedON2 atom)).
  { eapply Forall_impl; [apply acceptedON2_ordered|]. intros p. cbn. lia. }
  assert (Hmem : forall a b, b ∈ neighbors atom' a <->
            (a < number atom)%nat /\ (b < number atom)%nat /\ b <> a /\
            within atom a b = true).
  { intros a b. rewrite Hnb, fillNN_neighbors, app_nil_l.
    rewrite (elem_of_partners _ _ _ Hne), !elem_of_acceptedON2.
    rewrite (within_sym atom a b). split.
    - intros [[Hlt Hw]|[Hlt Hw]]; repeat split; try lia; exact Hw.
    - intros (Ha & Hb & Hab & Hw).
      destruct (decide (a < b)%nat); [left|right]; (split; [lia|exact Hw]). }
  split; [apply Hmem|].
  split.
  { rewrite Hnb, fillNN_neighbors, app_nil_l.
    apply NoDup_partners; [apply acceptedON2_ordered|apply NoDup_acceptedON2]. }
  split.
  { intros j. rewrite !Hmem, (within_sym atom j i). split; intros (? & ? & ? & ?);
      repeat split; try assumption; congruence. }
  split; [apply length_neighbors|].
  apply onlyLists_fields in Hfr. destruct Hfr as (_ & _ & HMN & _).
  cbn [fillNN set_NN MN] in HMN. rewrite <- HMN. apply Hcap.
Qed.

(** ** The cell-linked builder as a list of visits *)

(** What the atom loop meets, in order: a pair that passes the
    acceptance test, or ([None]) a cell subscript out of range. *)
Definition runItems (items : list (option (nat * nat))) : Atom -> outcome :=
  forEach items (fun item atom =>
    match item with
    | Some p => recordPair p.1 p.2 atom
    | None => OutOfRange
    end).

Definition pairsOf (items : list (option (nat * nat))) : list (nat * nat) :=
  flat_map (fun item => match item with Some p => [p] | None => [] end) items.

(** The atoms of cell [c], as the loop over [m] reads them. *)
Definition cellAtoms (cellCount cellCountSum cellContents : list nat) (c : nat) : list nat :=
  map (fun m => cellContents !!! (cellCountSum !!! c + m)%nat) (seq 0 (cellCount !!! c)).

(** The 27 flattened indices that the loops over [k], [j], [i] visit. *)
Definition cellsAround (numCells cell : int4) : list Z :=
  flat_map (fun k =>
    flat_map (fun j =>
      map (fun i => neighborCellOf numCells cell k j i) offsets) offsets) offsets.

Definition accepts (a0 : Atom) (c : Qc) (n1 n2 : nat) : bool :=
  (n1 <? n2)%nat && qlt (distanceSquare a0 n1 n2) c.

Definition visitItems (a0 : Atom) (c : Qc) (cellCount cellCountSum cellContents : list nat)
    (n1 : nat) (neighborCell : Z) : list (option (nat * nat)) :=
  if inRange neighborCell (length cellCount) then
    map (fun n2 => Some (n1, n2))
      (List.filter (accepts a0 c n1)
         (cellAtoms cellCount cellCountSum cellContents (Z.to_nat neighborCell)))
  else [None].

Definition itemsON1 (a0 : Atom) (c : Qc) (numCells : int4)
    (cellCount cellCountSum cellContents : list nat) (cells : nat -> int4)
    (ns : list nat) : list (option (nat * nat)) :=
  flat_map (fun n1 =>
    flat_map (visitItems a0 c cellCount cellCountSum cellContents n1)
      (cellsAround numCells (cells n1))) ns.

Lemma runItems_app (l1 l2 : list (option (nat * nat))) (atom : Atom) :
  runItems (l1 ++ l2) atom = bind (runItems l1 atom) (runItems l2).
Proof. apply forEach_app. Qed.

Lemma runItems_framed (a0 : Atom) (items : list (option (nat * nat))) (atom : Atom) :
  onlyLists a0 atom -> framed a0 (runItems items atom).
Proof.
  intros Ha. unfold runItems. apply forEach_meets; [|exact Ha].
  intros [p|] a _ Hfr; [apply recordPair_framed; exact Hfr|exact I].
Qed.

(** A loop whose every turn is a run of items is the run of all of them. *)
Lemma forEach_runItems {A : Type} (a0 : Atom) (l : list A) (body : A -> Atom -> outcome)
    (g : A -> list (option (nat * nat))) :
  (forall v atom, onlyLists a0 atom -> body v atom = runItems (g v) atom) ->
  forall atom, onlyLists a0 atom ->
  forEach l body atom = runItems (flat_map g l) atom.
Proof.
  intros Hbody. induction l as [|v l IH]; intros atom Ha; [reflexivity|].
  cbn [forEach flat_map]. rewrite runItems_app, (Hbody v atom Ha).
  pose proof (runItems_framed a0 (g v) atom Ha) as Hfr.
  destruct (runItems (g v) atom) as [atom'| |]; cbn [bind]; try reflexivity.
  apply IH. exact Hfr.
Qed.

Lemma scanCell_items (a0 : Atom) (c : Qc) (cellCount cellCountSum cellContents : list nat)
    (n1 : nat) (nb : Z) (atom : Atom) :
  onlyLists a0 atom ->
  scanCell c cellCount cellCountSum cellContents n1 nb atom =
  runItems (visitItems a0 c cellCount cellCountSum cellContents n1 nb) atom.
Proof.
  intros Ha. unfold scanCell, visitItems.
  destruct (inRange nb (length cellCount)); [|reflexivity].
  unfold runItems. rewrite forEach_map. cbn [fst snd].
  rewrite <- forEach_filter. unfold cellAtoms. rewrite forEach_map.
  apply (forEach_ext_framed a0); [| |exact Ha].
  - intros m a _ Hfr. unfold findNeighborON1_inner, accepts.
    rewrite (distanceSquare_frame a0 a _ _ Hfr).
    destruct (_ <? _)%nat; reflexivity.
  - intros m a _ Hfr. destruct (accepts _ _ _ _); [apply recordPair_framed|]; exact Hfr.
Qed.

Lemma flat_map_nested {A B C : Type} (g : B -> list C) (f : A -> list B) (l : list A) :
  flat_map g (flat_map f l) = flat_map (fun v => flat_map g (f v)) l.
Proof.
  induction l as [|v l IH]; [reflexivity|].
  cbn [flat_map]. rewrite flat_map_app, IH. reflexivity.
Qed.

Lemma flat_map_of_map {A B C : Type} (g : B -> list C) (f : A -> B) (l : list A) :
  flat_map g (map f l) = flat_map (fun v => g (f v)) l.
Proof.
  induction l as [|v l IH]; [reflexivity|].
  cbn [map flat_map]. rewrite IH. reflexivity.
Qed.

Lemma scanAround_items (a0 : Atom) (c : Qc) (numCells : int4)
    (cellCount cellCountSum cellContents : list nat) (n1 : nat) (cell : int4) (atom : Atom) :
  onlyLists a0 atom ->
  scanAround c numCells cellCount cellCountSum cellContents n1 cell atom =
  runItems (flat_map (visitItems a0 c cellCount cellCountSum cellContents n1)
              (cellsAround numCells cell)) atom.
Proof.
  intros Ha. unfold scanAround, cellsAround.
  rewrite flat_map_nested.
  apply (forEach_runItems a0); [|exact Ha].
  intros k a1 Ha1. rewrite flat_map_nested.
  apply (forEach_runItems a0); [|exact Ha1].
  intros j a2 Ha2. rewrite flat_map_of_map.
  apply (forEach_runItems a0); [|exact Ha2].
  intros i a3 Ha3. apply scanCell_items. exact Ha3.
Qed.

Lemma scanAtoms_items (a0 : Atom) (c : Qc) (numCells : int4)
    (cellCount cellCountSum cellContents : list nat) (cells : nat -> int4)
    (ns : list nat) (atom : Atom) :
  onlyLists a0 atom ->
  scanAtoms c numCells cellCount cellCountSum cellContents cells ns atom =
  runItems (itemsON1 a0 c numCells cellCount cellCountSum cellContents cells ns) atom.
Proof.
  intros Ha. unfold scanAtoms, itemsON1.
  apply (forEach_runItems a0); [|exact Ha].
  intros n1 a1 Ha1. apply scanAround_items. exact Ha1.
Qed.

(** A run of items that does not meet an out-of-range subscript is the
    recording of its pairs. *)
Lemma runItems_insertAll (items : list (option (nat * nat))) (atom : Atom) :
  runItems items atom <> OutOfRange ->
  runItems items atom = insertAll (pairsOf items) atom.
Proof.
  revert atom. induction items as [|[p|] items IH]; intros atom Hrun.
  - reflexivity.
  - change (runItems (Some p :: items) atom)
      with (bind (recordPair p.1 p.2 atom) (runItems items)) in *.
    change (pairsOf (Some p :: items)) with (p :: pairsOf items).
    rewrite insertAll_cons.
    destruct (recordPair p.1 p.2 atom) as [atom'| |]; cbn [bind] in *;
      [apply IH; exact Hrun|reflexivity|congruence].
  - exfalso. apply Hrun. reflexivity.
Qed.

Lemma runItems_ok_in_range (items : list (option (nat * nat))) (atom atom' : Atom) :
  runItems items atom = Ok atom' -> None ∉ items.
Proof.
  revert atom. induction items as [|[p|] items IH]; intros atom Hrun Hin.
  - inversion Hin.
  - change (runItems (Some p :: items) atom)
      with (bind (recordPair p.1 p.2 atom) (runItems items)) in Hrun.
    apply elem_of_cons in Hin as [Hin|Hin]; [discriminate|].
    destruct (recordPair p.1 p.2 atom) as [a1| |]; cbn [bind] in Hrun; try discriminate.
    exact (IH a1 Hrun Hin).
  - discriminate Hrun.
Qed.


(** *** The cell arrays hold atoms of the system *)

Lemma scatterCells_bound (N : nat) (cellIndex : nat -> Z) (cellCountSum ns : list nat)
    (cellCount cellContents cellCount' cellContents' : list nat) :
  Forall (fun v => (v < N)%nat) ns -> Forall (fun v => (v < N)%nat) cellContents ->
  scatterCells cellIndex cellCountSum ns cellCount cellContents
    = Some (cellCount', cellContents') ->
  Forall (fun v => (v < N)%nat) cellContents'.
Proof.
  revert cellCount cellContents.
  induction ns as [|n ns IH]; intros cellCount cellContents Hns Hc Hrun.
  - injection Hrun as _ <-. exact Hc.
  - cbn [scatterCells] in Hrun. inversion Hns as [|? ? Hn Hns']; subst.
    destruct (inRange _ _); [|discriminate].
    eapply IH; [exact Hns'| |exact Hrun].
    apply Forall_insert; assumption.
Qed.

Lemma cellArrays_bound (sqrt : Qc -> Qc) (atom : Atom)
    (cellCount cellCountSum cellContents : list nat) :
  cellArrays sqrt atom = Some (cellCount, cellCountSum, cellContents) ->
  Forall (fun v => (v < number atom)%nat) cellContents.
Proof.
  unfold cellArrays.
  destruct (countCells _ _ _) as [cc|]; [|discriminate].
  destruct (scatterCells _ _ _ _ _) as [[cc' cont]|] eqn:E; [|discriminate].
  intros [= <- <- <-].
  eapply scatterCells_bound; [| |exact E].
  - apply Forall_forall. intros v Hv. apply elem_of_seq in Hv. lia.
  - apply Forall_forall. intros v Hv. apply elem_of_replicate in Hv as [-> Hn]. lia.
Qed.

Lemma elem_of_pairsOf (p : nat * nat) (items : list (option (nat * nat))) :
  p ∈ pairsOf items <-> Some p ∈ items.
Proof.
  unfold pairsOf. rewrite list_elem_of_In, in_flat_map. split.
  - intros ([q|] & Hq & Hp); [|inversion Hp].
    destruct Hp as [->|[]]. apply list_elem_of_In. exact Hq.
  - intros H. exists (Some p). split; [apply list_elem_of_In; exact H|left; reflexivity].
Qed.

Lemma elem_of_itemsON1 (a0 : Atom) (c : Qc) (numCells : int4)
    (cellCount cellCountSum cellContents : list nat) (cells : nat -> int4)
    (ns : list nat) (p : nat * nat) :
  Some p ∈ itemsON1 a0 c numCells cellCount cellCountSum cellContents cells ns <->
  p.1 ∈ ns /\
  exists nb, nb ∈ cellsAround numCells (cells p.1) /\
             inRange nb (length cellCount) = true /\
             p.2 ∈ cellAtoms cellCount cellCountSum cellContents (Z.to_nat nb) /\
             accepts a0 c p.1 p.2 = true.
Proof.
  unfold itemsON1. rewrite list_elem_of_In, in_flat_map. split.
  - intros (n1 & Hn1 & Hin). apply in_flat_map in Hin as (nb & Hnb & Hin).
    unfold visitItems in Hin. destruct (inRange nb (length cellCount)) eqn:Hr.
    + apply in_map_iff in Hin as (n2 & [= <-] & Hn2).
      apply filter_In in Hn2 as [Hn2 Hacc]. cbn [fst snd].
      split; [apply list_elem_of_In; exact Hn1|].
      exists nb. rewrite !list_elem_of_In. auto.
    + destruct Hin as [Hin|[]]. discriminate.
  - intros (Hn1 & nb & Hnb & Hr & Hn2 & Hacc). destruct p as [n1 n2]. cbn [fst snd] in *.
    exists n1. split; [apply list_elem_of_In; exact Hn1|].
    apply in_flat_map. exists nb. split; [apply list_elem_of_In; exact Hnb|].
    unfold visitItems. rewrite Hr. apply in_map_iff. exists n2. split; [reflexivity|].
    apply filter_In. split; [apply list_elem_of_In; exact Hn2|exact Hacc].
Qed.

Lemma cellAtoms_bound (N : nat) (cellCount cellCountSum cellContents : list nat) (c v : nat) :
  Forall (fun v => (v < N)%nat) cellContents ->
  v ∈ cellAtoms cellCount cellCountSum cellContents c -> (v < N)%nat \/ v = 0%nat.
Proof.
  intros Hc Hv. unfold cellAtoms in Hv.
  apply list_elem_of_In, in_map_iff in Hv as (m & <- & _).
  destruct (decide (cellCountSum !!! c + m < length cellContents)%nat) as [Hlt|Hge].
  - left. rewrite Forall_forall in Hc. apply Hc.
    apply list_elem_of_lookup_total_2. exact Hlt.
  - right. rewrite list_lookup_total_alt, lookup_ge_None_2; [reflexivity|lia].
Qed.

(** ** The pairs the cell-linked builder accepts *)

Definition acceptedON1 (sqrt : Qc -> Qc) (atom : Atom) : list (nat * nat) :=
  match cellArrays sqrt atom with
  | None => []
  | Some (cellCount, cellCountSum, cellContents) =>
      pairsOf (itemsON1 atom (cutoffNeighbor atom * cutoffNeighbor atom)
                 (gridOf sqrt atom) cellCount cellCountSum cellContents
                 (cellOf sqrt atom) (seq 0 (number atom)))
  end.

(** Every accepted pair is two atoms of the system, smaller index first,
    within the cutoff. *)
Lemma acceptedON1_sound (sqrt : Qc -> Qc) (atom : Atom) (p : nat * nat) :
  p ∈ acceptedON1 sqrt atom ->
  (p.1 < p.2 < number atom)%nat /\ within atom p.1 p.2 = true.
Proof.
  unfold acceptedON1.
  destruct (cellArrays sqrt atom) as [[[cc ccs] cont]|] eqn:E; [|intros H; inversion H].
  apply cellArrays_bound in E.
  generalize dependent (gridOf sqrt atom). generalize dependent (cellOf sqrt atom).
  intros cells grid Hp.
  apply elem_of_pairsOf, elem_of_itemsON1 in Hp as (Hn1 & nb & _ & _ & Hn2 & Hacc).
  unfold accepts in Hacc. apply andb_true_iff in Hacc as [Hlt Hw].
  apply Nat.ltb_lt in Hlt.
  apply (cellAtoms_bound _ _ _ _ _ _ E) in Hn2.
  split; [lia|exact Hw].
Qed.

(** Unless it meets a subscript out of range, the cell-linked builder
    records its accepted pairs, in the order of its loops, into emptied
    lists. *)
Lemma findNeighborON1_insertAll (sqrt : Qc -> Qc) (atom : Atom) :
  findNeighborON1 sqrt atom <> OutOfRange ->
  findNeighborON1 sqrt atom = insertAll (acceptedON1 sqrt atom) (fillNN atom).
Proof.
  unfold findNeighborON1, acceptedON1.
  destruct (cellArrays sqrt atom) as [[[cc ccs] cont]|]; [|congruence].
  generalize (gridOf sqrt atom) (cellOf sqrt atom)
             (cutoffNeighbor atom * cutoffNeighbor atom).
  intros grid cells c.
  rewrite (scanAtoms_items atom) by apply onlyLists_set_NN.
  apply runItems_insertAll.
Qed.

Lemma acceptedON1_valid (sqrt : Qc -> Qc) (atom : Atom) :
  sized atom -> Forall (validPair (fillNN atom)) (acceptedON1 sqrt atom).
Proof.
  intros Hs. apply Forall_forall. intros p Hp.
  apply acceptedON1_sound in Hp as [Hlt _].
  unfold validPair. rewrite fillNN_length, Hs. lia.
Qed.

Lemma acceptedON1_ordered (sqrt : Qc -> Qc) (atom : Atom) :
  Forall (fun p => (p.1 < p.2)%nat) (acceptedON1 sqrt atom).
Proof.
  apply Forall_forall. intros p Hp.
  apply acceptedON1_sound in Hp as [Hlt _]. lia.
Qed.

(** ** The two passes that fill the cell arrays *)

Lemma inRange_spec (c : Z) (len : nat) :
  inRange c len = true <-> (0 <= c < Z.of_nat len)%Z.
Proof. unfold inRange. rewrite andb_true_iff, Z.leb_le, Z.ltb_lt. reflexivity. Qed.

Lemma sum_list_bump (l : list nat) (i : nat) :
  (i < length l)%nat -> sum_list (<[i := S (l !!! i)]> l) = S (sum_list l).
Proof.
  revert i. induction l as [|v l IH]; intros i Hi; [cbn in Hi; lia|].
  destruct i as [|i].
  - reflexivity.
  - cbn [length] in Hi. cbn. rewrite IH by lia. lia.
Qed.

Lemma sum_list_take_S (l : list nat) (i : nat) :
  (i < length l)%nat -> sum_list (take (S i) l) = (sum_list (take i l) + l !!! i)%nat.
Proof.
  intros Hi.
  rewrite (take_S_r l i (l !!! i)) by (apply list_lookup_lookup_total_lt; exact Hi).
  rewrite sum_list_with_app. cbn. lia.
Qed.

Lemma sum_list_take_all (l : list nat) (i : nat) :
  (sum_list (take i l) <= sum_list l)%nat.
Proof.
  rewrite <- (take_drop i l) at 2. rewrite sum_list_with_app. lia.
Qed.

Lemma sum_list_take_le (l : list nat) (i j : nat) :
  (i <= j)%nat -> (sum_list (take i l) <= sum_list (take j l))%nat.
Proof.
  intros Hij.
  replace (take i l) with (take i (take j l))
    by (rewrite take_take; f_equal; lia).
  apply sum_list_take_all.
Qed.

Lemma map_seq_lookup_total {A : Type} `{Inhabited A} (f : nat -> A) (l : list A) :
  (forall m, (m < length l)%nat -> f m = l !!! m) ->
  map f (seq 0 (length l)) = l.
Proof.
  assert (Hgen : forall start,
            (forall m, (m < length l)%nat -> f (start + m)%nat = l !!! m) ->
            map f (seq start (length l)) = l).
  { induction l as [|v l IH]; intros start Hf; [reflexivity|].
    cbn [length seq map]. f_equal.
    - rewrite <- (Nat.add_0_r start). apply (Hf 0%nat). cbn. lia.
    - apply IH. intros m Hm. replace (S start + m)%nat with (start + S m)%nat by lia.
      apply (Hf (S m)). cbn. lia. }
  intros Hf. apply (Hgen 0%nat). exact Hf.
Qed.

Section Binning.

(** The flattened cell index of each atom. *)
Variable cellIndex : nat -> Z.

(** The atoms of [ns] that lie in cell [c], in the order of [ns]. *)
Definition atomsIn (c : nat) (ns : list nat) : list nat :=
  List.filter (fun n => (cellIndex n =? Z.of_nat c)%Z) ns.

Lemma atomsIn_app (c : nat) (l k : list nat) :
  atomsIn c (l ++ k) = atomsIn c l ++ atomsIn c k.
Proof. unfold atomsIn. apply List.filter_app. Qed.

Lemma atomsIn_one (c n : nat) (len : nat) :
  inRange (cellIndex n) len = true ->
  atomsIn c [n] = if decide (c = Z.to_nat (cellIndex n)) then [n] else [].
Proof.
  intros Hr. apply inRange_spec in Hr. unfold atomsIn. cbn [List.filter].
  destruct (decide (c = Z.to_nat (cellIndex n))) as [->|Hne].
  - rewrite Z2Nat.id by lia. rewrite Z.eqb_refl. reflexivity.
  - destruct (Z.eqb_spec (cellIndex n) (Z.of_nat c)) as [E|E]; [|reflexivity].
    exfalso. apply Hne. rewrite E, Nat2Z.id. reflexivity.
Qed.

Lemma countCells_spec (ns : list nat) (cellCount0 cellCount : list nat) :
  countCells cellIndex ns cellCount0 = Some cellCount ->
  length cellCount = length cellCount0 /\
  Forall (fun n => inRange (cellIndex n) (length cellCount0) = true) ns /\
  (forall c, (c < length cellCount0)%nat ->
     cellCount !!! c = (cellCount0 !!! c + length (atomsIn c ns))%nat) /\
  sum_list cellCount = (sum_list cellCount0 + length ns)%nat.
Proof.
  revert cellCount0. induction ns as [|n ns IH]; intros cc0 Hrun.
  - injection Hrun as <-. split; [reflexivity|]. split; [constructor|].
    split; [intros c _; cbn; lia|cbn; lia].
  - cbn [countCells] in Hrun.
    destruct (inRange (cellIndex n) (length cc0)) eqn:Hr; [|discriminate].
    pose proof Hr as Hr'. apply inRange_spec in Hr'.
    apply IH in Hrun as (Hlen & Hall & Hcnt & Hsum).
    rewrite length_insert in Hlen, Hall, Hcnt.
    split; [exact Hlen|]. split; [constructor; assumption|].
    split.
    + intros c Hc. rewrite (Hcnt c Hc).
      change (n :: ns) with ([n] ++ ns). rewrite atomsIn_app, length_app.
      rewrite (atomsIn_one c n _ Hr).
      destruct (decide (c = Z.to_nat (cellIndex n))) as [->|Hne].
      * rewrite list_lookup_total_insert_eq by lia. cbn. lia.
      * rewrite list_lookup_total_insert_ne by congruence. cbn. lia.
    + rewrite Hsum, sum_list_bump by lia. cbn [length]. lia.
Qed.


Lemma prefixSum_fold (cellCount : list nat) (m : nat) :
  (m < length cellCount)%nat ->
  let sums :=
    fold_left
      (fun cellCountSum i =>
         <[i := (cellCountSum !!! (i - 1)%nat + cellCount !!! (i - 1)%nat)%nat]> cellCountSum)
      (seq 1 m) (replicate (length cellCount) 0%nat) in
  length sums = length cellCount /\
  forall i, (i <= m)%nat -> sums !!! i = sum_list (take i cellCount).
Proof.
  induction m as [|m IH]; intros Hm.
  - cbn [seq fold_left]. split; [apply length_replicate|].
    intros i Hi. assert (i = 0%nat) as -> by lia.
    rewrite lookup_total_replicate_2 by lia. reflexivity.
  - rewrite seq_S, fold_left_app. cbn [fold_left Nat.add].
    destruct IH as [Hlen Hsum]; [lia|].
    set (s := fold_left _ (seq 1 m) _) in *.
    cbn zeta. split; [rewrite length_insert; exact Hlen|].
    intros i Hi. replace (S m - 1)%nat with m by lia.
    destruct (decide (i = S m)) as [->|Hne].
    + rewrite list_lookup_total_insert_eq by lia.
      rewrite Hsum by lia. rewrite sum_list_take_S by lia. reflexivity.
    + rewrite list_lookup_total_insert_ne by congruence. apply Hsum. lia.
Qed.

Lemma prefixSum_spec (cellCount : list nat) :
  length (prefixSum cellCount) = length cellCount /\
  forall i, (i < length cellCount)%nat ->
    prefixSum cellCount !!! i = sum_list (take i cellCount).
Proof.
  unfold prefixSum. destruct (length cellCount) as [|m] eqn:E.
  - cbn. split; [reflexivity|]. intros i Hi. lia.
  - replace (S m - 1)%nat with m by lia.
    destruct (prefixSum_fold cellCount m) as [Hlen Hsum]; [lia|].
    cbn zeta in Hlen, Hsum. rewrite E in Hlen, Hsum.
    split; [exact Hlen|]. intros i Hi. apply Hsum. lia.
Qed.

(** What the second pass keeps true: the atoms of [done] are those
    already placed, each cell's in its own segment and in order. *)
Definition filled (cellCountSum done cellCount cellContents : list nat) (L : nat) : Prop :=
  length cellCount = L /\
  forall c, (c < L)%nat ->
    cellCount !!! c = length (atomsIn c done) /\
    forall m, (m < length (atomsIn c done))%nat ->
      cellContents !!! (cellCountSum !!! c + m)%nat = atomsIn c done !!! m.

(** The segments that [cellCountSum] gives the cells are long enough,
    disjoint and inside [cellContents]. *)
Definition roomy (cellCountSum all : list nat) (len L : nat) : Prop :=
  (forall c, (c < L)%nat -> (cellCountSum !!! c + length (atomsIn c all) <= len)%nat) /\
  (forall c c', (c < c')%nat -> (c' < L)%nat ->
     (cellCountSum !!! c + length (atomsIn c all) <= cellCountSum !!! c')%nat).

Lemma scatterCells_spec (cellCountSum ns : list nat) :
  forall (done cellCount cellContents cellCount' cellContents' : list nat) (L : nat),
  roomy cellCountSum (done ++ ns) (length cellContents) L ->
  filled cellCountSum done cellCount cellContents L ->
  scatterCells cellIndex cellCountSum ns cellCount cellContents
    = Some (cellCount', cellContents') ->
  filled cellCountSum (done ++ ns) cellCount' cellContents' L /\
  length cellContents' = length cellContents.
Proof.
  induction ns as [|n ns IH]; intros done cnt cont cnt' cont' L Hroom Hfill Hrun.
  - injection Hrun as <- <-. rewrite app_nil_r. split; [exact Hfill|reflexivity].
  - cbn [scatterCells] in Hrun.
    destruct (inRange (cellIndex n) (length cnt)) eqn:Hr; [|discriminate].
    pose proof Hr as Hk. apply inRange_spec in Hk.
    destruct Hfill as [Hlen Hfill].
    set (k := Z.to_nat (cellIndex n)) in *.
    assert (HkL : (k < L)%nat) by (unfold k; lia).
    destruct Hroom as [Hin Hsep].
    assert (Hall : forall c,
              length (atomsIn c (done ++ n :: ns)) =
              (length (atomsIn c (done ++ [n])) + length (atomsIn c ns))%nat).
    { intros c. change (n :: ns) with ([n] ++ ns).
      rewrite app_assoc, (atomsIn_app c (done ++ [n])), length_app. reflexivity. }
    assert (Hone : forall c,
              atomsIn c (done ++ [n]) =
              atomsIn c done ++ (if decide (c = k) then [n] else [])).
    { intros c. rewrite atomsIn_app, (atomsIn_one c n _ Hr). reflexivity. }
    destruct (Hfill k HkL) as [Hcntk _].
    assert (Hslot : (cellCountSum !!! k + cnt !!! k < length cont)%nat).
    { pose proof (Hin k HkL) as H1. rewrite Hall, Hone, length_app in H1.
      destruct (decide (k = k)); [|congruence]. cbn [length] in H1. lia. }
    replace (done ++ n :: ns) with ((done ++ [n]) ++ ns) in *
      by (rewrite <- app_assoc; reflexivity).
    apply (IH (done ++ [n]) _ _ _ _ L) in Hrun.
    + destruct Hrun as [Hf Hl]. split; [exact Hf|].
      rewrite Hl, length_insert. reflexivity.
    + rewrite length_insert. split; assumption.
    + split; [rewrite length_insert; exact Hlen|].
      intros c Hc. destruct (Hfill c Hc) as [Hcnt Hcont].
      rewrite Hone. destruct (decide (c = k)) as [->|Hne].
      * rewrite list_lookup_total_insert_eq by lia.
        rewrite length_app. cbn [length].
        split; [lia|]. intros m Hm.
        destruct (decide (m = length (atomsIn k done))) as [->|Hm'].
        -- rewrite <- Hcntk. rewrite list_lookup_total_insert_eq by exact Hslot.
           rewrite Hcntk. rewrite list_lookup_total_middle; reflexivity.
        -- rewrite list_lookup_total_insert_ne by lia.
           rewrite lookup_total_app_l by lia. apply Hcont. lia.
      * rewrite list_lookup_total_insert_ne by congruence.
        rewrite app_nil_r. split; [exact Hcnt|].
        intros m Hm. rewrite list_lookup_total_insert_ne; [apply Hcont; exact Hm|].
        assert (Hle : (length (atomsIn c done) <= length (atomsIn c ((done ++ [n]) ++ ns)))%nat).
        { rewrite <- app_assoc, atomsIn_app, length_app. lia. }
        assert (Hlt : (cnt !!! k < length (atomsIn k ((done ++ [n]) ++ ns)))%nat).
        { rewrite (atomsIn_app k (done ++ [n])), Hone, !length_app.
          destruct (decide (k = k)); [|congruence]. cbn [length]. lia. }
        destruct (decide (c < k)%nat) as [Hck|Hck].
        -- pose proof (Hsep c k Hck HkL). lia.
        -- assert (Hkc : (k < c)%nat) by lia.
           pose proof (Hsep k c Hkc Hc). lia.
Qed.


(** The two passes together, from empty counters. *)
Lemma passes_spec (ns : list nat) (L : nat) (cellCount cellCount' cellContents' : list nat) :
  countCells cellIndex ns (replicate L 0%nat) = Some cellCount ->
  scatterCells cellIndex (prefixSum cellCount) ns
    (replicate (length cellCount) 0%nat) (replicate (length ns) 0%nat)
    = Some (cellCount', cellContents') ->
  length cellCount' = L /\ length cellContents' = length ns /\
  Forall (fun n => inRange (cellIndex n) L = true) ns /\
  forall c, (c < L)%nat ->
    (prefixSum cellCount !!! c + cellCount' !!! c <= length ns)%nat /\
    cellAtoms cellCount' (prefixSum cellCount) cellContents' c = atomsIn c ns.
Proof.
  intros Hcount Hscatter.
  apply countCells_spec in Hcount as (Hlen & Hall & Hcnt & Hsum).
  rewrite length_replicate in Hlen, Hall, Hcnt.
  rewrite sum_list_replicate in Hsum.
  destruct (prefixSum_spec cellCount) as [Plen Psum]. rewrite Hlen in Psum.
  assert (Hc0 : forall c, (c < L)%nat -> cellCount !!! c = length (atomsIn c ns)).
  { intros c Hc. rewrite (Hcnt c Hc), lookup_total_replicate_2 by lia. reflexivity. }
  assert (Hroom : roomy (prefixSum cellCount) ([] ++ ns)
                    (length (replicate (length ns) 0%nat)) L).
  { cbn [app]. rewrite length_replicate. split.
    - intros c Hc. rewrite (Psum c Hc), <- (Hc0 c Hc).
      rewrite <- sum_list_take_S by lia.
      pose proof (sum_list_take_all cellCount (S c)). lia.
    - intros c c' Hcc Hc'. rewrite (Psum c) by lia. rewrite (Psum c' Hc').
      rewrite <- (Hc0 c) by lia. rewrite <- sum_list_take_S by lia.
      apply sum_list_take_le. lia. }
  assert (Hfill : filled (prefixSum cellCount) [] (replicate (length cellCount) 0%nat)
                    (replicate (length ns) 0%nat) L).
  { split; [rewrite length_replicate; exact Hlen|].
    intros c Hc. split; [rewrite lookup_total_replicate_2 by lia; reflexivity|].
    intros m Hm. cbn in Hm. lia. }
  destruct (scatterCells_spec _ _ _ _ _ _ _ L Hroom Hfill Hscatter) as [[Hl Hf] Hcl].
  cbn [app] in Hf. rewrite length_replicate in Hcl.
  split; [exact Hl|]. split; [exact Hcl|]. split; [exact Hall|].
  intros c Hc. destruct (Hf c Hc) as [Hcnt' Hcont].
  destruct Hroom as [Hin _]. cbn [app] in Hin. rewrite length_replicate in Hin.
  split; [rewrite Hcnt'; apply Hin; exact Hc|].
  unfold cellAtoms. rewrite Hcnt'. apply map_seq_lookup_total. exact Hcont.
Qed.

Lemma elem_of_atomsIn (c n : nat) (ns : list nat) :
  n ∈ atomsIn c ns <-> n ∈ ns /\ cellIndex n = Z.of_nat c.
Proof.
  unfold atomsIn. rewrite !list_elem_of_In, filter_In, Z.eqb_eq. reflexivity.
Qed.

(** Segments that hold the atoms of their cells hold every atom, and
    [cellContents], which is as long as the list of atoms, holds each
    once. *)
Lemma segments_cover (ns : list nat) (L : nat) (cellCount cellCountSum cellContents : list nat) :
  NoDup ns -> length cellContents = length ns ->
  Forall (fun n => inRange (cellIndex n) L = true) ns ->
  (forall c, (c < L)%nat ->
     (cellCountSum !!! c + cellCount !!! c <= length ns)%nat /\
     cellAtoms cellCount cellCountSum cellContents c = atomsIn c ns) ->
  cellContents ≡ₚ ns.
Proof.
  intros Hnd Hlen Hall Hseg. symmetry.
  apply submseteq_length_Permutation; [|lia].
  apply NoDup_submseteq; [exact Hnd|].
  intros n Hn.
  pose proof (proj1 (Forall_forall _ _) Hall n Hn) as Hr. cbn beta in Hr.
  apply inRange_spec in Hr.
  destruct (Hseg (Z.to_nat (cellIndex n))) as [Hfit Heq]; [lia|].
  assert (Hin : n ∈ atomsIn (Z.to_nat (cellIndex n)) ns).
  { apply elem_of_atomsIn. split; [exact Hn|]. rewrite Z2Nat.id by lia. reflexivity. }
  rewrite <- Heq in Hin. unfold cellAtoms in Hin.
  apply list_elem_of_In, in_map_iff in Hin as (m & Em & Hm).
  apply in_seq in Hm. rewrite <- Em.
  apply list_elem_of_lookup_total_2. lia.
Qed.

End Binning.

(** ** The grid of cells *)

(** The flattened index of the cell [(c0, c1, c2)]. *)
Definition flatCell (numCells : int4) (c0 c1 c2 : Z) : Z :=
  (c0 + i0 numCells * (c1 + i1 numCells * c2))%Z.

(** A cell of the grid: three coordinates in range and, last, their
    flattened index. *)
Definition inGrid (numCells cell : int4) : Prop :=
  (0 <= i0 cell < i0 numCells)%Z /\ (0 <= i1 cell < i1 numCells)%Z /\
  (0 <= i2 cell < i2 numCells)%Z /\
  i3 cell = flatCell numCells (i0 cell) (i1 cell) (i2 cell).

(** [numCells[3]] is the number of cells. *)
Definition wholeGrid (numCells : int4) : Prop :=
  i3 numCells = (i0 numCells * i1 numCells * i2 numCells)%Z.

Lemma mod_wrap (n v : Z) :
  (0 < n)%Z -> (- n <= v < 2 * n)%Z ->
  (v mod n =
   v + (if (v <? 0)%Z then n else 0) - (if (v >=? n)%Z then n else 0))%Z.
Proof.
  intros Hn Hv. rewrite Z.geb_leb.
  destruct (Z.ltb_spec v 0), (Z.leb_spec n v); try lia; symmetry.
  - apply (Z.mod_unique_pos _ _ (-1)%Z); lia.
  - apply (Z.mod_unique_pos _ _ 1%Z); lia.
  - apply (Z.mod_unique_pos _ _ 0%Z); lia.
Qed.

Lemma neighborCellOf_flat (numCells cell : int4) (k j i : Z) :
  inGrid numCells cell -> wholeGrid numCells ->
  (-1 <= i <= 1)%Z -> (-1 <= j <= 1)%Z -> (-1 <= k <= 1)%Z ->
  neighborCellOf numCells cell k j i =
  flatCell numCells ((i0 cell + i) mod i0 numCells) ((i1 cell + j) mod i1 numCells)
    ((i2 cell + k) mod i2 numCells).
Proof.
  intros (H0 & H1 & H2 & Hflat) Hwhole Hi Hj Hk.
  rewrite !mod_wrap by lia.
  unfold neighborCellOf, flatCell in *. cbv zeta. rewrite Hflat, Hwhole.
  destruct (i0 cell + i <? 0)%Z, (i0 cell + i >=? i0 numCells)%Z,
           (i1 cell + j <? 0)%Z, (i1 cell + j >=? i1 numCells)%Z,
           (i2 cell + k <? 0)%Z, (i2 cell + k >=? i2 numCells)%Z; ring.
Qed.

Lemma flatCell_range (numCells : int4) (c0 c1 c2 : Z) :
  (0 <= c0 < i0 numCells)%Z -> (0 <= c1 < i1 numCells)%Z -> (0 <= c2 < i2 numCells)%Z ->
  (0 <= flatCell numCells c0 c1 c2 < i0 numCells * i1 numCells * i2 numCells)%Z.
Proof.
  intros H0 H1 H2. unfold flatCell.
  assert (Ht : (0 <= c1 + i1 numCells * c2 <= i1 numCells * i2 numCells - 1)%Z) by nia.
  set (t := (c1 + i1 numCells * c2)%Z) in *.
  assert (Hp : (i0 numCells * i1 numCells * i2 numCells =
                i0 numCells * (i1 numCells * i2 numCells))%Z) by ring.
  rewrite Hp. nia.
Qed.

(** The cell that the loops over [k], [j] and [i] name is the periodic
    neighbour: its coordinates are those of [cell] plus the offsets,
    taken modulo the number of cells along each axis, and its index is
    inside the cell arrays. *)
Theorem neighborCellOf_periodic (numCells cell : int4) (k j i : Z) :
  inGrid numCells cell -> wholeGrid numCells ->
  (-1 <= i <= 1)%Z -> (-1 <= j <= 1)%Z -> (-1 <= k <= 1)%Z ->
  neighborCellOf numCells cell k j i =
    flatCell numCells ((i0 cell + i) mod i0 numCells) ((i1 cell + j) mod i1 numCells)
      ((i2 cell + k) mod i2 numCells) /\
  (0 <= neighborCellOf numCells cell k j i < i3 numCells)%Z.
Proof.
  intros Hc Hwhole Hi Hj Hk.
  rewrite (neighborCellOf_flat numCells cell k j i Hc Hwhole Hi Hj Hk).
  split; [reflexivity|].
  destruct Hc as (H0 & H1 & H2 & _). rewrite Hwhole.
  apply flatCell_range; apply Z.mod_pos_bound; lia.
Qed.

Lemma neighborCellOf_periodic_witness :
  neighborCellOf (mkInt4 3 3 3 27) (mkInt4 0 1 2 21) 1 0 (-1) = 5%Z.
Proof.
  assert (Hc : inGrid (mkInt4 3 3 3 27) (mkInt4 0 1 2 21))
    by (unfold inGrid, flatCell; cbn; lia).
  destruct (neighborCellOf_periodic (mkInt4 3 3 3 27) (mkInt4 0 1 2 21) 1 0 (-1) Hc eq_refl)
    as [H _]; [lia..|].
  exact H.
Defined.

(** With one or two cells along an axis the offsets -1 and +1 along
    that axis name the same cell: the scan over the 27 offsets then
    comes to that cell more than once. *)
Theorem neighborCellOf_collides (numCells cell : int4) (k j i : Z) :
  inGrid numCells cell -> wholeGrid numCells ->
  (-1 <= i <= 1)%Z -> (-1 <= j <= 1)%Z -> (-1 <= k <= 1)%Z ->
  ((i0 numCells <= 2)%Z ->
   neighborCellOf numCells cell k j (-1) = neighborCellOf numCells cell k j 1) /\
  ((i1 numCells <= 2)%Z ->
   neighborCellOf numCells cell k (-1) i = neighborCellOf numCells cell k 1 i) /\
  ((i2 numCells <= 2)%Z ->
   neighborCellOf numCells cell (-1) j i = neighborCellOf numCells cell 1 j i).
Proof.
  intros Hc Hwhole Hi Hj Hk.
  assert (Hmod : forall n c, (0 <= c < n)%Z -> (n <= 2)%Z ->
            ((c + -1) mod n = (c + 1) mod n)%Z).
  { intros n c Hcn Hn.
    assert (Hcase : (n = 1 \/ n = 2)%Z) by lia.
    destruct Hcase as [-> | ->].
    - rewrite !Z.mod_1_r. reflexivity.
    - assert (Hc2 : (c = 0 \/ c = 1)%Z) by lia.
      destruct Hc2 as [-> | ->]; reflexivity. }
  pose proof Hc as (H0 & H1 & H2 & _).
  split; [|split]; intros Hn;
    rewrite !(neighborCellOf_flat numCells cell) by (assumption || lia);
    rewrite Hmod by (assumption || lia); reflexivity.
Qed.

Lemma neighborCellOf_collides_witness :
  neighborCellOf (mkInt4 2 2 2 8) (mkInt4 0 1 0 2) 0 0 (-1) =
  neighborCellOf (mkInt4 2 2 2 8) (mkInt4 0 1 0 2) 0 0 1.
Proof.
  assert (Hc : inGrid (mkInt4 2 2 2 8) (mkInt4 0 1 0 2))
    by (unfold inGrid, flatCell; cbn; lia).
  destruct (neighborCellOf_collides (mkInt4 2 2 2 8) (mkInt4 0 1 0 2) 0 0 0 Hc eq_refl)
    as [H _]; [lia..|].
  apply H. cbn. lia.
Defined.

(** *** [findCell] *)


Section CellFacts.

Variable sqrt : Qc -> Qc.








Lemma cellArrays_spec (atom : Atom) (cellCount cellCountSum cellContents : list nat) :
  cellArrays sqrt atom = Some (cellCount, cellCountSum, cellContents) ->
  length cellCount = Z.to_nat (i3 (gridOf sqrt atom)) /\
  length cellContents = number atom /\
  Forall (fun n => inRange (i3 (cellOf sqrt atom n)) (length cellCount) = true)
    (seq 0 (number atom)) /\
  forall c, (c < length cellCount)%nat ->
    (cellCountSum !!! c + cellCount !!! c <= number atom)%nat /\
    cellAtoms cellCount cellCountSum cellContents c =
      atomsIn (fun n => i3 (cellOf sqrt atom n)) c (seq 0 (number atom)).
Proof.
  unfold cellArrays.
  set (cellIndex := fun n => i3 (cellOf sqrt atom n)).
  set (L := Z.to_nat (i3 (gridOf sqrt atom))).
  destruct (countCells cellIndex (seq 0 (number atom)) (replicate L 0%nat))
    as [cc|] eqn:Ecount; [|discriminate].
  destruct (scatterCells cellIndex (prefixSum cc) (seq 0 (number atom))
              (replicate (length cc) 0%nat) (replicate (number atom) 0%nat))
    as [[cc' cont]|] eqn:Escatter; [|discriminate].
  intros [= <- <- <-].
  pose proof (passes_spec cellIndex (seq 0 (number atom)) L cc cc' cont Ecount) as Hp.
  rewrite length_seq in Hp.
  destruct (Hp Escatter) as (H1 & H2 & H3 & H4).
  rewrite H1.
  split; [reflexivity|]. split; [exact H2|]. split; [exact H3|exact H4].
Qed.

(** The counting sort of [findNeighborON1] is right: when the two
    passes over the atoms stay inside the cell arrays, the segment of
    [cellContents] that [cellCountSum] and [cellCount] give to a cell
    lists the atoms that [findCell] puts in that cell, each once and in
    increasing order, and [cellContents] as a whole is a rearrangement
    of the atoms [0 .. number - 1]. *)
Theorem cellArrays_bins (atom : Atom) (cellCount cellCountSum cellContents : list nat) :
  cellArrays sqrt atom = Some (cellCount, cellCountSum, cellContents) ->
  length cellCount = Z.to_nat (i3 (gridOf sqrt atom)) /\
  length cellContents = number atom /\
  (forall n, (n < number atom)%nat ->
     (0 <= i3 (cellOf sqrt atom n) < Z.of_nat (length cellCount))%Z) /\
  (forall c, (c < length cellCount)%nat ->
     cellAtoms cellCount cellCountSum cellContents c =
       List.filter (fun n => (i3 (cellOf sqrt atom n) =? Z.of_nat c)%Z)
         (seq 0 (number atom))) /\
  cellContents ≡ₚ seq 0 (number atom).
Proof.
  intros Hrun.
  destruct (cellArrays_spec atom _ _ _ Hrun) as (H1 & H2 & H3 & H4).
  split; [exact H1|]. split; [exact H2|].
  split.
  { intros n Hn. apply inRange_spec.
    apply (proj1 (Forall_forall _ _) H3 n). apply elem_of_seq. lia. }
  split; [intros c Hc; apply (H4 c Hc)|].
  apply (segments_cover (fun n => i3 (cellOf sqrt atom n)) _ (length cellCount)
           cellCount cellCountSum).
  - apply NoDup_seq.
  - rewrite length_seq. exact H2.
  - exact H3.
  - rewrite length_seq. exact H4.
Qed.


(** When the grid has no cell along some axis (a thickness that
    [getThickness] gives is below the cutoff) it has no cell at all:
    [cellCount] is empty, and the first [++cellCount[cell[3]]] of
    [findNeighborON1] is outside it. *)
Theorem findNeighborON1_no_cells (atom : Atom) :
  (i3 (gridOf sqrt atom) <= 0)%Z -> (0 < number atom)%nat ->
  findNeighborON1 sqrt atom = OutOfRange.
Proof.
  intros Hg Hn. unfold findNeighborON1, cellArrays.
  replace (Z.to_nat (i3 (gridOf sqrt atom))) with 0%nat by lia.
  destruct (number atom) as [|N]; [lia|].
  cbn [seq countCells replicate length].
  assert (Hout : forall c, inRange c 0 = false).
  { intros c. destruct (inRange c 0) eqn:E; [|reflexivity].
    apply inRange_spec in E. lia. }
  rewrite Hout. reflexivity.
Qed.

End CellFacts.

(** ** The pairs that the cell-linked builder accepts *)

Section AcceptedFacts.

Variable sqrt : Qc -> Qc.

(** The cell of [n2] is one of the 27 that the scan visits from the
    cell of [n1]. *)
Definition adjacent (atom : Atom) (n1 n2 : nat) : Prop :=
  i3 (cellOf sqrt atom n2) ∈ cellsAround (gridOf sqrt atom) (cellOf sqrt atom n1).

Lemma elem_of_acceptedON1 (atom : Atom) (n1 n2 : nat) :
  cellArrays sqrt atom <> None ->
  (n1, n2) ∈ acceptedON1 sqrt atom <->
  (n1 < n2 < number atom)%nat /\ within atom n1 n2 = true /\ adjacent atom n1 n2.
Proof.
  intros Hsome. unfold acceptedON1, adjacent.
  destruct (cellArrays sqrt atom) as [[[cc ccs] cont]|] eqn:Earr; [|congruence].
  destruct (cellArrays_spec sqrt atom _ _ _ Earr) as (Hlen & _ & Hidx & Hseg).
  rewrite elem_of_pairsOf, elem_of_itemsON1. cbn [fst snd].
  unfold accepts, within. rewrite elem_of_seq. split.
  - intros (Hn1 & nb & Hnb & Hr & Hin & Hacc).
    apply andb_true_iff in Hacc as [Hlt Hq]. apply Nat.ltb_lt in Hlt.
    pose proof Hr as Hr'. apply inRange_spec in Hr'.
    destruct (Hseg (Z.to_nat nb)) as [_ Heq]; [lia|].
    rewrite Heq in Hin. apply elem_of_atomsIn in Hin as [Hn2 Hc].
    apply elem_of_seq in Hn2. rewrite Z2Nat.id in Hc by lia.
    split; [lia|]. split; [exact Hq|]. rewrite Hc. exact Hnb.
  - intros (Hlt & Hq & Hadj). split; [lia|].
    exists (i3 (cellOf sqrt atom n2)).
    assert (Hr : inRange (i3 (cellOf sqrt atom n2)) (length cc) = true).
    { apply (proj1 (Forall_forall _ _) Hidx n2). apply elem_of_seq. lia. }
    split; [exact Hadj|]. split; [exact Hr|].
    pose proof Hr as Hr'. apply inRange_spec in Hr'.
    destruct (Hseg (Z.to_nat (i3 (cellOf sqrt atom n2)))) as [_ Heq]; [lia|].
    split.
    + rewrite Heq. apply elem_of_atomsIn. split; [apply elem_of_seq; lia|].
      rewrite Z2Nat.id by lia. reflexivity.
    + apply andb_true_iff. split; [apply Nat.ltb_lt; lia|exact Hq].
Qed.

End AcceptedFacts.

(** ** Both builders: what is recorded, and the capacity *)

Definition accepted (sqrt : Qc -> Qc) (USE_ON1 : bool) (atom : Atom) : list (nat * nat) :=
  if USE_ON1 then acceptedON1 sqrt atom else acceptedON2 atom.

(** The atoms [j <> i] of the system within the cutoff of [i]. *)
Definition trueNeighbors (atom : Atom) (i : nat) : list nat :=
  List.filter (fun j => negb (j =? i)%nat && within atom i j) (seq 0 (number atom)).

Lemma builder_insertAll (sqrt : Qc -> Qc) (USE_ON1 : bool) (atom : Atom) :
  builder sqrt USE_ON1 atom <> OutOfRange ->
  builder sqrt USE_ON1 atom = insertAll (accepted sqrt USE_ON1 atom) (fillNN atom).
Proof.
  destruct USE_ON1; cbn [builder accepted].
  - apply findNeighborON1_insertAll.
  - intros _. apply findNeighborON2_insertAll.
Qed.

Lemma accepted_valid (sqrt : Qc -> Qc) (USE_ON1 : bool) (atom : Atom) :
  sized atom -> Forall (validPair (fillNN atom)) (accepted sqrt USE_ON1 atom).
Proof.
  destruct USE_ON1; [apply acceptedON1_valid|apply acceptedON2_valid].
Qed.

Lemma accepted_sound (sqrt : Qc -> Qc) (USE_ON1 : bool) (atom : Atom) (p : nat * nat) :
  p ∈ accepted sqrt USE_ON1 atom ->
  (p.1 < p.2 < number atom)%nat /\ within atom p.1 p.2 = true.
Proof.
  destruct USE_ON1; cbn [accepted]; [apply acceptedON1_sound|].
  destruct p as [i j]. apply elem_of_acceptedON2.
Qed.

Lemma builder_ok (sqrt : Qc -> Qc) (USE_ON1 : bool) (atom atom' : Atom) :
  sized atom -> builder sqrt USE_ON1 atom = Ok atom' ->
  onlyLists atom atom' /\ withinCap atom' /\
  forall k, neighbors atom' k = partners k (accepted sqrt USE_ON1 atom).
Proof.
  intros Hs Hrun.
  rewrite builder_insertAll in Hrun by congruence.
  apply insertAll_ok in Hrun; [|apply accepted_valid; exact Hs|apply fillNN_withinCap].
  destruct Hrun as (Hfr & Hcap & _ & Hnb).
  split; [eapply onlyLists_trans; [apply onlyLists_set_NN|exact Hfr]|].
  split; [exact Hcap|].
  intros k. rewrite Hnb, fillNN_neighbors. reflexivity.
Qed.

Lemma length_partners_app (k : nat) (ps1 : list (nat * nat)) (p : nat * nat)
    (ps2 : list (nat * nat)) :
  p.1 <> p.2 -> k = p.1 \/ k = p.2 ->
  (length (partners k ps1) < length (partners k (ps1 ++ p :: ps2)))%nat.
Proof.
  intros Hne Hk. rewrite partners_app, length_app.
  change (partners k (p :: ps2)) with (partnerOf k p ++ partners k ps2).
  rewrite length_app, (length_partnerOf k p Hne).
  destruct (decide (k = p.1 \/ k = p.2)); [lia|tauto].
Qed.

Lemma builder_fatal (sqrt : Qc -> Qc) (USE_ON1 : bool) (atom atom' : Atom) (i c : nat) :
  sized atom -> builder sqrt USE_ON1 atom = Fatal atom' i c ->
  c = MN atom /\ (i < number atom)%nat /\
  (MN atom < length (partners i (accepted sqrt USE_ON1 atom)))%nat /\
  exists atom1 p,
    validPair atom1 p /\ withinCap atom1 /\ MN atom1 = MN atom /\
    recordPair p.1 p.2 atom1 = Fatal atom' i c /\
    atom' = storePair p.1 p.2 atom1 /\ (i = p.1 \/ i = p.2) /\
    NN atom1 !!! i = MN atom.
Proof.
  intros Hs Hrun.
  rewrite builder_insertAll in Hrun by congruence.
  pose proof (accepted_valid sqrt USE_ON1 atom Hs) as Hv.
  apply insertAll_fatal in Hrun; [|exact Hv|apply fillNN_withinCap].
  destruct Hrun as (Hc & ps1 & p & ps2 & atom1 & Hsplit & Hok & Hvp & Hcap1 & Hrec & Ha' & Hi & Hfull).
  cbn [fillNN set_NN MN] in Hc, Hfull.
  rewrite Hsplit in Hv.
  apply insertAll_ok in Hok;
    [|apply Forall_app in Hv as [Hv1 _]; exact Hv1|apply fillNN_withinCap].
  destruct Hok as (Hfr & _ & Hlen & Hnb).
  pose proof Hvp as (Hne & Hp1 & Hp2).
  rewrite Hlen, fillNN_length, Hs in Hp1, Hp2.
  split; [exact Hc|]. split; [destruct Hi; subst i; assumption|].
  split.
  { rewrite Hsplit. eapply Nat.le_lt_trans; [|apply length_partners_app; assumption].
    specialize (Hnb i). rewrite fillNN_neighbors, app_nil_l in Hnb.
    rewrite <- Hnb, length_neighbors, Hfull. lia. }
  exists atom1, p.
  apply onlyLists_fields in Hfr. destruct Hfr as (_ & _ & HMN & _).
  cbn [fillNN set_NN MN] in HMN.
  repeat split; try assumption.
  - destruct Hvp as (_ & H & _). exact H.
  - destruct Hvp as (_ & _ & H). exact H.
Qed.









(** C9.  When a build exits with the fatal error for atom [i], the exit
    comes from a turn that recorded a pair [p] containing [i] from a
    state [atom1] in which the list of [i] was full ([NN[i] = MN]).  The
    two stores of the turn are done before the counts are compared: the
    state at the exit is [storePair] of [atom1], different from [atom1],
    with [NN[i] = MN + 1] and with slot [i * MN + MN] of [NL] holding an
    atom of [p].  That slot is not in the stride region of [i], and it
    is slot [number * MN], the first one past the buffer, when [i] is
    the last atom. *)
Theorem fatal_exit_follows_store (sqrt : Qc -> Qc) (USE_ON1 : bool) (atom atom' : Atom)
    (i c : nat) :
  sized atom -> builder sqrt USE_ON1 atom = Fatal atom' i c ->
  exists atom1 p,
    (i = p.1 \/ i = p.2) /\
    NN atom1 !!! i = MN atom /\
    recordPair p.1 p.2 atom1 = checkCapacity p.1 p.2 (storePair p.1 p.2 atom1) /\
    checkCapacity p.1 p.2 (storePair p.1 p.2 atom1) = Fatal atom' i c /\
    atom' = storePair p.1 p.2 atom1 /\
    atom' <> atom1 /\
    NN atom' !!! i = S (MN atom) /\
    (exists v, NL atom' !! slot (MN atom) i (MN atom) = Some v /\ (v = p.1 \/ v = p.2)) /\
    ~ (slot (MN atom) i (MN atom) < slot (MN atom) (i + 1) 0)%N /\
    (S i = number atom ->
     slot (MN atom) i (MN atom) = (N.of_nat (number atom) * N.of_nat (MN atom))%N).
Proof.
  intros Hs Hrun.
  destruct (builder_fatal sqrt USE_ON1 atom atom' i c Hs Hrun)
    as (Hc & Hi & _ & atom1 & p & Hvp & Hcap1 & HMN & Hrec & Ha' & Hip & Hfull).
  exists atom1, p.
  assert (Hvp' : validPair atom1 (p.1, p.2)) by (destruct p; exact Hvp).
  assert (HNN : NN atom' !!! i = S (MN atom)).
  { rewrite Ha', (storePair_NN _ _ i _ Hvp'), Hfull.
    destruct (decide (i = p.1 \/ i = p.2)); [lia|tauto]. }
  split; [exact Hip|]. split; [exact Hfull|]. split; [reflexivity|].
  split; [exact Hrec|]. split; [exact Ha'|].
  split; [intros E; rewrite E, Hfull in HNN; lia|].
  split; [exact HNN|].
  split.
  { rewrite Ha', (storePair_NL _ _ _ Hvp'), HMN.
    destruct Hvp as (Hne & _ & _).
    destruct (decide (slot (MN atom) p.2 (NN atom1 !!! p.2) = slot (MN atom) i (MN atom)))
      as [E|E].
    - exists p.1. rewrite E, lookup_insert_eq. auto.
    - rewrite lookup_insert_ne by exact E.
      destruct Hip as [-> | ->].
      + exists p.2. rewrite <- Hfull, lookup_insert_eq. auto.
      + exfalso. apply E. rewrite Hfull. reflexivity. }
  unfold slot. split; [lia|]. intros <-. lia.
Qed.

(** ** Runs of the two builders *)

(** A square root that is exact on the squares of rationals; the face
    areas of a cubic box with a rational side are such squares. *)
Definition sqrtExact (q : Qc) : Qc :=
  Q2Qc (Z.sqrt (Qnum q) # Pos.sqrt (Qden q)).

(** The state of [main] when the step loop starts, for the command-line
    argument [numCells] (velocities do not matter to the builders and
    are left at 0), and the state that the first call of [findNeighbor]
    hands to the builder. *)
Definition start (numCells : nat) : Atom :=
  initializePosition numCells (allocateMemory numCells).

Definition firstBuild (numCells : nat) : Atom :=
  applyPbc (set_numUpdates 1 (start numCells)).

Definition returned (o : outcome) : bool :=
  match o with Ok _ => true | _ => false end.

Definition exitOf (o : outcome) : option (nat * nat) :=
  match o with Fatal _ i c => Some (i, c) | _ => None end.

Definition stateOf (o : outcome) (default : Atom) : Atom :=
  match o with Ok atom => atom | Fatal atom _ _ => atom | OutOfRange => default end.

(** Two atoms 6 apart along x in a cubic box of side 25, cutoff 10: the
    grid has two cells along each axis. *)
Definition twoCells : Atom :=
  cubicSystem (25#1) 1000 (10#1) [pointZ 9 1 1; pointZ 15 1 1].

(** C3 fails for the cell-linked builder.  On [twoCells] the offsets -1
    and +1 along x lead to the same cell, so the one neighbour of each
    atom is recorded twice; the all-pairs builder records it once.  On
    the first build of the run [neighbor 2 ...] (32 atoms, box side
    10.77, one cell along each axis) every atom has 31 true neighbours
    and the cell-linked builder returns with 837 entries in each list,
    27 for every neighbour. *)
Theorem findNeighborON1_records_duplicates :
  (gridOf sqrtExact twoCells = mkInt4 2 2 2 8 /\
   trueNeighbors twoCells 0 = [1%nat] /\
   trueNeighbors twoCells 1 = [0%nat] /\
   returned (findNeighborON1 sqrtExact twoCells) = true /\
   neighbors (stateOf (findNeighborON1 sqrtExact twoCells) twoCells) 0 = [1%nat; 1%nat] /\
   neighbors (stateOf (findNeighborON1 sqrtExact twoCells) twoCells) 1 = [0%nat; 0%nat] /\
   ~ NoDup (neighbors (stateOf (findNeighborON1 sqrtExact twoCells) twoCells) 0) /\
   returned (findNeighborON2 twoCells) = true /\
   neighbors (stateOf (findNeighborON2 twoCells) twoCells) 0 = [1%nat] /\
   neighbors (stateOf (findNeighborON2 twoCells) twoCells) 1 = [0%nat]) /\
  (number (firstBuild 2) = 32%nat /\
   gridOf sqrtExact (firstBuild 2) = mkInt4 1 1 1 1 /\
   length (trueNeighbors (firstBuild 2) 0) = 31%nat /\
   returned (findNeighborON1 sqrtExact (firstBuild 2)) = true /\
   NN (stateOf (findNeighborON1 sqrtExact (firstBuild 2)) (firstBuild 2)) !!! 0%nat
     = 837%nat /\
   NN (stateOf (findNeighborON2 (firstBuild 2)) (firstBuild 2)) !!! 0%nat = 31%nat).
Proof.
  assert (H0 : neighbors (stateOf (findNeighborON1 sqrtExact twoCells) twoCells) 0
               = [1%nat; 1%nat]) by (vm_compute; reflexivity).
  split.
  - do 6 (split; [vm_compute; reflexivity|]).
    split; [|split; [|split]]; try (vm_compute; reflexivity).
    rewrite H0. intros H. apply NoDup_cons in H as [H _]. apply H. left.
  - do 5 (split; [vm_compute; reflexivity|]).
    vm_compute. reflexivity.
Qed.

(** C2 fails.  On [twoCells] the two builders return lists that differ
    by more than their order.  On the first build of the run
    [neighbor 3 ...] (108 atoms, box side 16.155, one cell along each
    axis) the all-pairs builder returns, with 74 neighbours for atom 0,
    while the cell-linked builder meets every pair 27 times and exits
    with "number of neighbors for atom 0 exceeds 1000". *)
Theorem builders_disagree :
  (neighbors (stateOf (findNeighborON2 twoCells) twoCells) 0 = [1%nat] /\
   neighbors (stateOf (findNeighborON1 sqrtExact twoCells) twoCells) 0 = [1%nat; 1%nat]) /\
  (number (firstBuild 3) = 108%nat /\
   gridOf sqrtExact (firstBuild 3) = mkInt4 1 1 1 1 /\
   returned (findNeighborON2 (firstBuild 3)) = true /\
   NN (stateOf (findNeighborON2 (firstBuild 3)) (firstBuild 3)) !!! 0%nat = 74%nat /\
   exitOf (findNeighborON1 sqrtExact (firstBuild 3)) = Some (0%nat, 1000%nat)).
Proof.
  split; [split; vm_compute; reflexivity|].
  do 4 (split; [vm_compute; reflexivity|]).
  vm_compute. reflexivity.
Qed.

(** Three atoms within the cutoff of one another and a capacity of one. *)
Definition crowded : Atom :=
  cubicSystem (40#1) 1 (10#1) [pointZ 1 1 1; pointZ 2 1 1; pointZ 3 1 1].





Lemma fatal_exit_follows_store_witness :
  exists atom1 p,
    (0%nat = p.1 \/ 0%nat = p.2) /\
    NN atom1 !!! 0%nat = MN crowded /\
    stateOf (builder sqrtExact false crowded) crowded = storePair p.1 p.2 atom1 /\
    NN (stateOf (builder sqrtExact false crowded) crowded) !!! 0%nat = S (MN crowded).
Proof.
  assert (Hrun : builder sqrtExact false crowded
                 = Fatal (stateOf (builder sqrtExact false crowded) crowded) 0 1)
    by (vm_compute; reflexivity).
  destruct (fatal_exit_follows_store sqrtExact false crowded _ 0%nat 1%nat eq_refl Hrun)
    as (atom1 & p & H1 & H2 & _ & _ & H3 & _ & H4 & _).
  exists atom1, p. auto.
Defined.

(** ** The Lennard-Jones kernel on a symmetric list *)

(** Closes a goal [u <> v] between computed rationals. *)
Lemma Qc_differ_by_test (u v : Qc) : Qeq_bool u v = false -> u <> v.
Proof.
  intros H E. subst. rewrite (proj2 (Qeq_bool_iff v v)) in H; [discriminate|reflexivity].
Qed.

Ltac qc_differ := apply Qc_differ_by_test; vm_compute; reflexivity.

(** Two atoms 4 apart along x in a cubic box of side 40, with the list
    that [findNeighborON2] builds for them. *)
Definition dimerSites : Atom :=
  cubicSystem (40#1) 1000 (10#1) [pointZ 1 1 1; pointZ 5 1 1].

Definition dimer : Atom := stateOf (findNeighborON2 dimerSites) dimerSites.

(** The 32 atoms of the run [neighbor 2 ...] at its first step, with the
    list of the all-pairs builder. *)
Definition lattice2 : Atom := stateOf (findNeighborON2 (firstBuild 2)) (firstBuild 2).

(** The pair energy summed once over the unordered pairs within the
    force cutoff. *)
Definition pairEnergySum (atom : Atom) : Qc :=
  fold_left
    (fun acc p =>
       if qlt LJ.cutoffSquare (distanceSquare atom p.1 p.2) then acc
       else acc + LJ.pairEnergy (distanceSquare atom p.1 p.2))
    (acceptedON2 atom) 0.

(** C1 fails on the code.  The list of [dimer] is symmetric, so
    [findForce] visits the pair from both ends, and each visit adds the
    whole pair force to one atom, subtracts it from the other and adds
    the whole pair energy to [pe]: the force on each atom is twice the
    pair force and the summed [pe] is twice the pair energy.  On the
    lattice of the run [neighbor 2 ...] the summed [pe], which [main]
    writes to energy.txt, is twice the energy of the pairs. *)
Theorem findForce_counts_pairs_twice :
  (neighbors dimer 0 = [1%nat] /\ neighbors dimer 1 = [0%nat]) /\
  (coord (displacement dimer 0 1) 0 = (4#1) /\ distanceSquare dimer 0 1 = (16#1)) /\
  (fx (findForce dimer) !!! 0%nat = (2#1) * (LJ.f_ij (16#1) * (4#1)) /\
   fx (findForce dimer) !!! 1%nat = - ((2#1) * (LJ.f_ij (16#1) * (4#1))) /\
   LJ.f_ij (16#1) * (4#1) <> 0) /\
  (pe (findForce dimer) !!! 0%nat = LJ.pairEnergy (16#1) /\
   pe (findForce dimer) !!! 1%nat = LJ.pairEnergy (16#1) /\
   sumQ (pe (findForce dimer)) = (2#1) * LJ.pairEnergy (16#1) /\
   LJ.pairEnergy (16#1) <> 0) /\
  (number lattice2 = 32%nat /\
   sumQ (pe (findForce lattice2)) = (2#1) * pairEnergySum lattice2 /\
   pairEnergySum lattice2 <> 0).
Proof.
  split; [split; vm_compute; reflexivity|].
  split; [split; qc_compute|].
  split; [split; [qc_compute|split; [qc_compute|qc_differ]]|].
  split; [split; [qc_compute|split; [qc_compute|split; [qc_compute|qc_differ]]]|].
  split; [vm_compute; reflexivity|].
  split; [qc_compute|qc_differ].
Qed.

(** ** The bond-order kernel *)

(** The list of atom [n] in the arrays handed to the kernel. *)
Definition listOf (NN : list nat) (NL : buffer nat) (MN n : nat) : list nat :=
  map (fun k => NLat NL (slot MN n k)) (seq 0 (NN !!! n)).

(** A symmetric, duplicate-free list without self-pairs over [N] atoms. *)
Definition wellListed (N : nat) (NN : list nat) (NL : buffer nat) (MN : nat) : Prop :=
  forall n1, (n1 < N)%nat ->
    NoDup (listOf NN NL MN n1) /\
    forall n2, n2 ∈ listOf NN NL MN n1 ->
      (n2 < N)%nat /\ n2 <> n1 /\ n1 ∈ listOf NN NL MN n2.

(** The slots [(n1, i1)] in the order of the two loops, the atom [n2] a
    slot holds, and the slots that pass the test [n2 < n1]. *)
Definition bondSlots (N : nat) (NN : list nat) : list (nat * nat) :=
  flat_map (fun n1 => map (pair n1) (seq 0 (NN !!! n1))) (seq 0 N).

Definition endOf (NL : buffer nat) (MN : nat) (s : nat * nat) : nat :=
  NLat NL (slot MN s.1 s.2).

Definition visited (N : nat) (NN : list nat) (NL : buffer nat) (MN : nat)
    : list (nat * nat) :=
  List.filter (fun s => negb (endOf NL MN s <? s.1)%nat) (bondSlots N NN).

(** What a visit with net force component [f] from [n1] to [n2] adds to
    the force on atom [n]. *)
Definition share (n n1 n2 : nat) (f : Qc) : Qc :=
  if decide (n = n1) then f else if decide (n = n2) then - f else 0.

Lemma fold_left_nested {S A B : Type} (l : list A) (g : A -> list B)
    (f : A -> S -> B -> S) (st : S) :
  fold_left (fun st v => fold_left (f v) (g v) st) l st =
  fold_left (fun st p => f p.1 st p.2) (flat_map (fun v => map (pair v) (g v)) l) st.
Proof.
  revert st. induction l as [|v l IH]; intros st; [reflexivity|].
  cbn [fold_left flat_map]. rewrite fold_left_app, IH. f_equal.
  generalize (g v). intros k. revert st.
  induction k as [|w k IHk]; intros st; [reflexivity|]. cbn [map fold_left]. apply IHk.
Qed.

Lemma fold_left_guard {S A : Type} (p : A -> bool) (f : S -> A -> S) (l : list A) (st : S) :
  fold_left (fun st v => if p v then st else f st v) l st =
  fold_left f (List.filter (fun v => negb (p v)) l) st.
Proof.
  revert st. induction l as [|v l IH]; intros st; [reflexivity|].
  cbn [fold_left List.filter]. destruct (p v); cbn [negb fold_left]; apply IH.
Qed.

Lemma map_List_filter {A B : Type} (f : A -> B) (p : B -> bool) (l : list A) :
  map f (List.filter (fun v => p (f v)) l) = List.filter p (map f l).
Proof.
  induction l as [|v l IH]; [reflexivity|].
  cbn [List.filter map]. destruct (p (f v)); cbn [map]; rewrite IH; reflexivity.
Qed.

(** The directed pairs of a list, and those written smaller atom first. *)
Definition directed (N : nat) (NN : list nat) (NL : buffer nat) (MN : nat)
    : list (nat * nat) :=
  flat_map (fun n1 => map (pair n1) (listOf NN NL MN n1)) (seq 0 N).

Lemma map_bondSlots (N : nat) (NN : list nat) (NL : buffer nat) (MN : nat) :
  map (fun s => (s.1, endOf NL MN s)) (bondSlots N NN) = directed N NN NL MN.
Proof.
  unfold bondSlots, directed. generalize (seq 0 N). intros l.
  induction l as [|n1 l IH]; [reflexivity|].
  cbn [flat_map]. rewrite map_app, IH. f_equal.
  unfold listOf. rewrite !map_map. reflexivity.
Qed.

Lemma visited_pairs (N : nat) (NN : list nat) (NL : buffer nat) (MN : nat) :
  map (fun s => (s.1, endOf NL MN s)) (visited N NN NL MN) =
  List.filter (fun p => negb (p.2 <? p.1)%nat) (directed N NN NL MN).
Proof.
  unfold visited. rewrite <- map_bondSlots.
  apply (map_List_filter (fun s => (s.1, endOf NL MN s)) (fun p => negb (p.2 <? p.1)%nat)).
Qed.

Lemma elem_of_directed (N : nat) (NN : list nat) (NL : buffer nat) (MN n1 n2 : nat) :
  (n1, n2) ∈ directed N NN NL MN <-> (n1 < N)%nat /\ n2 ∈ listOf NN NL MN n1.
Proof.
  unfold directed. rewrite list_elem_of_In, in_flat_map. split.
  - intros (k & Hk & Hin). apply in_seq in Hk. apply in_map_iff in Hin.
    destruct Hin as (m & [= <- <-] & Hm). split; [lia|apply list_elem_of_In; exact Hm].
  - intros [Hn Hin]. exists n1. split; [apply in_seq; lia|].
    apply in_map_iff. exists n2. split; [reflexivity|apply list_elem_of_In; exact Hin].
Qed.

Lemma NoDup_directed (N : nat) (NN : list nat) (NL : buffer nat) (MN : nat) :
  wellListed N NN NL MN -> NoDup (directed N NN NL MN).
Proof.
  intros Hw. unfold directed. apply NoDup_flat_map.
  - apply NoDup_seq.
  - intros n1 Hn1. apply elem_of_seq in Hn1.
    apply NoDup_fmap_2; [intros a b [= ->]; reflexivity|].
    apply Hw. lia.
  - intros n1 n1' [a b] _ _ H1 H2.
    apply list_elem_of_In, in_map_iff in H1 as (? & [= <- <-] & _).
    apply list_elem_of_In, in_map_iff in H2 as (? & [= <- _] & _).
    reflexivity.
Qed.

(** Each unordered pair of neighbours is visited once, from its smaller
    atom. *)
Lemma visited_once (N : nat) (NN : list nat) (NL : buffer nat) (MN : nat) :
  wellListed N NN NL MN ->
  NoDup (map (fun s => (s.1, endOf NL MN s)) (visited N NN NL MN)) /\
  forall n1 n2,
    (n1, n2) ∈ map (fun s => (s.1, endOf NL MN s)) (visited N NN NL MN) <->
    (n1 < n2 < N)%nat /\ n2 ∈ listOf NN NL MN n1.
Proof.
  intros Hw. rewrite visited_pairs. split.
  - apply NoDup_List_filter, NoDup_directed, Hw.
  - intros n1 n2. rewrite list_elem_of_In, filter_In, <- list_elem_of_In, elem_of_directed.
    cbn [fst snd]. rewrite negb_true_iff, Nat.ltb_ge. split.
    + intros [[Hn1 Hin] Hle]. destruct (Hw n1 Hn1) as [_ H].
      destruct (H n2 Hin) as (Hn2 & Hne & _). split; [lia|exact Hin].
    + intros [Hlt Hin]. split; [split; [lia|exact Hin]|lia].
Qed.

(** *** What the stores of the visited pairs add up to *)

Lemma accumulate_fields (vxs vys vzs : list Qc) (n1 n2 : nat) (t : pairTerms)
    (st : kernelState) :
  kfx (accumulate vxs vys vzs n1 n2 t st) =
    <[n2 := <[n1 := kfx st !!! n1 + coord (netForce t) 0]> (kfx st) !!! n2
            - coord (netForce t) 0]>
      (<[n1 := kfx st !!! n1 + coord (netForce t) 0]> (kfx st)) /\
  kfy (accumulate vxs vys vzs n1 n2 t st) =
    <[n2 := <[n1 := kfy st !!! n1 + coord (netForce t) 1]> (kfy st) !!! n2
            - coord (netForce t) 1]>
      (<[n1 := kfy st !!! n1 + coord (netForce t) 1]> (kfy st)) /\
  kfz (accumulate vxs vys vzs n1 n2 t st) =
    <[n2 := <[n1 := kfz st !!! n1 + coord (netForce t) 2]> (kfz st) !!! n2
            - coord (netForce t) 2]>
      (<[n1 := kfz st !!! n1 + coord (netForce t) 2]> (kfz st)) /\
  (length (kprop st) = 7%nat ->
   kprop (accumulate vxs vys vzs n1 n2 t st) !!! 0%nat =
     kprop st !!! 0%nat + (p12 t + p21 t) * (1#2) /\
   length (kprop (accumulate vxs vys vzs n1 n2 t st)) = 7%nat).
Proof.
  unfold accumulate.
  destruct (r12 t) as [[x12 y12] z12].
  destruct (netForce t) as [[fx12 fy12] fz12].
  destruct (f12 t) as [[a0 a1] a2], (f21 t) as [[b0 b1] b2].
  cbn [kfx kfy kfz kprop coord fst snd].
  do 3 (split; [reflexivity|]).
  intros Hlen. split.
  - rewrite !list_lookup_total_insert_ne by lia.
    rewrite list_lookup_total_insert_eq by lia. reflexivity.
  - rewrite !length_insert. exact Hlen.
Qed.

Lemma insert_pair_lookup (l : list Qc) (n n1 n2 : nat) (f : Qc) :
  n1 <> n2 -> (n1 < length l)%nat -> (n2 < length l)%nat ->
  <[n2 := <[n1 := l !!! n1 + f]> l !!! n2 - f]> (<[n1 := l !!! n1 + f]> l) !!! n =
  l !!! n + share n n1 n2 f.
Proof.
  intros Hne H1 H2. unfold share.
  destruct (decide (n = n1)) as [->|Hn1].
  - rewrite list_lookup_total_insert_ne by congruence.
    rewrite list_lookup_total_insert_eq by exact H1. reflexivity.
  - destruct (decide (n = n2)) as [->|Hn2].
    + rewrite list_lookup_total_insert_eq by (rewrite length_insert; exact H2).
      rewrite list_lookup_total_insert_ne by exact Hne. reflexivity.
    + rewrite !list_lookup_total_insert_ne by congruence. ring.
Qed.

Section Accumulation.

Variables (vxs vys vzs : list Qc) (NL : buffer nat) (MN : nat).
Variable terms : nat * nat -> pairTerms.

(** One visit: the stores of lines 711-734 for the slot [s]. *)
Definition visit (st : kernelState) (s : nat * nat) : kernelState :=
  accumulate vxs vys vzs s.1 (endOf NL MN s) (terms s) st.

Lemma visits_sum (N : nat) (vs : list (nat * nat)) (st : kernelState) (n : nat) :
  Forall (fun s => (s.1 < N)%nat /\ (endOf NL MN s < N)%nat /\ s.1 <> endOf NL MN s) vs ->
  length (kfx st) = N -> length (kfy st) = N -> length (kfz st) = N ->
  length (kprop st) = 7%nat ->
  kfx (fold_left visit vs st) !!! n =
    fold_left (fun acc s => acc + share n s.1 (endOf NL MN s) (coord (netForce (terms s)) 0))
      vs (kfx st !!! n) /\
  kfy (fold_left visit vs st) !!! n =
    fold_left (fun acc s => acc + share n s.1 (endOf NL MN s) (coord (netForce (terms s)) 1))
      vs (kfy st !!! n) /\
  kfz (fold_left visit vs st) !!! n =
    fold_left (fun acc s => acc + share n s.1 (endOf NL MN s) (coord (netForce (terms s)) 2))
      vs (kfz st !!! n) /\
  kprop (fold_left visit vs st) !!! 0%nat =
    fold_left (fun acc s => acc + (p12 (terms s) + p21 (terms s)) * (1#2))
      vs (kprop st !!! 0%nat).
Proof.
  revert st. induction vs as [|s vs IH]; intros st Hvs Hx Hy Hz Hp.
  - cbn. auto.
  - apply Forall_cons in Hvs as [(H1 & H2 & Hne) Hvs'].
    cbn [fold_left].
    destruct (accumulate_fields vxs vys vzs s.1 (endOf NL MN s) (terms s) st)
      as (Ex & Ey & Ez & Ep).
    destruct (Ep Hp) as [Ep0 Eplen].
    fold (visit st s) in Ex, Ey, Ez, Ep0, Eplen.
    destruct (IH (visit st s) Hvs') as (Ix & Iy & Iz & Ip).
    + rewrite Ex, !length_insert. exact Hx.
    + rewrite Ey, !length_insert. exact Hy.
    + rewrite Ez, !length_insert. exact Hz.
    + exact Eplen.
    + rewrite Ix, Iy, Iz, Ip, Ep0, Ex, Ey, Ez.
      rewrite !insert_pair_lookup by (assumption || lia).
      auto.
Qed.

End Accumulation.

Lemma zeroKernel_spec (N : nat) (st : kernelState) :
  length (kfx st) = N -> length (kfy st) = N -> length (kfz st) = N ->
  length (kprop st) = 7%nat ->
  length (kfx (zeroKernel N st)) = N /\ length (kfy (zeroKernel N st)) = N /\
  length (kfz (zeroKernel N st)) = N /\ length (kprop (zeroKernel N st)) = 7%nat /\
  kprop (zeroKernel N st) !!! 0%nat = 0 /\
  forall n, (n < N)%nat ->
    kfx (zeroKernel N st) !!! n = 0 /\ kfy (zeroKernel N st) !!! n = 0 /\
    kfz (zeroKernel N st) !!! n = 0.
Proof.
  intros Hx Hy Hz Hp. unfold zeroKernel.
  set (prop0 := fold_left (fun p n => <[n := 0]> p) (seq 0 7) (kprop st)).
  assert (Hprop : length prop0 = 7%nat /\ prop0 !!! 0%nat = 0).
  { unfold prop0. cbn [seq fold_left]. rewrite !length_insert. split; [exact Hp|].
    rewrite !list_lookup_total_insert_ne by lia.
    apply list_lookup_total_insert_eq. lia. }
  set (st0 := mkKernel (kfx st) (kfy st) (kfz st) prop0).
  assert (Hgen : forall k, (k <= N)%nat ->
            let st' := fold_left
                         (fun st n => mkKernel (<[n := 0]> (kfx st)) (<[n := 0]> (kfy st))
                                               (<[n := 0]> (kfz st)) (kprop st))
                         (seq 0 k) st0 in
            length (kfx st') = N /\ length (kfy st') = N /\ length (kfz st') = N /\
            kprop st' = prop0 /\
            forall n, (n < k)%nat ->
              kfx st' !!! n = 0 /\ kfy st' !!! n = 0 /\ kfz st' !!! n = 0).
  { induction k as [|k IH]; intros Hk.
    - cbn. repeat split; try assumption. all: lia.
    - rewrite seq_S, fold_left_app. cbn [fold_left Nat.add].
      destruct IH as (Lx & Ly & Lz & Pp & Hz0); [lia|].
      cbn zeta. cbn [kfx kfy kfz kprop]. rewrite !length_insert.
      do 3 (split; [assumption|]). split; [exact Pp|].
      intros n Hn. destruct (decide (n = k)) as [->|Hne].
      + rewrite !list_lookup_total_insert_eq by lia. auto.
      + rewrite !list_lookup_total_insert_ne by congruence. apply Hz0. lia. }
  destruct (Hgen N (le_n N)) as (Lx & Ly & Lz & Pp & Hz0).
  cbn zeta in *. rewrite Pp.
  destruct Hprop as [Hl H0]. auto 10.
Qed.

Section BondOrderFacts.

Variables sqrt exp cos sin : Qc -> Qc.
Variable pow : Qc -> Qc -> Qc.

(** [find_force_tersoff] zeroes its outputs and then makes one visit for
    each slot that passes the test on [n2 < n1], in the order of the
    loops. *)
Lemma find_force_tersoff_visits (atom : Atom) (N : nat) (NN : list nat) (NL : buffer nat)
    (MN : nat) (b bp : buffer Qc) (xs ys zs vxs vys vzs : list Qc) (st : kernelState) :
  find_force_tersoff sqrt exp cos sin atom N NN NL MN b bp xs ys zs vxs vys vzs st =
  fold_left
    (visit vxs vys vzs NL MN
       (fun s => pairTermsOf sqrt exp cos sin atom NN NL MN b bp xs ys zs s.1 s.2))
    (visited N NN NL MN) (zeroKernel N st).
Proof.
  unfold find_force_tersoff, find_force_tersoff_outer, visited, bondSlots.
  rewrite (fold_left_nested (seq 0 N) (fun n1 => seq 0 (NN !!! n1))).
  apply (fold_left_guard (fun s => (endOf NL MN s <? s.1)%nat)).
Qed.

Lemma visited_in_range (N : nat) (NN : list nat) (NL : buffer nat) (MN : nat) :
  wellListed N NN NL MN ->
  Forall (fun s => (s.1 < N)%nat /\ (endOf NL MN s < N)%nat /\ s.1 <> endOf NL MN s)
    (visited N NN NL MN).
Proof.
  intros Hw. apply Forall_forall. intros [n1 i1] Hs.
  unfold visited in Hs. apply list_elem_of_In, filter_In in Hs as [Hs _].
  unfold bondSlots in Hs. apply in_flat_map in Hs as (k & Hk & Hin).
  apply in_seq in Hk. apply in_map_iff in Hin as (m & [= <- <-] & Hm).
  cbn [fst snd]. destruct (Hw k ltac:(lia)) as [_ H].
  assert (Hin : endOf NL MN (k, m) ∈ listOf NN NL MN k).
  { unfold listOf, endOf. cbn [fst snd]. apply list_elem_of_In, in_map_iff.
    exists m. split; [reflexivity|exact Hm]. }
  destruct (H _ Hin) as (H1 & H2 & _). split; [lia|]. split; [exact H1|congruence].
Qed.

(** The net pair force of lines 711-713, by component:
    [fx12 = f12[0] - f21[0]], [fy12 = f12[1] - f21[1]] and
    [fz12 = f12[2] - f21[2]]. *)
Lemma netForce_coord (t : pairTerms) (d : nat) :
  coord (netForce t) d = coord (f12 t) d - coord (f21 t) d.
Proof.
  unfold netForce. destruct (f12 t) as [[a0 a1] a2], (f21 t) as [[b0 b1] b2].
  destruct d as [|[|d]]; reflexivity.
Qed.

Lemma fold_left_pointwise {S A : Type} (f g : S -> A -> S) (l : list A) (st : S) :
  (forall acc v, f acc v = g acc v) -> fold_left f l st = fold_left g l st.
Proof.
  intros Hfg. revert st. induction l as [|v l IH]; intros st; [reflexivity|].
  cbn [fold_left]. rewrite Hfg. apply IH.
Qed.

(** C4.  On a symmetric, duplicate-free list without self-pairs,
    [find_force_tersoff] visits each unordered pair of neighbours
    [(n1, n2)], [n1 < n2], exactly once.  The force it leaves on an atom
    is the sum, over the visited pairs in order, of the net pair force
    [f12 - f21] (by component) for the pairs in which the atom is [n1]
    and of its opposite for those in which it is [n2], and nothing
    else; [prop[0]] is the sum of [(p12 + p21) * 0.5] over the visited
    pairs. *)
Theorem find_force_tersoff_pairs_once (atom : Atom) (N : nat) (NN : list nat)
    (NL : buffer nat) (MN : nat) (b bp : buffer Qc) (xs ys zs vxs vys vzs : list Qc)
    (st : kernelState) :
  wellListed N NN NL MN ->
  length (kfx st) = N -> length (kfy st) = N -> length (kfz st) = N ->
  length (kprop st) = 7%nat ->
  let terms := fun s => pairTermsOf sqrt exp cos sin atom NN NL MN b bp xs ys zs s.1 s.2 in
  let out := find_force_tersoff sqrt exp cos sin atom N NN NL MN b bp xs ys zs
               vxs vys vzs st in
  let pairs := map (fun s => (s.1, endOf NL MN s)) (visited N NN NL MN) in
  (NoDup pairs /\
   forall n1 n2, (n1, n2) ∈ pairs <-> (n1 < n2 < N)%nat /\ n2 ∈ listOf NN NL MN n1) /\
  (forall n, (n < N)%nat ->
     kfx out !!! n =
       fold_left
         (fun acc s => acc + share n s.1 (endOf NL MN s)
                               (coord (f12 (terms s)) 0 - coord (f21 (terms s)) 0))
         (visited N NN NL MN) 0 /\
     kfy out !!! n =
       fold_left
         (fun acc s => acc + share n s.1 (endOf NL MN s)
                               (coord (f12 (terms s)) 1 - coord (f21 (terms s)) 1))
         (visited N NN NL MN) 0 /\
     kfz out !!! n =
       fold_left
         (fun acc s => acc + share n s.1 (endOf NL MN s)
                               (coord (f12 (terms s)) 2 - coord (f21 (terms s)) 2))
         (visited N NN NL MN) 0) /\
  kprop out !!! 0%nat =
    fold_left (fun acc s => acc + (p12 (terms s) + p21 (terms s)) * (1#2))
      (visited N NN NL MN) 0.
Proof.
  intros Hw Hx Hy Hz Hp terms out pairs.
  split; [apply visited_once; exact Hw|].
  destruct (zeroKernel_spec N st Hx Hy Hz Hp) as (Zx & Zy & Zz & Zp & Zp0 & Zf).
  pose proof (visited_in_range N NN NL MN Hw) as Hvs.
  unfold out. rewrite find_force_tersoff_visits. fold terms.
  split.
  - intros n Hn.
    destruct (visits_sum vxs vys vzs NL MN terms N _ _ n Hvs Zx Zy Zz Zp)
      as (Sx & Sy & Sz & _).
    destruct (Zf n Hn) as (Fx & Fy & Fz).
    rewrite Sx, Sy, Sz, Fx, Fy, Fz.
    split; [|split]; apply fold_left_pointwise; intros acc s;
      rewrite netForce_coord; reflexivity.
  - destruct (visits_sum vxs vys vzs NL MN terms N _ _ 0%nat Hvs Zx Zy Zz Zp)
      as (_ & _ & _ & Sp).
    rewrite Sp, Zp0. reflexivity.
Qed.

(** *** The divisor of [bp] *)




End BondOrderFacts.

(** The arrays that the kernel writes, for two atoms. *)
Definition idle : kernelState :=
  mkKernel (replicate 2 0) (replicate 2 0) (replicate 2 0) (replicate 7 0).

(** Two atoms 1 apart, inside the inner radius 1.8, with the list that
    the all-pairs builder gives them. *)
Definition bondedSites : Atom :=
  cubicSystem (40#1) 1000 (10#1) [pointZ 1 1 1; pointZ 2 1 1].

Definition bonded : Atom := stateOf (findNeighborON2 bondedSites) bondedSites.

(** Stand-ins for <cmath> on the rationals: the exponential series cut
    after 24 terms, and a [pow] that is right for the two calls made for
    a bond without a third atom, [pow(0, n) = 0] and [pow(1, -1/(2n)) = 1].
    [cos] and [sin] are not called for a distance below the inner
    radius. *)
Definition expSeries (q : Qc) : Qc :=
  fold_right (fun k acc => 1 + q / ofInt (Z.of_nat k) * acc) 1 (seq 1 24).

Definition powOfBase (u v : Qc) : Qc := u.

(** [b] and [bp] as phase A leaves them for [bonded]. *)
Definition bondedOrders : buffer Qc * buffer Qc :=
  find_b_and_bp sqrtExact (fun q => q) powOfBase bonded 2 (NN bonded) (NL bonded)
    (MN bonded) (x bonded) (y bonded) (z bonded) ∅ ∅.

Definition bondedTerms : pairTerms :=
  pairTermsOf sqrtExact expSeries (fun q => q) (fun q => q) bonded
    (NN bonded) (NL bonded) (MN bonded) bondedOrders.1 bondedOrders.2
    (x bonded) (y bonded) (z bonded) 0 0.

Definition bondedForces : kernelState :=
  find_force_tersoff sqrtExact expSeries (fun q => q) (fun q => q) bonded 2
    (NN bonded) (NL bonded) (MN bonded) bondedOrders.1 bondedOrders.2
    (x bonded) (y bonded) (z bonded) (vx bonded) (vy bonded) (vz bonded) idle.

Lemma share_first (n n2 : nat) (f : Qc) : share n n n2 f = f.
Proof. unfold share. destruct (decide (n = n)); [reflexivity|congruence]. Qed.

Lemma share_second (n n1 : nat) (f : Qc) : n <> n1 -> share n n1 n f = - f.
Proof.
  intros Hne. unfold share.
  destruct (decide (n = n1)); [congruence|].
  destruct (decide (n = n)); [reflexivity|congruence].
Qed.

Lemma bonded_wellListed : wellListed 2 (NN bonded) (NL bonded) (MN bonded).
Proof.
  assert (H0 : listOf (NN bonded) (NL bonded) (MN bonded) 0 = [1%nat])
    by (vm_compute; reflexivity).
  assert (H1 : listOf (NN bonded) (NL bonded) (MN bonded) 1 = [0%nat])
    by (vm_compute; reflexivity).
  intros n1 Hn1.
  assert (Hcase : n1 = 0%nat \/ n1 = 1%nat) by lia.
  destruct Hcase as [-> | ->].
  - rewrite H0. split; [repeat constructor; intros H; inversion H|].
    intros n2 Hn2. apply list_elem_of_singleton in Hn2 as ->.
    rewrite H1. split; [lia|]. split; [lia|]. left.
  - rewrite H1. split; [repeat constructor; intros H; inversion H|].
    intros n2 Hn2. apply list_elem_of_singleton in Hn2 as ->.
    rewrite H0. split; [lia|]. split; [lia|]. left.
Qed.

Lemma find_force_tersoff_pairs_once_witness :
  wellListed 2 (NN bonded) (NL bonded) (MN bonded) /\
  map (fun s => (s.1, endOf (NL bonded) (MN bonded) s))
      (visited 2 (NN bonded) (NL bonded) (MN bonded)) = [(0%nat, 1%nat)] /\
  kfx bondedForces !!! 0%nat =
    0 + (coord (f12 bondedTerms) 0 - coord (f21 bondedTerms) 0) /\
  kfx bondedForces !!! 1%nat =
    0 + - (coord (f12 bondedTerms) 0 - coord (f21 bondedTerms) 0) /\
  kprop bondedForces !!! 0%nat = 0 + (p12 bondedTerms + p21 bondedTerms) * (1#2) /\
  coord (f12 bondedTerms) 0 < - (22#1) /\ (22#1) < coord (f21 bondedTerms) 0 /\
  p12 bondedTerms + p21 bondedTerms < - (8#1).
Proof.
  assert (Hv : visited 2 (NN bonded) (NL bonded) (MN bonded) = [(0%nat, 0%nat)])
    by (vm_compute; reflexivity).
  assert (He : endOf (NL bonded) (MN bonded) (0%nat, 0%nat) = 1%nat)
    by (vm_compute; reflexivity).
  split; [exact bonded_wellListed|].
  split; [rewrite Hv; cbn [map fst]; rewrite He; reflexivity|].
  destruct (find_force_tersoff_pairs_once sqrtExact expSeries (fun q => q) (fun q => q)
              bonded 2 (NN bonded) (NL bonded) (MN bonded) bondedOrders.1 bondedOrders.2
              (x bonded) (y bonded) (z bonded) (vx bonded) (vy bonded) (vz bonded) idle
              bonded_wellListed eq_refl eq_refl eq_refl eq_refl) as (_ & Hforce & Hprop).
  cbv zeta in Hforce, Hprop.
  rewrite Hv in Hforce, Hprop. cbn [fold_left fst snd] in Hforce, Hprop.
  rewrite He in Hforce.
  destruct (Hforce 0%nat ltac:(lia)) as (H0 & _).
  destruct (Hforce 1%nat ltac:(lia)) as (H1 & _).
  rewrite share_first in H0. rewrite share_second in H1 by lia.
  split; [exact H0|]. split; [exact H1|]. split; [exact Hprop|].
  split; [vm_compute; reflexivity|]. split; vm_compute; reflexivity.
Defined.


(** * Further properties *)

(** ** The box, the minimum image and the periodic wrap *)

Definition add3 (u v : Qc * Qc * Qc) : Qc * Qc * Qc :=
  (u.1.1 + v.1.1, u.1.2 + v.1.2, u.2 + v.2).

(** The array that [cubicBox] inverts. *)
Definition cubicMatrix (L : Qc) : list Qc :=
  [L; 0; 0; 0; L; 0; 0; 0; L; 0; 0; 0; 0; 0; 0; 0; 0; 0].

Lemma cubicMatrix_det : getDet (cubicMatrix (4#1)) <> 0.
Proof. vm_compute. discriminate. Qed.

Lemma list_eq_total {A : Type} `{Inhabited A} (l k : list A) :
  length l = length k ->
  (forall i, (i < length l)%nat -> l !!! i = k !!! i) -> l = k.
Proof.
  intros Hlen Hall. apply list_eq. intros i.
  destruct (decide (i < length l)%nat) as [Hi|Hi].
  - rewrite (list_lookup_lookup_total_lt l i Hi).
    rewrite (list_lookup_lookup_total_lt k i) by lia.
    f_equal. apply Hall, Hi.
  - rewrite !lookup_ge_None_2 by lia. reflexivity.
Qed.

Lemma getInverseBox_frame (b0 : list Qc) :
  length b0 = 18%nat ->
  length (getInverseBox b0) = 18%nat /\
  forall k, (k < 9)%nat -> getInverseBox b0 !!! k = b0 !!! k.
Proof.
  intros Hlen.
  do 18 (destruct b0 as [|? b0]; [discriminate Hlen|]).
  destruct b0; [|discriminate Hlen].
  split; [with_strategy transparent [getInverseBox] reflexivity|].
  intros k Hk.
  do 9 (destruct k as [|k]; [with_strategy transparent [getInverseBox] reflexivity|]).
  lia.
Qed.

Lemma getInverseBox_two_sided (b0 : list Qc) :
  length b0 = 18%nat -> getDet b0 <> 0 ->
  (forall s, toFractional (getInverseBox b0) (toCartesian (getInverseBox b0) s) = s) /\
  (forall r, toCartesian (getInverseBox b0) (toFractional (getInverseBox b0) r) = r).
Proof.
  intros Hlen Hdet.
  do 18 (destruct b0 as [|? b0]; [discriminate Hlen|]).
  destruct b0; [|discriminate Hlen].
  array_cbv_in Hdet.
  split; intros [[u v] w];
    with_strategy transparent [getInverseBox]
      (array_cbv; f_equal; [f_equal|]; field; exact Hdet).
Qed.

(** [getInverseBox] leaves the matrix in entries 0..8 as it is and
    stores in entries 9..17 its inverse: going to fractional
    coordinates and back, or back and forth, is the identity, when the
    determinant is not zero. *)
Theorem getInverseBox_inverts (b0 : list Qc) :
  length b0 = 18%nat -> getDet b0 <> 0 ->
  length (getInverseBox b0) = 18%nat /\
  (forall k, (k < 9)%nat -> getInverseBox b0 !!! k = b0 !!! k) /\
  (forall s, toFractional (getInverseBox b0) (toCartesian (getInverseBox b0) s) = s) /\
  (forall r, toCartesian (getInverseBox b0) (toFractional (getInverseBox b0) r) = r).
Proof.
  intros Hlen Hdet.
  destruct (getInverseBox_frame b0 Hlen) as [H1 H2].
  destruct (getInverseBox_two_sided b0 Hlen Hdet) as [H3 H4].
  auto.
Qed.

Lemma getInverseBox_inverts_witness :
  toFractional (cubicBox (4#1)) (toCartesian (cubicBox (4#1)) (pointZ 1 2 3)) = pointZ 1 2 3 /\
  toCartesian (cubicBox (4#1)) (toFractional (cubicBox (4#1)) (pointZ 1 2 3)) = pointZ 1 2 3.
Proof.
  destruct (getInverseBox_inverts (cubicMatrix (4#1)) eq_refl cubicMatrix_det) as (_ & _ & H1 & H2).
  split; [exact (H1 _)|exact (H2 _)].
Defined.

Lemma toCartesian_add3 (B : list Qc) (u v : Qc * Qc * Qc) :
  toCartesian B (add3 u v) = add3 (toCartesian B u) (toCartesian B v).
Proof.
  destruct u as [[u0 u1] u2], v as [[v0 v1] v2].
  unfold toCartesian, add3. cbn [fst snd]. f_equal; [f_equal|]; ring.
Qed.

Lemma applyMicOne_shift (c : Qc) :
  exists k : Z, (k = -1 \/ k = 0 \/ k = 1)%Z /\ applyMicOne c = c + ofInt k.
Proof.
  unfold applyMicOne.
  destruct (qlt c (-(1#2))).
  - exists 1%Z. split; [lia|reflexivity].
  - destruct (qlt (1#2) c).
    + exists (-1)%Z. split; [lia|reflexivity].
    + exists 0%Z. split; [lia|]. change (ofInt 0) with 0. ring.
Qed.

(** [applyMic] changes a displacement by whole box vectors only: the
    result is the argument plus [k0 a + k1 b + k2 c] for the columns
    [a], [b], [c] of the box matrix, with each [k] one of -1, 0 and 1. *)
Theorem applyMic_shifts_by_box_vectors (b0 : list Qc) (r : Qc * Qc * Qc) :
  length b0 = 18%nat -> getDet b0 <> 0 ->
  exists k0 k1 k2 : Z,
    (-1 <= k0 <= 1)%Z /\ (-1 <= k1 <= 1)%Z /\ (-1 <= k2 <= 1)%Z /\
    applyMic (getInverseBox b0) r =
      add3 r (toCartesian (getInverseBox b0) (pointZ k0 k1 k2)).
Proof.
  intros Hlen Hdet.
  destruct (getInverseBox_two_sided b0 Hlen Hdet) as [_ Hright].
  set (B := getInverseBox b0) in *.
  rewrite applyMic_unfold.
  destruct (toFractional B r) as [[s0 s1] s2] eqn:Es.
  cbn [coord fst snd].
  destruct (applyMicOne_shift s0) as (k0 & H0 & ->).
  destruct (applyMicOne_shift s1) as (k1 & H1 & ->).
  destruct (applyMicOne_shift s2) as (k2 & H2 & ->).
  exists k0, k1, k2.
  split; [lia|]. split; [lia|]. split; [lia|].
  change (s0 + ofInt k0, s1 + ofInt k1, s2 + ofInt k2)
    with (add3 (s0, s1, s2) (pointZ k0 k1 k2)).
  rewrite toCartesian_add3, <- Es, Hright. reflexivity.
Qed.

Lemma applyMic_shifts_by_box_vectors_witness :
  exists k0 k1 k2 : Z,
    (-1 <= k0 <= 1)%Z /\ (-1 <= k1 <= 1)%Z /\ (-1 <= k2 <= 1)%Z /\
    applyMic (cubicBox (4#1)) (pointZ 3 0 (-3)) =
      add3 (pointZ 3 0 (-3)) (toCartesian (cubicBox (4#1)) (pointZ k0 k1 k2)).
Proof.
  exact (applyMic_shifts_by_box_vectors (cubicMatrix (4#1)) (pointZ 3 0 (-3)) eq_refl
           cubicMatrix_det).
Defined.

Lemma leftInverse_triple (B : list Qc) (s : Qc * Qc * Qc) :
  leftInverse B -> toFractional B (toCartesian B s) = s.
Proof.
  intros HB.
  pose proof (HB s 0%nat) as H0. pose proof (HB s 1%nat) as H1.
  pose proof (HB s 2%nat) as H2.
  destruct (toFractional B (toCartesian B s)) as [[a0 a1] a2].
  destruct s as [[s0 s1] s2]. cbn [coord fst snd] in *. congruence.
Qed.

(** A displacement already folded is left alone: applying [applyMic] to
    its own result changes nothing, when the fractional components of
    the argument are within [[-1.5, 1.5]] (beyond that one call folds
    only once and a second call folds again). *)
Theorem applyMic_idempotent (b0 : list Qc) (r : Qc * Qc * Qc) :
  length b0 = 18%nat -> getDet b0 <> 0 ->
  (forall d, -(3#2) <= coord (toFractional (getInverseBox b0) r) d /\
             coord (toFractional (getInverseBox b0) r) d <= (3#2)) ->
  applyMic (getInverseBox b0) (applyMic (getInverseBox b0) r) =
  applyMic (getInverseBox b0) r.
Proof.
  intros Hlen Hdet Hr.
  pose proof (getInverseBox_left_inverse b0 Hlen Hdet) as HB.
  set (B := getInverseBox b0) in *.
  rewrite (applyMic_unfold B (applyMic B r)).
  rewrite !applyMic_fractional by exact HB.
  rewrite (applyMic_unfold B r).
  assert (Hfix : forall d,
            applyMicOne (applyMicOne (coord (toFractional B r) d)) =
            applyMicOne (coord (toFractional B r) d)).
  { intros d.
    destruct (applyMicOne_cases (applyMicOne (coord (toFractional B r) d)))
      as (_ & _ & Hmid).
    apply Hmid. apply applyMicOne_range. apply Hr. }
  rewrite !Hfix. reflexivity.
Qed.

Lemma applyMic_idempotent_witness :
  applyMic (cubicBox (4#1)) (applyMic (cubicBox (4#1)) (pointZ 3 0 (-3))) =
  applyMic (cubicBox (4#1)) (pointZ 3 0 (-3)).
Proof.
  apply (applyMic_idempotent (cubicMatrix (4#1)) (pointZ 3 0 (-3)) eq_refl cubicMatrix_det).
  intros [|[|d]]; vm_compute; split; discriminate.
Defined.

(** [applyMic] is odd, for any content of the box array: the image of
    the opposite displacement is the opposite of the image.  So the
    minimum-image distance from [i] to [j] that the builders and the
    kernels compute is the one from [j] to [i]. *)
Theorem applyMic_odd (atom : Atom) (r : Qc * Qc * Qc) (i j : nat) :
  applyMic (box atom) (opp3 r) = opp3 (applyMic (box atom) r) /\
  displacement atom j i = opp3 (displacement atom i j) /\
  distanceSquare atom j i = distanceSquare atom i j.
Proof.
  split; [apply applyMic_opp|].
  split; [|apply distanceSquare_sym].
  unfold displacement. rewrite <- applyMic_opp. f_equal.
  unfold opp3. cbn [fst snd]. f_equal; [f_equal|]; ring.
Qed.

(** ** [applyPbc], [updateXyz0] and [findNeighbor] again *)

(** A loop that writes the positions only. *)
Definition onlyXyz (atom atom' : Atom) : Prop :=
  atom' = set_xyz (x atom') (y atom') (z atom') atom.

Lemma onlyXyz_refl (atom : Atom) : onlyXyz atom atom.
Proof. destruct atom. reflexivity. Qed.

Lemma applyPbc_onlyXyz (atom : Atom) : onlyXyz atom (applyPbc atom).
Proof.
  unfold applyPbc.
  assert (Hgen : forall l a, onlyXyz atom a -> onlyXyz atom (fold_left applyPbc_body l a)).
  { induction l as [|n l IH]; intros a Ha; [exact Ha|].
    cbn [fold_left]. apply IH. unfold applyPbc_body.
    destruct (toFractional _ _) as [[sx sy] sz].
    destruct (toCartesian _ _) as [[rx ry] rz].
    unfold onlyXyz in *. rewrite Ha at 4. reflexivity. }
  apply Hgen, onlyXyz_refl.
Qed.

Lemma onlyXyz_fields (a b : Atom) :
  onlyXyz a b ->
  number b = number a /\ box b = box a /\
  x0 b = x0 a /\ y0 b = y0 a /\ z0 b = z0 a.
Proof. intros ->. cbn. auto. Qed.

Lemma wrapPbc_fixed (B : list Qc) (r : Qc * Qc * Qc) :
  leftInverse B ->
  (forall d, - 1 <= coord (toFractional B r) d /\ coord (toFractional B r) d <= (2#1)) ->
  wrapPbc B (wrapPbc B r) = wrapPbc B r.
Proof.
  intros HB Hr.
  unfold wrapPbc at 1.
  assert (Hfix : forall d,
            applyPbcOne (coord (toFractional B (wrapPbc B r)) d) =
            coord (toFractional B (wrapPbc B r)) d).
  { intros d.
    destruct (applyPbcOne_cases (coord (toFractional B (wrapPbc B r)) d)) as (_ & _ & Hmid).
    apply Hmid. unfold wrapPbc. rewrite (HB _ d).
    destruct d as [|[|d]]; cbn [coord fst snd]; apply applyPbcOne_range;
      [exact (Hr 0%nat)|exact (Hr 1%nat)|exact (Hr 2%nat)]. }
  rewrite !Hfix. unfold wrapPbc.
  rewrite (HB _ 0%nat), (HB _ 1%nat), (HB _ 2%nat). reflexivity.
Qed.

(** Wrapping twice is wrapping once: [applyPbc] returns its own result
    unchanged, when every atom starts with fractional coordinates
    within [[-1, 2]] (an atom farther out is moved by one box length
    per call). *)
Theorem applyPbc_idempotent (atom : Atom) (b0 : list Qc) :
  length b0 = 18%nat -> getDet b0 <> 0 -> box atom = getInverseBox b0 ->
  length (x atom) = number atom -> length (y atom) = number atom ->
  length (z atom) = number atom ->
  (forall n d, (n < number atom)%nat ->
     - 1 <= coord (toFractional (box atom) (position atom n)) d /\
     coord (toFractional (box atom) (position atom n)) d <= (2#1)) ->
  applyPbc (applyPbc atom) = applyPbc atom.
Proof.
  intros Hlen Hdet Hbox Hx Hy Hz Hr.
  assert (HB : leftInverse (box atom)).
  { rewrite Hbox. apply getInverseBox_left_inverse; assumption. }
  clear Hbox Hlen Hdet.
  pose proof (applyPbc_onlyXyz atom) as F1.
  pose proof (applyPbc_onlyXyz (applyPbc atom)) as F2.
  destruct (onlyXyz_fields _ _ F1) as (N1 & _).
  destruct (applyPbc_prefix atom (number atom)) as (B1 & X1 & Y1 & Z1 & P1); [lia..|].
  fold (applyPbc atom) in B1, X1, Y1, Z1, P1.
  set (a1 := applyPbc atom) in *.
  destruct (applyPbc_prefix a1 (number a1)) as (_ & X2 & Y2 & Z2 & P2); [lia..|].
  fold (applyPbc a1) in X2, Y2, Z2, P2.
  assert (Hpos : forall m, position (applyPbc a1) m = position a1 m).
  { intros m. rewrite P2. destruct (decide (m < number a1)%nat) as [Hm|Hm]; [|reflexivity].
    rewrite B1, P1. destruct (decide (m < number atom)%nat); [|lia].
    apply wrapPbc_fixed; [exact HB|]. intros d. apply Hr. lia. }
  unfold onlyXyz in F2. rewrite F2.
  assert (Ex : x (applyPbc a1) = x a1).
  { apply list_eq_total; [exact X2|]. intros i _.
    pose proof (Hpos i) as Hi. unfold position in Hi. congruence. }
  assert (Ey : y (applyPbc a1) = y a1).
  { apply list_eq_total; [exact Y2|]. intros i _.
    pose proof (Hpos i) as Hi. unfold position in Hi. congruence. }
  assert (Ez : z (applyPbc a1) = z a1).
  { apply list_eq_total; [exact Z2|]. intros i _.
    pose proof (Hpos i) as Hi. unfold position in Hi. congruence. }
  rewrite Ex, Ey, Ez. destruct a1. reflexivity.
Qed.

Lemma applyPbc_idempotent_witness :
  let atom := cubicSystem (4#1) 1000 (10#1) [pointZ 5 (-1) 2; pointZ 1 7 (-3)] in
  applyPbc (applyPbc atom) = applyPbc atom.
Proof.
  intros atom.
  apply (applyPbc_idempotent atom (cubicMatrix (4#1)) eq_refl cubicMatrix_det
           eq_refl eq_refl eq_refl eq_refl).
  intros n d Hn.
  assert (Hcase : n = 0%nat \/ n = 1%nat) by (cbn in Hn; lia).
  destruct Hcase as [-> | ->]; destruct d as [|[|d]]; vm_compute; split; discriminate.
Defined.

Lemma updateXyz0_prefix (atom : Atom) (k : nat) :
  let atom' := fold_left updateXyz0_body (seq 0 k) atom in
  number atom' = number atom /\
  x atom' = x atom /\ y atom' = y atom /\ z atom' = z atom /\
  length (x0 atom') = length (x0 atom) /\
  length (y0 atom') = length (y0 atom) /\
  length (z0 atom') = length (z0 atom) /\
  forall m, (m < k)%nat ->
    ((m < length (x0 atom))%nat -> x0 atom' !!! m = x atom !!! m) /\
    ((m < length (y0 atom))%nat -> y0 atom' !!! m = y atom !!! m) /\
    ((m < length (z0 atom))%nat -> z0 atom' !!! m = z atom !!! m).
Proof.
  induction k as [|k IH].
  - cbn [seq fold_left]. do 7 (split; [reflexivity|]). intros m Hm. lia.
  - rewrite seq_S, fold_left_app. cbn [fold_left Nat.add].
    destruct IH as (Hn & Hx & Hy & Hz & Lx & Ly & Lz & Hall).
    set (a1 := fold_left updateXyz0_body (seq 0 k) atom) in *.
    cbn zeta. unfold updateXyz0_body. cbn [number x y z x0 y0 z0 set_xyz0].
    rewrite !length_insert.
    do 7 (split; [assumption|]).
    intros m Hm.
    destruct (decide (m = k)) as [->|Hne].
    + rewrite Hx, Hy, Hz.
      split; [|split]; intros Hl; apply list_lookup_total_insert_eq; lia.
    + destruct (Hall m ltac:(lia)) as (H1 & H2 & H3).
      split; [|split]; intros Hl;
        (rewrite list_lookup_total_insert_ne by congruence); auto.
Qed.

Lemma updateXyz0_settles (atom : Atom) :
  (number atom <= length (x0 atom))%nat -> (number atom <= length (y0 atom))%nat ->
  (number atom <= length (z0 atom))%nat ->
  checkIfNeedUpdate (updateXyz0 atom) = false.
Proof.
  intros Lx Ly Lz.
  destruct (checkIfNeedUpdate (updateXyz0 atom)) eqn:E; [|reflexivity].
  exfalso. apply checkIfNeedUpdate_true in E as (n & Hn & Hlt).
  unfold updateXyz0 in *.
  destruct (updateXyz0_prefix atom (number atom)) as (Hnum & Hx & Hy & Hz & _ & _ & _ & Hall).
  cbn zeta in *.
  set (a1 := fold_left updateXyz0_body (seq 0 (number atom)) atom) in *.
  rewrite Hnum in Hn.
  destruct (Hall n Hn) as (H1 & H2 & H3).
  unfold squaredMove in Hlt.
  rewrite H1, H2, H3, Hx, Hy, Hz in Hlt by lia.
  assert (Hzero : forall u v w : Qc, (u - u) * (u - u) + (v - v) * (v - v) + (w - w) * (w - w) = 0)
    by (intros; ring).
  rewrite Hzero in Hlt. vm_compute in Hlt. discriminate Hlt.
Qed.

(** A list that has just been rebuilt is not rebuilt again: when
    [findNeighbor] returns, the reference positions are the positions,
    [checkIfNeedUpdate] answers no, and a second call of [findNeighbor]
    returns the same state. *)
Theorem findNeighbor_idempotent (sqrt : Qc -> Qc) (USE_ON1 : bool) (atom atom' : Atom) :
  (number atom <= length (x0 atom))%nat -> (number atom <= length (y0 atom))%nat ->
  (number atom <= length (z0 atom))%nat ->
  findNeighbor sqrt USE_ON1 atom = Ok atom' ->
  checkIfNeedUpdate atom' = false /\
  findNeighbor sqrt USE_ON1 atom' = Ok atom'.
Proof.
  intros Lx Ly Lz Hrun.
  assert (Hno : checkIfNeedUpdate atom' = false).
  { unfold findNeighbor in Hrun.
    destruct (checkIfNeedUpdate atom) eqn:E.
    - unfold rebuild in Hrun.
      set (a1 := applyPbc (set_numUpdates (S (numUpdates atom)) atom)) in *.
      assert (F1 : number a1 = number atom /\ x0 a1 = x0 atom /\
                   y0 a1 = y0 atom /\ z0 a1 = z0 atom).
      { destruct (onlyXyz_fields _ _
                    (applyPbc_onlyXyz (set_numUpdates (S (numUpdates atom)) atom)))
          as (H1 & _ & H2 & H3 & H4).
        auto. }
      destruct F1 as (N1 & X1 & Y1 & Z1).
      pose proof (builder_framed sqrt USE_ON1 a1) as Hf.
      destruct (builder sqrt USE_ON1 a1) as [a2| |]; cbn [bind] in Hrun; try discriminate.
      injection Hrun as <-.
      apply onlyLists_fields in Hf.
      destruct Hf as (N2 & _ & _ & _ & _ & _ & _ & _ & X2 & Y2 & Z2).
      apply updateXyz0_settles; rewrite N2, ?X2, ?Y2, ?Z2, N1, ?X1, ?Y1, ?Z1; assumption.
    - injection Hrun as <-. exact E. }
  split; [exact Hno|]. unfold findNeighbor. rewrite Hno. reflexivity.
Qed.

Lemma findNeighbor_idempotent_witness :
  let atom := cubicSystem (40#1) 1000 (10#1) [pointZ 1 1 1; pointZ 5 1 1] in
  checkIfNeedUpdate atom = true /\
  findNeighbor sqrtExact false (stateOf (findNeighbor sqrtExact false atom) atom) =
  Ok (stateOf (findNeighbor sqrtExact false atom) atom).
Proof.
  intros atom.
  split; [vm_compute; reflexivity|].
  assert (Hrun : findNeighbor sqrtExact false atom =
                 Ok (stateOf (findNeighbor sqrtExact false atom) atom))
    by (vm_compute; reflexivity).
  assert (Hlen : (number atom <= 2)%nat) by (vm_compute; lia).
  exact (proj2 (findNeighbor_idempotent sqrtExact false atom _ Hlen Hlen Hlen Hrun)).
Defined.

(** ** What the two builders record *)

Section BuilderFacts.

Variable sqrt : Qc -> Qc.

(** What [findNeighborON1] records when it returns: for [n1 < n2], atom
    [n2] is in the list of [n1] exactly when the pair is within the
    cutoff and the cell of [n2] is among the 27 cells scanned from the
    cell of [n1]; the list of [n2] then holds [n1]; and every entry of
    a list is another atom of the system within the cutoff. *)
Theorem findNeighborON1_exact (atom atom' : Atom) :
  sized atom -> findNeighborON1 sqrt atom = Ok atom' ->
  (forall n1 n2, (n1 < n2)%nat ->
     (n2 ∈ neighbors atom' n1 <->
      (n2 < number atom)%nat /\ within atom n1 n2 = true /\ adjacent sqrt atom n1 n2)) /\
  (forall i j, j ∈ neighbors atom' i <-> i ∈ neighbors atom' j) /\
  (forall i j, j ∈ neighbors atom' i ->
     (i < number atom)%nat /\ (j < number atom)%nat /\ j <> i /\ within atom i j = true).
Proof.
  intros Hs Hrun.
  assert (Hsome : cellArrays sqrt atom <> None).
  { intros E. unfold findNeighborON1 in Hrun. rewrite E in Hrun. discriminate Hrun. }
  destruct (builder_ok sqrt true atom atom' Hs Hrun) as (_ & _ & Hnb).
  change (accepted sqrt true atom) with (acceptedON1 sqrt atom) in Hnb.
  assert (Hne : Forall (fun p : nat * nat => p.1 <> p.2) (acceptedON1 sqrt atom)).
  { eapply Forall_impl; [apply acceptedON1_ordered|]. intros p Hp. cbn beta in Hp. lia. }
  assert (Hmem : forall i j, j ∈ neighbors atom' i <->
            (i, j) ∈ acceptedON1 sqrt atom \/ (j, i) ∈ acceptedON1 sqrt atom).
  { intros i j. rewrite Hnb. apply elem_of_partners. exact Hne. }
  split; [|split].
  - intros n1 n2 Hlt. rewrite Hmem, !(elem_of_acceptedON1 sqrt atom) by exact Hsome.
    split.
    + intros [(H1 & H2 & H3)|(H1 & _)]; [|lia]. split; [lia|]. auto.
    + intros (H1 & H2 & H3). left. split; [lia|]. auto.
  - intros i j. rewrite !Hmem. tauto.
  - intros i j Hj. apply Hmem in Hj.
    rewrite !(elem_of_acceptedON1 sqrt atom) in Hj by exact Hsome.
    destruct Hj as [(H1 & H2 & _)|(H1 & H2 & _)].
    + split; [lia|]. split; [lia|]. split; [lia|exact H2].
    + split; [lia|]. split; [lia|]. split; [lia|]. rewrite within_sym. exact H2.
Qed.

End BuilderFacts.

Lemma findNeighborON1_exact_witness :
  within twoCells 0 1 = true /\ adjacent sqrtExact twoCells 0 1.
Proof.
  assert (Hrun : findNeighborON1 sqrtExact twoCells
                 = Ok (stateOf (findNeighborON1 sqrtExact twoCells) twoCells))
    by (vm_compute; reflexivity).
  destruct (findNeighborON1_exact sqrtExact twoCells _ eq_refl Hrun) as (H & _ & _).
  apply (H 0%nat 1%nat); [lia|].
  assert (Hl : neighbors (stateOf (findNeighborON1 sqrtExact twoCells) twoCells) 0
               = [1%nat; 1%nat]) by (vm_compute; reflexivity).
  rewrite Hl. left.
Defined.

Lemma findNeighborON2_exact_witness :
  NoDup (neighbors dimer 0) /\ length (neighbors dimer 0) = NN dimer !!! 0%nat.
Proof.
  assert (Hrun : findNeighborON2 dimerSites = Ok dimer) by (vm_compute; reflexivity).
  destruct (findNeighborON2_exact dimerSites dimer 0 eq_refl Hrun) as (_ & H1 & _ & H2 & _).
  split; assumption.
Defined.

Lemma cellArrays_bins_witness :
  exists cellCount cellCountSum cellContents,
    cellArrays sqrtExact twoCells = Some (cellCount, cellCountSum, cellContents) /\
    cellContents ≡ₚ seq 0 (number twoCells).
Proof.
  assert (Hrun : cellArrays sqrtExact twoCells
                 = Some ([1; 1; 0; 0; 0; 0; 0; 0], [0; 1; 2; 2; 2; 2; 2; 2], [0; 1])%nat)
    by (vm_compute; reflexivity).
  eexists _, _, _. split; [exact Hrun|].
  apply (cellArrays_bins sqrtExact twoCells _ _ _ Hrun).
Defined.

(** One atom in a cubic box of side 4 with the cutoff 10. *)
Definition thinBox : Atom := cubicSystem (4#1) 1000 (10#1) [pointZ 1 1 1].

Lemma findNeighborON1_no_cells_witness :
  findNeighborON1 sqrtExact thinBox = OutOfRange.
Proof.
  apply findNeighborON1_no_cells.
  - vm_compute. discriminate.
  - cbn. lia.
Defined.

(** ** Sums over the atoms *)

(** The sum of [g n] for [n] from 0 to [N - 1]. *)
Definition sumOver (N : nat) (g : nat -> Qc) : Qc :=
  fold_left (fun acc n => acc + g n) (seq 0 N) 0.

Lemma fold_left_invariant {A B : Type} (P : A -> Prop) (f : A -> B -> A) (l : list B) (a : A) :
  (forall a b, b ∈ l -> P a -> P (f a b)) -> P a -> P (fold_left f l a).
Proof.
  revert a. induction l as [|b l IH]; intros a Hstep Ha; [exact Ha|].
  cbn [fold_left]. apply IH.
  - intros a' b' Hb'. apply Hstep. right. exact Hb'.
  - apply Hstep; [left|exact Ha].
Qed.

Lemma fold_left_Qcplus (l : list Qc) (a : Qc) :
  fold_left Qcplus l a = a + fold_left Qcplus l 0.
Proof.
  revert a. induction l as [|v l IH]; intros a; cbn [fold_left]; [ring|].
  rewrite (IH (a + v)), (IH (0 + v)). ring.
Qed.

Lemma sumQ_cons (v : Qc) (l : list Qc) : sumQ (v :: l) = v + sumQ l.
Proof.
  unfold sumQ. cbn [fold_left]. rewrite fold_left_Qcplus. ring.
Qed.

Lemma sumQ_insert (l : list Qc) (i : nat) (v : Qc) :
  (i < length l)%nat -> sumQ (<[i := v]> l) = sumQ l - l !!! i + v.
Proof.
  revert i. induction l as [|w l IH]; intros i Hi; [cbn in Hi; lia|].
  destruct i as [|i].
  - change (<[0%nat := v]> (w :: l)) with (v :: l).
    change ((w :: l) !!! 0%nat) with w. rewrite !sumQ_cons. ring.
  - change (<[S i := v]> (w :: l)) with (w :: <[i := v]> l).
    change ((w :: l) !!! S i) with (l !!! i).
    cbn [length] in Hi. rewrite !sumQ_cons, IH by lia. ring.
Qed.

Lemma sumQ_replicate (n : nat) : sumQ (replicate n 0) = 0.
Proof.
  induction n as [|n IH]; [reflexivity|].
  cbn [replicate]. rewrite sumQ_cons, IH. ring.
Qed.

(** One visit of a pair: add to one entry, take from another. *)
Lemma sumQ_transfer (l : list Qc) (i j : nat) (a : Qc) :
  (i < length l)%nat -> (j < length l)%nat ->
  sumQ (<[j := <[i := l !!! i + a]> l !!! j - a]> (<[i := l !!! i + a]> l)) = sumQ l.
Proof.
  intros Hi Hj.
  rewrite sumQ_insert by (rewrite length_insert; exact Hj).
  rewrite sumQ_insert by exact Hi. ring.
Qed.

Lemma sumOver_S (N : nat) (g : nat -> Qc) : sumOver (S N) g = sumOver N g + g N.
Proof.
  unfold sumOver. rewrite seq_S, fold_left_app. reflexivity.
Qed.

Lemma sumOver_ext (N : nat) (g h : nat -> Qc) :
  (forall n, (n < N)%nat -> g n = h n) -> sumOver N g = sumOver N h.
Proof.
  induction N as [|N IH]; intros Hgh; [reflexivity|].
  rewrite !sumOver_S, IH, Hgh by (intros; try apply Hgh; lia). reflexivity.
Qed.

Lemma sumOver_plus (N : nat) (g h : nat -> Qc) :
  sumOver N (fun n => g n + h n) = sumOver N g + sumOver N h.
Proof.
  induction N as [|N IH]; [unfold sumOver; cbn [seq fold_left]; ring|].
  rewrite !sumOver_S, IH. ring.
Qed.

Lemma sumOver_scale (N : nat) (g : nat -> Qc) (c : Qc) :
  sumOver N (fun n => g n * c) = sumOver N g * c.
Proof.
  induction N as [|N IH]; [unfold sumOver; cbn [seq fold_left]; ring|].
  rewrite !sumOver_S, IH. ring.
Qed.

Lemma sumQ_sumOver (l : list Qc) : sumQ l = sumOver (length l) (fun n => l !!! n).
Proof.
  induction l as [|v l IH] using rev_ind; [reflexivity|].
  rewrite length_app. cbn [length]. rewrite Nat.add_1_r, sumOver_S.
  unfold sumQ at 1. rewrite fold_left_app. cbn [fold_left]. fold (sumQ l).
  rewrite IH. f_equal.
  - apply sumOver_ext. intros n Hn. rewrite lookup_total_app_l by exact Hn. reflexivity.
  - rewrite list_lookup_total_middle; reflexivity.
Qed.

(** ** Newton's third law in the two kernels *)

Lemma sumOver_zero (N : nat) : sumOver N (fun _ => 0) = 0.
Proof.
  induction N as [|N IH]; [reflexivity|]. rewrite sumOver_S, IH. ring.
Qed.

Lemma sumQ_all_zero (l : list Qc) :
  (forall n, (n < length l)%nat -> l !!! n = 0) -> sumQ l = 0.
Proof.
  intros Hz. rewrite sumQ_sumOver, <- (sumOver_zero (length l)).
  apply sumOver_ext. exact Hz.
Qed.

(** Every entry of every list is an atom of the system. *)
Definition listsInRange (atom : Atom) : Prop :=
  forall i jj, (i < number atom)%nat -> (jj < NN atom !!! i)%nat ->
    (NLat (NL atom) (slot (MN atom) i jj) < number atom)%nat.

(** No atom is at distance zero from one of its list, so that
    [findForce] does not divide by zero. *)
Definition apart (atom : Atom) : Prop :=
  forall i jj, (i < number atom)%nat -> (jj < NN atom !!! i)%nat ->
    distanceSquare atom i (NLat (NL atom) (slot (MN atom) i jj)) <> 0.

(** All of a state that [findForce] does not write. *)
Definition exceptForces (a : Atom) :=
  (number a, numUpdates a, MN a, cutoffNeighbor a, box a, NN a, NL a, mass a,
   (x0 a, y0 a, z0 a), (x a, y a, z a), (vx a, vy a, vz a)).

Lemma exceptForces_fields (a b : Atom) :
  exceptForces b = exceptForces a ->
  number b = number a /\ MN b = MN a /\ NN b = NN a /\ NL b = NL a /\ mass b = mass a /\
  x b = x a /\ y b = y a /\ z b = z a /\ box b = box a /\
  vx b = vx a /\ vy b = vy a /\ vz b = vz a.
Proof. unfold exceptForces. intros [= -> _ -> _ -> -> -> -> _ _ _ -> -> -> -> -> ->]. auto 20. Qed.

Lemma findForce_zero_prefix (atom : Atom) (k : nat) :
  let atom' := fold_left findForce_zero (seq 0 k) atom in
  exceptForces atom' = exceptForces atom /\
  length (fx atom') = length (fx atom) /\ length (fy atom') = length (fy atom) /\
  length (fz atom') = length (fz atom) /\
  forall n, (n < k)%nat ->
    ((n < length (fx atom))%nat -> fx atom' !!! n = 0) /\
    ((n < length (fy atom))%nat -> fy atom' !!! n = 0) /\
    ((n < length (fz atom))%nat -> fz atom' !!! n = 0).
Proof.
  induction k as [|k IH].
  - cbn [seq fold_left]. do 4 (split; [reflexivity|]). intros n Hn. lia.
  - rewrite seq_S, fold_left_app. cbn [fold_left Nat.add].
    destruct IH as (Hf & Lx & Ly & Lz & Hz).
    set (a1 := fold_left findForce_zero (seq 0 k) atom) in *.
    cbn zeta. unfold findForce_zero. cbn [fx fy fz set_fx set_fy set_fz set_pe].
    rewrite !length_insert.
    split; [exact Hf|]. do 3 (split; [assumption|]).
    intros n Hn. destruct (decide (n = k)) as [->|Hne].
    + split; [|split]; intros Hl; apply list_lookup_total_insert_eq; lia.
    + destruct (Hz n ltac:(lia)) as (H1 & H2 & H3).
      split; [|split]; intros Hl;
        (rewrite list_lookup_total_insert_ne by congruence); auto.
Qed.

(** What the loops of [findForce] keep true. *)
Definition balanced (atom0 atom : Atom) : Prop :=
  exceptForces atom = exceptForces atom0 /\
  length (fx atom) = number atom0 /\ length (fy atom) = number atom0 /\
  length (fz atom) = number atom0 /\
  sumQ (fx atom) = 0 /\ sumQ (fy atom) = 0 /\ sumQ (fz atom) = 0.

Lemma findForce_inner_balanced (atom0 atom : Atom) (i jj : nat) :
  listsInRange atom0 -> (i < number atom0)%nat -> (jj < NN atom0 !!! i)%nat ->
  balanced atom0 atom -> balanced atom0 (findForce_inner i atom jj).
Proof.
  intros Hrange Hi Hjj (Hf & Lx & Ly & Lz & Sx & Sy & Sz).
  destruct (exceptForces_fields _ _ Hf) as (_ & EM & _ & EL & _).
  unfold findForce_inner. rewrite EM, EL.
  pose proof (Hrange i jj Hi Hjj) as Hj.
  set (j := NLat (NL atom0) (slot (MN atom0) i jj)) in *.
  destruct (displacement atom i j) as [[xij yij] zij].
  destruct (qlt _ _); [repeat split; assumption|].
  unfold balanced. cbn [fx fy fz set_fx set_fy set_fz set_pe].
  split; [exact Hf|].
  rewrite !length_insert. do 3 (split; [assumption|]).
  rewrite !sumQ_transfer by lia. auto.
Qed.

Lemma findForce_outer_balanced (atom0 atom : Atom) (i : nat) :
  listsInRange atom0 -> (i < number atom0)%nat ->
  balanced atom0 atom -> balanced atom0 (findForce_outer atom i).
Proof.
  intros Hrange Hi Hb. unfold findForce_outer.
  assert (HNN : NN atom = NN atom0).
  { destruct Hb as (Hf & _). apply (exceptForces_fields _ _ Hf). }
  rewrite HNN.
  apply (fold_left_invariant (balanced atom0)); [|exact Hb].
  intros a jj Hjj Ha. apply elem_of_seq in Hjj.
  apply findForce_inner_balanced; [assumption|assumption|lia|assumption].
Qed.

(** The forces that [findForce] leaves add up to zero along each axis:
    every visit adds to one atom what it takes from another.  The
    entries of the lists must be atoms of the system and no listed pair
    at distance zero (the kernel divides by the squared distance). *)
Theorem findForce_net_force_zero (atom : Atom) :
  length (fx atom) = number atom -> length (fy atom) = number atom ->
  length (fz atom) = number atom ->
  listsInRange atom -> apart atom ->
  sumQ (fx (findForce atom)) = 0 /\ sumQ (fy (findForce atom)) = 0 /\
  sumQ (fz (findForce atom)) = 0.
Proof.
  intros Lx Ly Lz Hrange _. unfold findForce.
  destruct (findForce_zero_prefix atom (number atom)) as (Hf & Zx & Zy & Zz & Hz).
  cbn zeta in *.
  set (a0 := fold_left findForce_zero (seq 0 (number atom)) atom) in *.
  assert (Hb0 : balanced atom a0).
  { split; [exact Hf|]. rewrite Zx, Zy, Zz. do 3 (split; [assumption|]).
    split; [|split]; apply sumQ_all_zero; intros n Hn;
      rewrite ?Zx, ?Zy, ?Zz in Hn; apply (Hz n); lia. }
  assert (Hnum : number a0 = number atom) by apply (exceptForces_fields _ _ Hf).
  assert (Hb : balanced atom (fold_left findForce_outer (seq 0 (number a0)) a0)).
  { apply (fold_left_invariant (balanced atom)); [|exact Hb0].
    intros a i Hi Ha. apply elem_of_seq in Hi.
    apply findForce_outer_balanced; [assumption|lia|assumption]. }
  destruct Hb as (_ & _ & _ & _ & Sx & Sy & Sz). auto.
Qed.

Lemma dimer_listsInRange : listsInRange dimer.
Proof.
  assert (Hn : number dimer = 2%nat) by (vm_compute; reflexivity).
  assert (H0 : NN dimer !!! 0%nat = 1%nat) by (vm_compute; reflexivity).
  assert (H1 : NN dimer !!! 1%nat = 1%nat) by (vm_compute; reflexivity).
  intros i jj Hi Hjj. rewrite Hn in *.
  assert (Hcase : i = 0%nat \/ i = 1%nat) by lia.
  destruct Hcase as [-> | ->].
  - rewrite H0 in Hjj. assert (jj = 0%nat) as -> by lia. vm_compute. lia.
  - rewrite H1 in Hjj. assert (jj = 0%nat) as -> by lia. vm_compute. lia.
Qed.

Lemma dimer_apart : apart dimer.
Proof.
  assert (Hn : number dimer = 2%nat) by (vm_compute; reflexivity).
  assert (H0 : NN dimer !!! 0%nat = 1%nat) by (vm_compute; reflexivity).
  assert (H1 : NN dimer !!! 1%nat = 1%nat) by (vm_compute; reflexivity).
  intros i jj Hi Hjj. rewrite Hn in *.
  assert (Hcase : i = 0%nat \/ i = 1%nat) by lia.
  destruct Hcase as [-> | ->].
  - rewrite H0 in Hjj. assert (jj = 0%nat) as -> by lia. vm_compute. discriminate.
  - rewrite H1 in Hjj. assert (jj = 0%nat) as -> by lia. vm_compute. discriminate.
Qed.

Lemma findForce_net_force_zero_witness :
  sumQ (fx (findForce dimer)) = 0 /\ sumQ (fy (findForce dimer)) = 0 /\
  sumQ (fz (findForce dimer)) = 0.
Proof.
  apply findForce_net_force_zero;
    [vm_compute; reflexivity..|exact dimer_listsInRange|exact dimer_apart].
Defined.

Section TersoffBalance.

Variables sqrt exp cos sin : Qc -> Qc.



End TersoffBalance.


(** ** Velocities and the integrator *)

Definition velocity (atom : Atom) (n : nat) : Qc * Qc * Qc :=
  (vx atom !!! n, vy atom !!! n, vz atom !!! n).

Definition force (atom : Atom) (n : nat) : Qc * Qc * Qc :=
  (fx atom !!! n, fy atom !!! n, fz atom !!! n).

(** The total momentum along the axis [d]. *)
Definition momentum (atom : Atom) (d : nat) : Qc :=
  sumOver (number atom) (fun n => mass atom !!! n * coord (velocity atom n) d).

(** All of a state but the velocities and the positions. *)
Definition exceptMotion (a : Atom) :=
  (number a, numUpdates a, MN a, cutoffNeighbor a, box a, NN a, NL a, mass a,
   (x0 a, y0 a, z0 a), (fx a, fy a, fz a), pe a).

Definition vlengths (a : Atom) : nat * nat * nat :=
  (length (vx a), length (vy a), length (vz a)).

Lemma exceptMotion_fields (a b : Atom) :
  exceptMotion b = exceptMotion a ->
  number b = number a /\ MN b = MN a /\ NN b = NN a /\ NL b = NL a /\ mass b = mass a /\
  fx b = fx a /\ fy b = fy a /\ fz b = fz a.
Proof. unfold exceptMotion. intros [= -> _ -> _ _ -> -> -> _ _ _ -> -> -> _]. auto 20. Qed.

Lemma findKineticEnergy_sum (atom : Atom) :
  findKineticEnergy atom =
  sumOver (number atom)
    (fun n => mass atom !!! n *
              (vx atom !!! n * vx atom !!! n + vy atom !!! n * vy atom !!! n +
               vz atom !!! n * vz atom !!! n)) * (1#2).
Proof. reflexivity. Qed.

(** A loop over the atoms that gives atom [n] a new velocity computed
    from its old one and from what the loop does not write. *)
Section VelocityLoop.

Variable update : Atom -> nat -> Qc * Qc * Qc.
Variable body : Atom -> nat -> Atom.

Hypothesis update_local : forall a b n,
  exceptMotion b = exceptMotion a -> velocity b n = velocity a n ->
  update b n = update a n.
Hypothesis body_frame : forall a n,
  exceptMotion (body a n) = exceptMotion a /\ vlengths (body a n) = vlengths a.
Hypothesis body_velocity : forall a n m,
  (n < length (vx a))%nat -> (n < length (vy a))%nat -> (n < length (vz a))%nat ->
  velocity (body a n) m = if decide (m = n) then update a n else velocity a m.

Lemma velocityLoop_spec (atom : Atom) (k : nat) :
  (k <= length (vx atom))%nat -> (k <= length (vy atom))%nat ->
  (k <= length (vz atom))%nat ->
  let atom' := fold_left body (seq 0 k) atom in
  exceptMotion atom' = exceptMotion atom /\ vlengths atom' = vlengths atom /\
  forall m, velocity atom' m =
            if decide (m < k)%nat then update atom m else velocity atom m.
Proof.
  induction k as [|k IH]; intros Lx Ly Lz.
  - cbn [seq fold_left]. do 2 (split; [reflexivity|]). intros m.
    destruct (decide (m < 0)%nat); [lia|reflexivity].
  - rewrite seq_S, fold_left_app. cbn [fold_left Nat.add].
    destruct IH as (Hf & Hl & Hv); [lia..|].
    set (a1 := fold_left body (seq 0 k) atom) in *.
    cbn zeta. destruct (body_frame a1 k) as [Ff Fl].
    split; [congruence|]. split; [congruence|].
    assert (Hl' : length (vx a1) = length (vx atom) /\ length (vy a1) = length (vy atom) /\
                  length (vz a1) = length (vz atom)).
    { unfold vlengths in Hl. injection Hl as -> -> ->. auto. }
    destruct Hl' as (L1 & L2 & L3).
    intros m. rewrite body_velocity by lia.
    destruct (decide (m = k)) as [->|Hne].
    + destruct (decide (k < S k)%nat); [|lia].
      apply update_local; [exact Hf|]. rewrite Hv.
      destruct (decide (k < k)%nat); [lia|reflexivity].
    + rewrite Hv.
      destruct (decide (m < k)%nat), (decide (m < S k)%nat); try reflexivity; lia.
Qed.

End VelocityLoop.

Lemma set_vxyz_velocity (a : Atom) (n m : nat) (u : Qc * Qc * Qc) :
  (n < length (vx a))%nat -> (n < length (vy a))%nat -> (n < length (vz a))%nat ->
  velocity (set_vxyz (<[n := u.1.1]> (vx a)) (<[n := u.1.2]> (vy a)) (<[n := u.2]> (vz a)) a) m
  = if decide (m = n) then u else velocity a m.
Proof.
  intros Lx Ly Lz. unfold velocity. cbn [vx vy vz set_vxyz].
  destruct (decide (m = n)) as [->|Hne].
  - rewrite !list_lookup_total_insert_eq by assumption. destruct u as [[u0 u1] u2]. reflexivity.
  - rewrite !list_lookup_total_insert_ne by congruence. reflexivity.
Qed.

(** *** [integrate] *)

Definition kick (h : Qc) (a : Atom) (n : nat) : Qc * Qc * Qc :=
  (vx a !!! n + fx a !!! n * (1 / mass a !!! n) * h,
   vy a !!! n + fy a !!! n * (1 / mass a !!! n) * h,
   vz a !!! n + fz a !!! n * (1 / mass a !!! n) * h).

Lemma kick_local (h : Qc) (a b : Atom) (n : nat) :
  exceptMotion b = exceptMotion a -> velocity b n = velocity a n ->
  kick h b n = kick h a n.
Proof.
  intros Hf Hv. destruct (exceptMotion_fields _ _ Hf) as (_ & _ & _ & _ & Em & Ex & Ey & Ez).
  unfold kick, velocity in *. injection Hv as -> -> ->. rewrite Em, Ex, Ey, Ez. reflexivity.
Qed.

Lemma integrate_body_frame (b : bool) (dt h : Qc) (a : Atom) (n : nat) :
  exceptMotion (integrate_body b dt h a n) = exceptMotion a /\
  vlengths (integrate_body b dt h a n) = vlengths a.
Proof.
  unfold integrate_body, vlengths. destruct b; cbn; rewrite !length_insert; auto.
Qed.

Lemma integrate_body_velocity (b : bool) (dt h : Qc) (a : Atom) (n m : nat) :
  (n < length (vx a))%nat -> (n < length (vy a))%nat -> (n < length (vz a))%nat ->
  velocity (integrate_body b dt h a n) m =
  if decide (m = n) then kick h a n else velocity a m.
Proof.
  intros Lx Ly Lz.
  rewrite <- (set_vxyz_velocity a n m (kick h a n) Lx Ly Lz).
  unfold integrate_body. destruct b; reflexivity.
Qed.

Lemma integrate_spec (b : bool) (dt : Qc) (atom : Atom) :
  length (vx atom) = number atom -> length (vy atom) = number atom ->
  length (vz atom) = number atom ->
  exceptMotion (integrate b dt atom) = exceptMotion atom /\
  vlengths (integrate b dt atom) = vlengths atom /\
  forall n, (n < number atom)%nat ->
    velocity (integrate b dt atom) n = kick (dt * (1#2)) atom n.
Proof.
  intros Lx Ly Lz. unfold integrate.
  destruct (velocityLoop_spec (kick (dt * (1#2))) (integrate_body b dt (dt * (1#2)))
              (kick_local _) (integrate_body_frame b dt _) (integrate_body_velocity b dt _)
              atom (number atom)) as (Hf & Hl & Hv); [lia..|].
  cbn zeta in *. split; [exact Hf|]. split; [exact Hl|].
  intros n Hn. rewrite Hv. destruct (decide (n < number atom)%nat); [reflexivity|lia].
Qed.

(** Each half of the integrator changes the total momentum along an
    axis by the total force along it times half the time step (and
    nothing else: the masses must not be zero, by which [integrate]
    divides).  With forces that add up to zero the momentum is kept. *)
Theorem integrate_momentum (isStepOne : bool) (timeStep : Qc) (atom : Atom) :
  length (vx atom) = number atom -> length (vy atom) = number atom ->
  length (vz atom) = number atom ->
  length (fx atom) = number atom -> length (fy atom) = number atom ->
  length (fz atom) = number atom ->
  (forall n, (n < number atom)%nat -> mass atom !!! n <> 0) ->
  momentum (integrate isStepOne timeStep atom) 0 =
    momentum atom 0 + sumQ (fx atom) * (timeStep * (1#2)) /\
  momentum (integrate isStepOne timeStep atom) 1 =
    momentum atom 1 + sumQ (fy atom) * (timeStep * (1#2)) /\
  momentum (integrate isStepOne timeStep atom) 2 =
    momentum atom 2 + sumQ (fz atom) * (timeStep * (1#2)).
Proof.
  intros Lx Ly Lz Fx Fy Fz Hm.
  destruct (integrate_spec isStepOne timeStep atom Lx Ly Lz) as (Hf & _ & Hv).
  destruct (exceptMotion_fields _ _ Hf) as (En & _ & _ & _ & Em & _).
  rewrite (sumQ_sumOver (fx atom)), (sumQ_sumOver (fy atom)), (sumQ_sumOver (fz atom)).
  rewrite Fx, Fy, Fz.
  unfold momentum. rewrite En, Em.
  rewrite <- !sumOver_scale, <- !sumOver_plus.
  split; [|split]; apply sumOver_ext; intros n Hn; rewrite (Hv n Hn);
    unfold kick, velocity; cbn [coord fst snd]; field; apply Hm; exact Hn.
Qed.

Lemma integrate_momentum_witness :
  momentum (integrate true (5#1) (findForce dimer)) 0 =
    momentum (findForce dimer) 0 + sumQ (fx (findForce dimer)) * ((5#1) * (1#2)) /\
  sumQ (fx (findForce dimer)) = 0.
Proof.
  assert (Hm : forall n, (n < number (findForce dimer))%nat ->
                         mass (findForce dimer) !!! n <> 0).
  { intros n Hn.
    assert (Hcase : n = 0%nat \/ n = 1%nat) by (vm_compute in Hn; lia).
    destruct Hcase as [-> | ->]; vm_compute; discriminate. }
  destruct (integrate_momentum true (5#1) (findForce dimer)) as (H & _ & _);
    [vm_compute; reflexivity..|exact Hm|].
  split; [exact H|qc_compute].
Defined.

(** *** [scaleVelocity] *)

Section Scaling.

Variable sqrt : Qc -> Qc.

Definition scaled (s : Qc) (a : Atom) (n : nat) : Qc * Qc * Qc :=
  (vx a !!! n * s, vy a !!! n * s, vz a !!! n * s).

Lemma scaled_local (s : Qc) (a b : Atom) (n : nat) :
  exceptMotion b = exceptMotion a -> velocity b n = velocity a n ->
  scaled s b n = scaled s a n.
Proof.
  intros _ Hv. unfold scaled, velocity in *. injection Hv as -> -> ->. reflexivity.
Qed.

Lemma scaleVelocity_body_frame (s : Qc) (a : Atom) (n : nat) :
  exceptMotion (scaleVelocity_body s a n) = exceptMotion a /\
  vlengths (scaleVelocity_body s a n) = vlengths a.
Proof.
  unfold scaleVelocity_body, vlengths. cbn. rewrite !length_insert. auto.
Qed.

Lemma scaleVelocity_body_velocity (s : Qc) (a : Atom) (n m : nat) :
  (n < length (vx a))%nat -> (n < length (vy a))%nat -> (n < length (vz a))%nat ->
  velocity (scaleVelocity_body s a n) m =
  if decide (m = n) then scaled s a n else velocity a m.
Proof.
  intros Lx Ly Lz. apply (set_vxyz_velocity a n m (scaled s a n) Lx Ly Lz).
Qed.

Lemma scaleVelocity_spec (T0 : Qc) (atom : Atom) :
  length (vx atom) = number atom -> length (vy atom) = number atom ->
  length (vz atom) = number atom ->
  exceptMotion (scaleVelocity sqrt T0 atom) = exceptMotion atom /\
  vlengths (scaleVelocity sqrt T0 atom) = vlengths atom /\
  forall n, (n < number atom)%nat ->
    velocity (scaleVelocity sqrt T0 atom) n =
    scaled (sqrt (T0 / temperatureOf atom)) atom n.
Proof.
  intros Lx Ly Lz. unfold scaleVelocity. cbn zeta.
  set (s := sqrt (T0 / temperatureOf atom)).
  destruct (velocityLoop_spec (scaled s) (scaleVelocity_body s)
              (scaled_local s) (scaleVelocity_body_frame s) (scaleVelocity_body_velocity s)
              atom (number atom)) as (Hf & Hl & Hv); [lia..|].
  cbn zeta in *. split; [exact Hf|]. split; [exact Hl|].
  intros n Hn. rewrite Hv. destruct (decide (n < number atom)%nat); [reflexivity|lia].
Qed.

(** [scaleVelocity] multiplies every velocity by the same factor, so
    the kinetic energy by its square and the momentum by the factor;
    the temperature computed after the call is [T0] when the square
    root is exact on [T0 / temperature] and the temperature before the
    call is not zero. *)
Theorem scaleVelocity_sets_temperature (T0 : Qc) (atom : Atom) :
  length (vx atom) = number atom -> length (vy atom) = number atom ->
  length (vz atom) = number atom ->
  temperatureOf atom <> 0 ->
  sqrt (T0 / temperatureOf atom) * sqrt (T0 / temperatureOf atom) = T0 / temperatureOf atom ->
  findKineticEnergy (scaleVelocity sqrt T0 atom) =
    T0 / temperatureOf atom * findKineticEnergy atom /\
  (forall d, momentum (scaleVelocity sqrt T0 atom) d =
             momentum atom d * sqrt (T0 / temperatureOf atom)) /\
  temperatureOf (scaleVelocity sqrt T0 atom) = T0.
Proof.
  intros Lx Ly Lz Htemp Hsq.
  destruct (scaleVelocity_spec T0 atom Lx Ly Lz) as (Hf & _ & Hv).
  destruct (exceptMotion_fields _ _ Hf) as (En & _ & _ & _ & Em & _).
  set (s := sqrt (T0 / temperatureOf atom)) in *.
  assert (HK : findKineticEnergy (scaleVelocity sqrt T0 atom) =
               T0 / temperatureOf atom * findKineticEnergy atom).
  { rewrite !findKineticEnergy_sum, En, Em, <- Hsq.
    transitivity
      (sumOver (number atom)
         (fun n => mass atom !!! n *
                   (vx atom !!! n * vx atom !!! n + vy atom !!! n * vy atom !!! n +
                    vz atom !!! n * vz atom !!! n) * (s * s)) * (1#2)).
    - f_equal. apply sumOver_ext. intros n Hn.
      pose proof (Hv n Hn) as E. unfold velocity, scaled in E.
      injection E as -> -> ->. ring.
    - rewrite sumOver_scale. ring. }
  split; [exact HK|]. split.
  - intros d. unfold momentum. rewrite En, Em, <- sumOver_scale.
    apply sumOver_ext. intros n Hn. rewrite (Hv n Hn).
    unfold scaled, velocity. destruct d as [|[|d]]; cbn [coord fst snd]; ring.
  - unfold temperatureOf at 1. rewrite HK, En.
    fold (temperatureOf atom).
    transitivity (T0 / temperatureOf atom *
                  (findKineticEnergy atom * (2#1) /
                   ((3#1) * K_B * ofInt (Z.of_nat (number atom))))).
    { unfold Qcdiv. ring. }
    fold (temperatureOf atom). field. exact Htemp.
Qed.

End Scaling.

(** One atom of mass 40 with the velocity [(3, 0, 4)]. *)
Definition mover : Atom :=
  set_vxyz [3#1] [0] [4#1] (cubicSystem (40#1) 1000 (10#1) [pointZ 1 1 1]).

Lemma scaleVelocity_sets_temperature_witness :
  temperatureOf (scaleVelocity sqrtExact ((4#1) * temperatureOf mover) mover)
  = (4#1) * temperatureOf mover.
Proof.
  assert (Htemp : temperatureOf mover <> 0) by (vm_compute; discriminate).
  assert (Hsq : sqrtExact ((4#1) * temperatureOf mover / temperatureOf mover) *
                sqrtExact ((4#1) * temperatureOf mover / temperatureOf mover) =
                (4#1) * temperatureOf mover / temperatureOf mover) by qc_compute.
  exact (proj2 (proj2 (scaleVelocity_sets_temperature sqrtExact _ mover
                         eq_refl eq_refl eq_refl Htemp Hsq))).
Defined.

(** *** [initializeVelocity] *)



Section Drawing.

Variable rand : nat -> Z.
Variable RAND_MAX : Z.









End Drawing.


